(** * OpenFold (MLCommons HPC): Evoformer stack, shared-mask dropout and
      Invariant Point Attention

    A shallow embedding of
      - openfold/model/dropout.py
      - openfold/model/evoformer_block.py
      - openfold/model/evoformer_stack.py
      - openfold/model/invariant_point_attention.py
      - utils/gpu_mem_analyze.py (the report difference and its printing)
    Tensor entries are real numbers (exact arithmetic).  Python exceptions are
    values of [exn]; code that touches tensor objects, the random generator or
    the autograd mode runs in the state-and-error monad [M]. *)

From Stdlib Require Import Reals Lra Lia ZArith List Psatz Bool QArith.
From stdpp Require Import base option list gmap strings pretty.

Local Open Scope R_scope.

(* ===================================================================== *)
(** ** Python exceptions and the two monads                               *)
(* ===================================================================== *)

(** The exceptions the modelled code can raise.  [AssertionError] carries the
    arguments of the exception object: a bare [assert cond] raises
    [AssertionError()] whose argument tuple is empty. *)
Inductive exn : Type :=
  | AssertionError (args : list R)
  | IndexError
  | ZeroDivisionError
  | ValueError
  | RuntimeError.

(** Pure fallible code. *)
Definition Result (A : Type) : Type := (exn + A)%type.

Definition raise {A : Type} (e : exn) : Result A := inl e.
Definition ok {A : Type} (x : A) : Result A := inr x.
Definition bindR {A B : Type} (m : Result A) (k : A -> Result B) : Result B :=
  match m with
  | inl e => inl e
  | inr x => k x
  end.

(** Two outcomes agree: the same exception, or values related by [P]. *)
Definition result_rel {A : Type} (P : A -> A -> Prop) (x y : Result A) : Prop :=
  match x, y with
  | inr u, inr v => P u v
  | inl e, inl e' => e = e'
  | _, _ => False
  end.

Notation "'let?' x ':=' m 'in' k" := (bindR m (fun x => k))
  (at level 10, x name, m at level 100, k at level 200).

(* ===================================================================== *)
(** ** Real-number helpers                                                *)
(* ===================================================================== *)

(** [big_sum n f] is [f 0 + ... + f (n-1)], the reduction of one tensor axis
    of length [n]. *)
Fixpoint big_sum (n : nat) (f : nat -> R) : R :=
  match n with
  | O => 0
  | S n' => big_sum n' f + f n'
  end.

(** Python float division [x / y]. *)
Definition py_div (x y : R) : Result R :=
  if Req_dec_T y 0 then raise ZeroDivisionError else ok (x / y).

(** [math.sqrt]. *)
Definition math_sqrt (x : R) : Result R :=
  if Rlt_dec x 0 then raise ValueError else ok (sqrt x).

(** [torch.nn.functional.softplus] with its defaults [beta=1], [threshold=20]:
    the function is the identity above the threshold. *)
Definition F_softplus (x : R) : R :=
  if Rlt_dec 20 x then x else ln (1 + exp x).

(** [torch.softmax] over an axis of length [n], over the reals: there is no
    rounding and no underflow, so a weight that floating point rounds to 0 is
    small and positive here. *)
Definition softmax (n : nat) (x : nat -> R) : nat -> R :=
  fun j => exp (x j) / big_sum n (fun j' => exp (x j')).

(** [torch.nn.functional.linear(x, weight, bias)] on the last axis, whose
    length is [n_in]: [y = x W^T + bias]. *)
Definition F_linear (n_in : nat) (x : nat -> R)
    (weight : nat -> nat -> R) (bias : nat -> R) : nat -> R :=
  fun o => big_sum n_in (fun c => x c * weight o c) + bias o.

(** [torch.cat] of two last axes, the first of length [n1]. *)
Definition cat2 (n1 : nat) (f1 f2 : nat -> R) : nat -> R :=
  fun n => if (n <? n1)%nat then f1 n else f2 (n - n1)%nat.

(* ===================================================================== *)
(** ** Rigid transformations                                              *)
(* ===================================================================== *)

Module Rigid.

(** A tensor axis of length 3 holding the coordinates of one point. *)
Record vec3 : Type := mkvec3 { vx : R; vy : R; vz : R }.

(** A 3x3 rotation matrix, row major. *)
Record mat3 : Type := mkmat3 {
  r00 : R; r01 : R; r02 : R;
  r10 : R; r11 : R; r12 : R;
  r20 : R; r21 : R; r22 : R }.

(** Modelled from the spec: the rigid-transform service
    ([openfold.rigid_utils.Rigid], not among the sources): a frame is a
    rotation plus a translation; [apply] maps local points to global ones,
    [invert_apply] maps global points to local ones, and frames compose. *)
Record t : Type := mk { rots : mat3; trans : vec3 }.

Definition vadd (u v : vec3) : vec3 :=
  mkvec3 (vx u + vx v) (vy u + vy v) (vz u + vz v).

Definition vsub (u v : vec3) : vec3 :=
  mkvec3 (vx u - vx v) (vy u - vy v) (vz u - vz v).

Definition rot_vec_mul (m : mat3) (p : vec3) : vec3 :=
  mkvec3 (r00 m * vx p + r01 m * vy p + r02 m * vz p)
         (r10 m * vx p + r11 m * vy p + r12 m * vz p)
         (r20 m * vx p + r21 m * vy p + r22 m * vz p).

Definition rot_matmul (a b : mat3) : mat3 :=
  mkmat3
    (r00 a * r00 b + r01 a * r10 b + r02 a * r20 b)
    (r00 a * r01 b + r01 a * r11 b + r02 a * r21 b)
    (r00 a * r02 b + r01 a * r12 b + r02 a * r22 b)
    (r10 a * r00 b + r11 a * r10 b + r12 a * r20 b)
    (r10 a * r01 b + r11 a * r11 b + r12 a * r21 b)
    (r10 a * r02 b + r11 a * r12 b + r12 a * r22 b)
    (r20 a * r00 b + r21 a * r10 b + r22 a * r20 b)
    (r20 a * r01 b + r21 a * r11 b + r22 a * r21 b)
    (r20 a * r02 b + r21 a * r12 b + r22 a * r22 b).

Definition invert_rot_mat (m : mat3) : mat3 :=
  mkmat3 (r00 m) (r10 m) (r20 m)
         (r01 m) (r11 m) (r21 m)
         (r02 m) (r12 m) (r22 m).

Definition identity_rot_mat : mat3 :=
  mkmat3 1 0 0
         0 1 0
         0 0 1.

(** Modelled from the spec: [Rigid.apply], local to global: rotate, then
    translate. *)
Definition apply (r : t) (pts : vec3) : vec3 :=
  vadd (rot_vec_mul (rots r) pts) (trans r).

(** Modelled from the spec: [Rigid.invert_apply], global to local: undo the
    translation, then rotate by the transpose. *)
Definition invert_apply (r : t) (pts : vec3) : vec3 :=
  rot_vec_mul (invert_rot_mat (rots r)) (vsub pts (trans r)).

Definition invert_apply_jit : t -> vec3 -> vec3 := invert_apply.

(** Modelled from the spec: frame composition; [compose g r] first applies
    [r], then [g]. *)
Definition compose (g r : t) : t :=
  mk (rot_matmul (rots g) (rots r)) (apply g (trans r)).

Definition identity : t := mk identity_rot_mat (mkvec3 0 0 0).

(** Squared length of a vector. *)
Definition norm2 (d : vec3) : R := vx d * vx d + vy d * vy d + vz d * vz d.

(** The rotation part of a rigid transform is orthogonal. *)
Definition is_rigid (g : t) : Prop :=
  rot_matmul (invert_rot_mat (rots g)) (rots g) = identity_rot_mat.

End Rigid.

(* ===================================================================== *)
(** ** Tensor objects, the ambient process state and the monad [M]        *)
(* ===================================================================== *)

(** A tensor of any rank: its shape and its entries by multi-index. *)
Record Tensor : Type := mkTensor {
  shape : list nat;
  data : list nat -> R }.

(** A multi-index that addresses an entry of a tensor of shape [sh]. *)
Definition valid_index (sh idx : list nat) : Prop :=
  Forall2 (fun i d => (i < d)%nat) idx sh.

(** Python indexing of a sequence of length [len] by a possibly negative
    integer. *)
Definition py_index (len : nat) (d : Z) : Result nat :=
  if ((0 <=? d) && (d <? Z.of_nat len))%Z then ok (Z.to_nat d)
  else if ((- Z.of_nat len <=? d) && (d <? 0))%Z
       then ok (Z.to_nat (Z.of_nat len + d))
       else raise IndexError.

(** Broadcasting of two shapes (aligned at the trailing axis). *)
Definition pad_shape (n : nat) (s : list nat) : list nat :=
  replicate (n - length s) 1%nat ++ s.

Fixpoint broadcast_zip (s1 s2 : list nat) : Result (list nat) :=
  match s1, s2 with
  | [], [] => ok []
  | d1 :: r1, d2 :: r2 =>
      let? r := broadcast_zip r1 r2 in
      if (d1 =? d2)%nat then ok (d1 :: r)
      else if (d1 =? 1)%nat then ok (d2 :: r)
      else if (d2 =? 1)%nat then ok (d1 :: r)
      else raise RuntimeError
  | _, _ => raise RuntimeError
  end.

Definition broadcast_shapes (s1 s2 : list nat) : Result (list nat) :=
  let n := Nat.max (length s1) (length s2) in
  broadcast_zip (pad_shape n s1) (pad_shape n s2).

(** The index into a tensor of shape [sh] that the entry [idx] of the
    broadcast result reads: trailing axes, with axes of length 1 pinned to 0. *)
Definition bcast_index (sh idx : list nat) : list nat :=
  zip_with (fun d i => if (d =? 1)%nat then 0%nat else i)
           sh (drop (length idx - length sh) idx).

Definition bcast_get (t : Tensor) (idx : list nat) : R :=
  data t (bcast_index (shape t) idx).

(** [x * y] and [x + y] on tensors. *)
Definition tensor_mul (x y : Tensor) : Result Tensor :=
  let? sh := broadcast_shapes (shape x) (shape y) in
  ok (mkTensor sh (fun idx => bcast_get x idx * bcast_get y idx)).

Definition tensor_add (x y : Tensor) : Result Tensor :=
  let? sh := broadcast_shapes (shape x) (shape y) in
  ok (mkTensor sh (fun idx => bcast_get x idx + bcast_get y idx)).

(** Modelled from the spec: the generic linear-layer wrapper
    ([openfold.model.linear.Linear], not among the sources) holds a weight
    [out_features, in_features] and a bias [out_features]; calling it is
    [F.linear] on the last axis. *)
Record Linear : Type := mkLinear {
  in_features : nat;
  out_features : nat;
  weight : nat -> nat -> R;
  bias : nat -> R }.

(** The wrapper applied to one last-axis vector of length [n_in]. *)
Definition Linear_forward (n_in : nat) (l : Linear) (x : nat -> R) : nat -> R :=
  F_linear n_in x (weight l) (bias l).

(** The wrapper applied to a tensor object. *)
Definition Linear_forward_tensor (l : Linear) (t : Tensor) : Result Tensor :=
  match reverse (shape t) with
  | [] => raise RuntimeError
  | n_in :: lead =>
      if (n_in =? in_features l)%nat
      then ok (mkTensor (reverse lead ++ [out_features l])
                 (fun idx =>
                    Linear_forward n_in l
                      (fun c => data t (removelast idx ++ [c]))
                      (List.last idx 0%nat)))
      else raise RuntimeError
  end.

(** [m[:, 0, :, :]]: the tensor needs at least four axes and a non-empty
    second axis, which is dropped. *)
Definition select_first_row (t : Tensor) : Result Tensor :=
  match shape t with
  | b :: s :: n :: c :: rest =>
      if (s =? 0)%nat then raise IndexError
      else ok (mkTensor (b :: n :: c :: rest)
                 (fun idx =>
                    match idx with
                    | bi :: tail => data t (bi :: 0%nat :: tail)
                    | [] => 0
                    end))
  | _ => raise IndexError
  end.

(** Modelled from the spec: the distributed-parallel service
    ([openfold.dynamic_axial_parallelism], not among the sources).  A worker
    knows whether the service is active, the group size and its own rank;
    [scatter] keeps the worker's contiguous slice of an axis; [gather] and
    [row_to_col] are collectives whose result depends on the other workers
    and are left opaque. *)
Module dap.

Record Context : Type := mkContext {
  is_enabled : bool;
  size : nat;
  rank : nat;
  gather : Tensor -> Z -> Tensor;
  row_to_col : Tensor -> Tensor }.

Definition scatter (ctx : Context) (t : Tensor) (dim : Z) : Result Tensor :=
  let? k := py_index (length (shape t)) dim in
  let chunk := ((shape t !!! k) / size ctx)%nat in
  ok (mkTensor (<[k := chunk]> (shape t))
        (fun idx => data t (alter (fun i => (i + rank ctx * chunk)%nat) k idx))).

End dap.

(** Tensor objects live in a store and are passed by reference. *)
Definition loc : Type := positive.

(** The state of the process that the modelled code reads or changes: the
    tensor objects, the random generator (the [rng_pos]-th draw of a tensor of
    Bernoulli samples is [rng rng_pos]), the autograd mode, the parallel
    context and the two kernel-fusion switches. *)
Record World : Type := mkWorld {
  heap : gmap loc Tensor;
  rng : nat -> list nat -> bool;
  rng_pos : nat;
  grad_enabled : bool;
  dap_ctx : dap.Context;
  inductor_hopper : bool;
  inductor_ampere : bool }.

Definition set_heap (h : gmap loc Tensor) (w : World) : World :=
  mkWorld h (rng w) (rng_pos w) (grad_enabled w) (dap_ctx w)
          (inductor_hopper w) (inductor_ampere w).

Definition set_rng_pos (n : nat) (w : World) : World :=
  mkWorld (heap w) (rng w) n (grad_enabled w) (dap_ctx w)
          (inductor_hopper w) (inductor_ampere w).

Definition set_grad_enabled (b : bool) (w : World) : World :=
  mkWorld (heap w) (rng w) (rng_pos w) b (dap_ctx w)
          (inductor_hopper w) (inductor_ampere w).

(** Stateful fallible code: a result or an exception, and the state reached. *)
Definition M (A : Type) : Type := World -> Result A * World.

Definition retM {A : Type} (x : A) : M A := fun w => (inr x, w).

Definition raiseM {A : Type} (e : exn) : M A := fun w => (inl e, w).

Definition bindM {A B : Type} (m : M A) (k : A -> M B) : M B :=
  fun w =>
    match m w with
    | (inl e, w') => (inl e, w')
    | (inr x, w') => k x w'
    end.

Definition liftR {A : Type} (r : Result A) : M A := fun w => (r, w).

Notation "'do' x <- m ; k" := (bindM m (fun x => k))
  (at level 10, x name, m at level 100, k at level 200).
Notation "'do' ' pat <- m ; k" :=
  (bindM m (fun x => match x with pat => k end))
  (at level 10, pat pattern, m at level 100, k at level 200).

(** Reading a tensor object.  A location that holds no object cannot occur
    in Python; the model answers with [RuntimeError]. *)
Definition deref (l : loc) : M Tensor :=
  fun w =>
    match heap w !! l with
    | Some t => (inr t, w)
    | None => (inl RuntimeError, w)
    end.

(** A new tensor object. *)
Definition alloc (t : Tensor) : M loc :=
  fun w =>
    let l := fresh (dom (heap w)) in
    (inr l, set_heap (<[l := t]> (heap w)) w).

(** Overwriting a tensor object in place. *)
Definition store (l : loc) (t : Tensor) : M unit :=
  fun w => (inr tt, set_heap (<[l := t]> (heap w)) w).

(** The next tensor of Bernoulli samples of the generator. *)
Definition bernoulli_draw : M (list nat -> bool) :=
  fun w => (inr (rng w (rng_pos w)), set_rng_pos (S (rng_pos w)) w).

Definition torch_is_grad_enabled : M bool :=
  fun w => (inr (grad_enabled w), w).

Definition dap_size : M nat := fun w => (inr (dap.size (dap_ctx w)), w).
Definition dap_is_enabled : M bool :=
  fun w => (inr (dap.is_enabled (dap_ctx w)), w).

Definition dap_context : M dap.Context := fun w => (inr (dap_ctx w), w).

Definition dap_scatter (t : loc) (dim : Z) : M loc :=
  do ctx <- dap_context;
  do ts <- deref t;
  do r <- liftR (dap.scatter ctx ts dim);
  alloc r.

Definition dap_gather (t : loc) (dim : Z) : M loc :=
  do ctx <- dap_context;
  do ts <- deref t;
  alloc (dap.gather ctx ts dim).

Definition dap_row_to_col (t : loc) : M loc :=
  do ctx <- dap_context;
  do ts <- deref t;
  alloc (dap.row_to_col ctx ts).

Definition inductor_is_enabled_on_hopper : M bool :=
  fun w => (inr (inductor_hopper w), w).
Definition inductor_is_enabled_on_ampere : M bool :=
  fun w => (inr (inductor_ampere w), w).

(** A bare [assert cond]. *)
Definition py_assert (cond : bool) : M unit :=
  if cond then retM tt else raiseM (AssertionError []).

(** [x.new_ones(shape)]. *)
Definition new_ones (x : loc) (shape : list nat) : M loc :=
  alloc (mkTensor shape (fun _ => 1)).

(** [torch.nn.functional.dropout(input, p, training, inplace)].  Outside
    training, and for [p = 0], the input object itself is returned; for
    [p = 1] the input is multiplied by zero; otherwise it is multiplied by
    Bernoulli noise divided by [1 - p].  With [inplace] the product is written
    into the input object. *)
Definition F_dropout (input : loc) (p : R) (training inplace : bool) : M loc :=
  if Rlt_dec p 0 then raiseM ValueError
  else if Rlt_dec 1 p then raiseM ValueError
  else if negb training then retM input
  else if Req_dec_T p 0 then retM input
  else
    do t <- deref input;
    do out <-
      (if Req_dec_T p 1
       then retM (mkTensor (shape t) (fun idx => data t idx * 0))
       else
         do sample <- bernoulli_draw;
         retM (mkTensor (shape t)
                 (fun idx =>
                    data t idx * ((if sample idx then 1 else 0) / (1 - p)))));
    if inplace
    then do _ <- store input out; retM input
    else alloc out.

(* ===================================================================== *)
(** ** Shared-mask dropout (dropout.py)                                   *)
(* ===================================================================== *)

Module Dropout.

(** The value passed for [share_dim]: an [int], a [tuple] of ints, or a
    Python value of another type (a list, say). *)
Inductive share_dim_arg : Type :=
  | PyInt (d : Z)
  | PyTuple (ds : list Z)
  | PyOther.

Record t : Type := mk {
  p : R;
  share_dim : list Z;
  inplace : bool;
  training : bool }.

(** [Dropout.__init__].  A module is in training mode when constructed. *)
Definition __init__ (p : R) (share_dim : share_dim_arg) (inplace : bool)
    : Result t :=
  if Rle_dec 0 p then
    if Rle_dec p 1 then
      match share_dim with
      | PyInt d => ok (mk p [d] inplace true)
      | PyTuple ds => ok (mk p ds inplace true)
      | PyOther => raise (AssertionError [])
      end
    else raise (AssertionError [])
  else raise (AssertionError []).

(** [nn.Module.train(mode)] and [nn.Module.eval()]. *)
Definition train (mode : bool) (self : t) : t :=
  mk (p self) (share_dim self) (inplace self) mode.
Definition eval (self : t) : t := train false self.

(** [for d in self.share_dim: shape[d] = 1]. *)
Fixpoint set_shared (ds : list Z) (shape : list nat) : Result (list nat) :=
  match ds with
  | [] => ok shape
  | d :: ds' =>
      let? k := py_index (length shape) d in
      set_shared ds' (<[k := 1%nat]> shape)
  end.

Definition _mul_add_eager (x mask y : loc) : M loc :=
  do tx <- deref x;
  do tmask <- deref mask;
  do ty <- deref y;
  do prod <- liftR (tensor_mul tx tmask);
  do res <- liftR (tensor_add ty prod);
  alloc res.

(** [torch.compile] keeps the meaning of the function it compiles. *)
Definition _mul_add_jit : loc -> loc -> loc -> M loc := _mul_add_eager.

Definition _mul_add (x mask y : loc) : M loc :=
  do hopper <- inductor_is_enabled_on_hopper;
  if hopper then _mul_add_jit x mask y
  else
    do ampere <- inductor_is_enabled_on_ampere;
    do n <- dap_size;
    if ampere && (n <=? 1)%nat then _mul_add_jit x mask y
    else _mul_add_eager x mask y.

(** [Dropout.forward]. *)
Definition forward (self : t) (x add_output_to : loc)
    (dap_scattered_dim : option Z) : M loc :=
  do tx <- deref x;
  let shape := shape tx in
  do shape <- liftR (set_shared (share_dim self) shape);
  do shape <-
    match dap_scattered_dim with
    | None => retM shape
    | Some d =>
        do k <- liftR (py_index (length shape) d);
        do n <- dap_size;
        retM (<[k := ((shape !!! k) * n)%nat]> shape)
    end;
  do mask <- new_ones x shape;
  do mask <- F_dropout mask (p self) (training self) (inplace self);
  do mask <-
    match dap_scattered_dim with
    | None => retM mask
    | Some d => dap_scatter mask d
    end;
  do x <- _mul_add x mask add_output_to;
  retM x.

End Dropout.

Module DropoutRowwise.
Definition __init__ (p : R) : Result Dropout.t :=
  Dropout.__init__ p (Dropout.PyInt (-3)) false.
End DropoutRowwise.

Module DropoutColumnwise.
Definition __init__ (p : R) : Result Dropout.t :=
  Dropout.__init__ p (Dropout.PyInt (-2)) false.
End DropoutColumnwise.

(* ===================================================================== *)
(** ** Evoformer block (evoformer_block.py)                               *)
(* ===================================================================== *)

Module EvoformerBlock.

(** The three collaborators of the block are not among the sources
    ([MSARowAttentionWithPairBias], [MSAColumnAttention],
    [EvoformerBlockCore]); each is a function of its tensor arguments that
    returns new tensors. *)
Record t : Type := mk {
  msa_att_row : Tensor -> Tensor -> Tensor -> Tensor;
  msa_att_col : Tensor -> Tensor -> Tensor;
  msa_dropout_rowwise : Dropout.t;
  core : Tensor -> Tensor -> Tensor -> Tensor -> Tensor * Tensor }.

(** [EvoformerBlock.__init__]: the collaborators are built from the
    dimension arguments by code that is not among the sources and come here
    as arguments; the dropout is [DropoutRowwise(p=msa_dropout)]. *)
Definition __init__
    (msa_att_row : Tensor -> Tensor -> Tensor -> Tensor)
    (msa_att_col : Tensor -> Tensor -> Tensor)
    (core : Tensor -> Tensor -> Tensor -> Tensor -> Tensor * Tensor)
    (msa_dropout : R) : Result t :=
  let? msa_dropout_rowwise := DropoutRowwise.__init__ msa_dropout in
  ok (mk msa_att_row msa_att_col msa_dropout_rowwise core).

(** [nn.Module.train(mode)] reaches the dropout submodule. *)
Definition train (mode : bool) (self : t) : t :=
  mk (msa_att_row self) (msa_att_col self)
     (Dropout.train mode (msa_dropout_rowwise self)) (core self).

Definition call_msa_att_row (self : t) (m z mask : loc) : M loc :=
  do tm <- deref m;
  do tz <- deref z;
  do tmask <- deref mask;
  alloc (msa_att_row self tm tz tmask).

Definition call_msa_att_col (self : t) (m mask : loc) : M loc :=
  do tm <- deref m;
  do tmask <- deref mask;
  alloc (msa_att_col self tm tmask).

Definition call_core (self : t) (m z msa_mask pair_mask : loc)
    : M (loc * loc) :=
  do tm <- deref m;
  do tz <- deref z;
  do tmsa <- deref msa_mask;
  do tpair <- deref pair_mask;
  let '(m', z') := core self tm tz tmsa tpair in
  do m <- alloc m';
  do z <- alloc z';
  retM (m, z).

(** [EvoformerBlock.forward]. *)
Definition forward (self : t) (m z msa_mask pair_mask : loc)
    : M (loc * loc) :=
  do enabled <- dap_is_enabled;
  do m <-
    (if enabled then
       do msa_mask_row <- dap_scatter msa_mask 1;
       do msa_mask_col <- dap_scatter msa_mask 2;
       do att <- call_msa_att_row self m z msa_mask_row;
       do m <- Dropout.forward (msa_dropout_rowwise self) att m None;
       do m <- dap_row_to_col m;
       call_msa_att_col self m msa_mask_col
     else
       do att <- call_msa_att_row self m z msa_mask;
       do m <- Dropout.forward (msa_dropout_rowwise self) att m None;
       call_msa_att_col self m msa_mask);
  do '(m, z) <- call_core self m z msa_mask pair_mask;
  retM (m, z).

End EvoformerBlock.

(* ===================================================================== *)
(** ** Evoformer stack (evoformer_stack.py)                               *)
(* ===================================================================== *)

Module EvoformerStack.

Record t : Type := mk {
  blocks : list EvoformerBlock.t;
  linear : Linear }.

(** Modelled from the spec: the recomputation service
    ([torch.utils.checkpoint.checkpoint] with [use_reentrant=True]) runs the
    function now, with gradient recording switched off for the duration of
    the call, and re-runs it during the gradient pass. *)
Definition gradient_checkpointing_fn {A : Type}
    (run_function : loc -> loc -> M A) (m z : loc) : M A :=
  fun w =>
    let prev := grad_enabled w in
    let '(r, w') := run_function m z (set_grad_enabled false w) in
    (r, set_grad_enabled prev w').

(** [for block in blocks: m, z = body(block)]. *)
Fixpoint for_blocks {B : Type} (body : B -> loc -> loc -> M (loc * loc))
    (blocks : list B) (m z : loc) : M (loc * loc) :=
  match blocks with
  | [] => retM (m, z)
  | block :: rest =>
      do '(m, z) <- body block m z;
      for_blocks body rest m z
  end.

(** [if dap.is_enabled(): m = f(m, dim=1); z = f(z, dim=1)]. *)
Definition dap_both (f : loc -> Z -> M loc) (m z : loc) : M (loc * loc) :=
  do enabled <- dap_is_enabled;
  if enabled then
    do m <- f m 1%Z;
    do z <- f z 1%Z;
    retM (m, z)
  else retM (m, z).

Definition _forward_blocks (self : t) (m z msa_mask pair_mask : loc)
    : M (loc * loc) :=
  do '(m, z) <- dap_both dap_scatter m z;
  do '(m, z) <-
    for_blocks
      (fun block m z => EvoformerBlock.forward block m z msa_mask pair_mask)
      (blocks self) m z;
  do '(m, z) <- dap_both dap_gather m z;
  retM (m, z).

Definition _forward_blocks_with_gradient_checkpointing (self : t)
    (m z msa_mask pair_mask : loc) : M (loc * loc) :=
  (* partial(block, msa_mask=msa_mask, pair_mask=pair_mask) *)
  let blocks : list (loc -> loc -> M (loc * loc)) :=
    List.map
      (fun block m z => EvoformerBlock.forward block m z msa_mask pair_mask)
      (blocks self) in
  do '(m, z) <- dap_both dap_scatter m z;
  do '(m, z) <-
    for_blocks (fun block m z => gradient_checkpointing_fn block m z)
      blocks m z;
  do '(m, z) <- dap_both dap_gather m z;
  retM (m, z).

(** [EvoformerStack.forward]. *)
Definition forward (self : t) (m z msa_mask pair_mask : loc)
    (gradient_checkpointing : bool) : M (loc * loc * loc) :=
  do '(m, z) <-
    (if gradient_checkpointing then
       do g <- torch_is_grad_enabled;
       do _ <- py_assert g;
       _forward_blocks_with_gradient_checkpointing self m z msa_mask pair_mask
     else _forward_blocks self m z msa_mask pair_mask);
  do tm <- deref m;
  do row <- liftR (select_first_row tm);
  do ts <- liftR (Linear_forward_tensor (linear self) row);
  do s <- alloc ts;
  retM (m, z, s).

End EvoformerStack.

(* ===================================================================== *)
(** ** Invariant Point Attention (invariant_point_attention.py)           *)
(* ===================================================================== *)

Module InvariantPointAttention.
Import Rigid.

(** Tensors of fixed rank are functions of their indices; the leading
    index is always the batch index. *)
Definition T2 : Type := nat -> nat -> R.
Definition T3 : Type := nat -> nat -> nat -> R.
Definition T4 : Type := nat -> nat -> nat -> nat -> R.
Definition T5 : Type := nat -> nat -> nat -> nat -> nat -> R.
(** Point tensors: the trailing axis of length 3 is a [vec3]. *)
Definition P3 : Type := nat -> nat -> nat -> vec3.
Definition P4 : Type := nat -> nat -> nat -> nat -> vec3.
(** Frames [batch, N_res]. *)
Definition Frames : Type := nat -> nat -> Rigid.t.

Record t : Type := mk {
  c_s : nat;
  c_z : nat;
  c_hidden : nat;
  num_heads : nat;
  num_qk_points : nat;
  num_v_points : nat;
  inf : R;
  eps : R;
  linear_q : Linear;
  linear_kv : Linear;
  linear_q_points : Linear;
  linear_kv_points : Linear;
  linear_b : Linear;
  head_weights : nat -> R;
  linear_out : Linear }.

(** [_forward_linears_on_inputs_eager]; [n_s] and [n_z] are the lengths of
    the last axes of [s] and [z]. *)
Definition _forward_linears_on_inputs_eager (n_s n_z : nat)
    (s : T3) (z : T4)
    (w_q : nat -> nat -> R) (b_q : nat -> R)
    (w_b : nat -> nat -> R) (b_b : nat -> R)
    (w_kv : nat -> nat -> R) (b_kv : nat -> R)
    (w_q_points : nat -> nat -> R) (b_q_points : nat -> R)
    (w_kv_points : nat -> nat -> R) (b_kv_points : nat -> R)
    : T3 * T4 * T3 * T3 * T3 :=
  let q : T3 := fun bt i => F_linear n_s (s bt i) w_q b_q in
  let b : T4 := fun bt i j => F_linear n_z (z bt i j) w_b b_b in
  let kv : T3 := fun bt i => F_linear n_s (s bt i) w_kv b_kv in
  let q_pts : T3 := fun bt i => F_linear n_s (s bt i) w_q_points b_q_points in
  let kv_pts : T3 := fun bt i => F_linear n_s (s bt i) w_kv_points b_kv_points in
  (q, b, kv, q_pts, kv_pts).

(** [_forward_a_eager].  [N_res] is the length of the residue axes.
    Shapes as in the source:
      a [batch, num_heads, N_res, N_res], b [batch, N_res, N_res, num_heads],
      q_pts, k_pts [batch, N_res, num_heads, num_qk_points, 3],
      mask [batch, N_res]. *)
Definition _forward_a_eager (N_res : nat)
    (a : T4) (b : T4) (q_pts k_pts : P4) (mask : T2)
    (c_hidden num_heads : nat) (head_weights : nat -> R)
    (num_qk_points : nat) (inf : R) : Result T4 :=
  let? d1 := py_div 1 (3 * INR c_hidden) in
  let? c1 := math_sqrt d1 in
  let a : T4 := fun bt h i j => a bt h i j * c1 in
  let? d2 := py_div 1 3 in
  let? c2 := math_sqrt d2 in
  let a : T4 := fun bt h i j => a bt h i j + (c2 * b bt i j h) in
  (* outer subtraction *)
  let pt_att : nat -> nat -> nat -> nat -> nat -> vec3 :=
    fun bt i j h p => vsub (q_pts bt i h p) (k_pts bt j h p) in
  let pt_att : nat -> nat -> nat -> nat -> nat -> vec3 :=
    fun bt i j h p =>
      let d := pt_att bt i j h p in
      mkvec3 (vx d * vx d) (vy d * vy d) (vz d * vz d) in
  (* sum(torch.unbind(pt_att, dim=-1)) *)
  let pt_att : T5 :=
    fun bt i j h p =>
      let d := pt_att bt i j h p in
      0 + vx d + vy d + vz d in
  let head_weights : nat -> R := fun h => F_softplus (head_weights h) in
  let? d3 := py_div 1 (3 * (INR num_qk_points * 9 / 2)) in
  let? c3 := math_sqrt d3 in
  let head_weights : nat -> R := fun h => head_weights h * c3 in
  let pt_att : T5 := fun bt i j h p => pt_att bt i j h p * head_weights h in
  let pt_att : T4 :=
    fun bt i j h => -0.5 * big_sum num_qk_points (fun p => pt_att bt i j h p) in
  (* outer product *)
  let square_mask : T3 := fun bt i j => mask bt i * mask bt j in
  let square_mask : T3 := fun bt i j => (square_mask bt i j - 1) * inf in
  let pt_att : T4 := fun bt h i j => pt_att bt i j h in
  let a : T4 := fun bt h i j => a bt h i j + pt_att bt h i j in
  let a : T4 := fun bt h i j => a bt h i j + square_mask bt i j in
  let a : T4 := fun bt h i => softmax N_res (a bt h i) in
  ok a.

(** [torch.compile] keeps the meaning of the function it compiles. *)
Definition _forward_a_jit := _forward_a_eager.

Definition _forward_o_pt_norm_eager (o_pt : P4) (eps : R) : T4 :=
  fun bt i h p =>
    let v := o_pt bt i h p in
    sqrt (vx v * vx v + vy v * vy v + vz v * vz v + eps).

Definition _forward_o_pt_norm_jit := _forward_o_pt_norm_eager.

(** [torch.matmul(q.movedim(-3, -2), k.movedim(-3, -1))] for
    q, k [batch, N_res, num_heads, c_hidden]. *)
Definition matmul_qk (c_hidden : nat) (q k : T4) : T4 :=
  fun bt h i j => big_sum c_hidden (fun c => q bt i h c * k bt j h c).

(** [InvariantPointAttention.forward], first part
    ("Generate scalar and point activations"): returns
    q, b, k, v, q_pts, k_pts, v_pts. *)
Definition forward_activations (self : t)
    (s : T3) (z : T4) (r : Frames)
    : T4 * T4 * T4 * T4 * P4 * P4 * P4 :=
  let '(q, b, kv, q_pts, kv_pts) :=
    _forward_linears_on_inputs_eager (c_s self) (c_z self) s z
      (weight (linear_q self)) (bias (linear_q self))
      (weight (linear_b self)) (bias (linear_b self))
      (weight (linear_kv self)) (bias (linear_kv self))
      (weight (linear_q_points self)) (bias (linear_q_points self))
      (weight (linear_kv_points self)) (bias (linear_kv_points self)) in
  let hc := (c_hidden self * num_heads self)%nat in
  let hpq := (num_heads self * num_qk_points self * 3)%nat in
  let hpkv :=
    (num_heads self * (num_qk_points self + num_v_points self) * 3)%nat in
  (* q.view(q.shape[:-1] + (num_heads, c_hidden)) *)
  let q : T4 := fun bt i h c => q bt i (h * c_hidden self + c)%nat in
  (* kv.view(kv.shape[:-1] + (num_heads, -1)) *)
  let kv_last := ((2 * hc) / num_heads self)%nat in
  let kv : T4 := fun bt i h c => kv bt i (h * kv_last + c)%nat in
  (* torch.split(kv, c_hidden, dim=-1) *)
  let k : T4 := fun bt i h c => kv bt i h c in
  let v : T4 := fun bt i h c => kv bt i h (c_hidden self + c)%nat in
  (* split in three chunks, stack on a new last axis, apply the frames *)
  let nq := (hpq / 3)%nat in
  let q_pts : P3 :=
    fun bt i n =>
      mkvec3 (q_pts bt i n) (q_pts bt i (nq + n)%nat)
             (q_pts bt i (2 * nq + n)%nat) in
  let q_pts : P3 := fun bt i n => Rigid.apply (r bt i) (q_pts bt i n) in
  let q_pts : P4 :=
    fun bt i h p => q_pts bt i (h * num_qk_points self + p)%nat in
  let nkv := (hpkv / 3)%nat in
  let kv_pts : P3 :=
    fun bt i n =>
      mkvec3 (kv_pts bt i n) (kv_pts bt i (nkv + n)%nat)
             (kv_pts bt i (2 * nkv + n)%nat) in
  let kv_pts : P3 := fun bt i n => Rigid.apply (r bt i) (kv_pts bt i n) in
  let kv_pts : P4 :=
    fun bt i h p =>
      kv_pts bt i (h * (num_qk_points self + num_v_points self) + p)%nat in
  (* torch.split(kv_pts, (num_qk_points, num_v_points), dim=-2) *)
  let k_pts : P4 := fun bt i h p => kv_pts bt i h p in
  let v_pts : P4 :=
    fun bt i h p => kv_pts bt i h (num_qk_points self + p)%nat in
  (q, b, k, v, q_pts, k_pts, v_pts).

(** [InvariantPointAttention.forward], second part
    ("Compute attention scores").  In exact arithmetic the full-precision
    branch and the plain branch are the same product. *)
Definition forward_attention (self : t)
    (is_autocast_fp16_enabled inductor_is_enabled : bool) (N_res : nat)
    (q b k : T4) (q_pts k_pts : P4) (mask : T2) : Result T4 :=
  let a : T4 :=
    if is_autocast_fp16_enabled
    then matmul_qk (c_hidden self) q k
    else matmul_qk (c_hidden self) q k in
  let forward_a_fn :=
    if inductor_is_enabled then _forward_a_jit else _forward_a_eager in
  forward_a_fn N_res a b q_pts k_pts mask
    (c_hidden self) (num_heads self) (head_weights self)
    (num_qk_points self) (inf self).

(** [InvariantPointAttention.forward], third part ("Compute output"). *)
Definition forward_output (self : t)
    (inductor_is_enabled : bool) (N_res : nat)
    (a v : T4) (v_pts : P4) (z : T4) (r : Frames) : T3 :=
  let o : T4 :=
    fun bt i h c => big_sum N_res (fun j => a bt h i j * v bt j h c) in
  let o : T3 :=
    fun bt i n => o bt i (n / c_hidden self)%nat (n mod c_hidden self)%nat in
  let o_pt : P4 :=
    fun bt i h p =>
      mkvec3 (big_sum N_res (fun j => a bt h i j * vx (v_pts bt j h p)))
             (big_sum N_res (fun j => a bt h i j * vy (v_pts bt j h p)))
             (big_sum N_res (fun j => a bt h i j * vz (v_pts bt j h p))) in
  let o_pt : P4 :=
    fun bt i h p => Rigid.invert_apply_jit (r bt i) (o_pt bt i h p) in
  let forward_o_pt_norm_fn :=
    if inductor_is_enabled
    then _forward_o_pt_norm_jit else _forward_o_pt_norm_eager in
  let o_pt_norm : T4 := forward_o_pt_norm_fn o_pt (eps self) in
  let o_pt_norm : T3 :=
    fun bt i n =>
      o_pt_norm bt i (n / num_v_points self)%nat (n mod num_v_points self)%nat in
  let o_pt : P3 :=
    fun bt i n =>
      o_pt bt i (n / num_v_points self)%nat (n mod num_v_points self)%nat in
  let o_pair : T4 :=
    fun bt i h c => big_sum N_res (fun j => a bt h i j * z bt i j c) in
  let o_pair : T3 :=
    fun bt i n => o_pair bt i (n / c_z self)%nat (n mod c_z self)%nat in
  let hv := (num_heads self * num_v_points self)%nat in
  (* torch.cat((o, *torch.unbind(o_pt, dim=-1), o_pt_norm, o_pair), dim=-1) *)
  let o_cat : T3 :=
    fun bt i =>
      cat2 (num_heads self * c_hidden self) (o bt i)
        (cat2 hv (fun n => vx (o_pt bt i n))
           (cat2 hv (fun n => vy (o_pt bt i n))
              (cat2 hv (fun n => vz (o_pt bt i n))
                 (cat2 hv (o_pt_norm bt i) (o_pair bt i))))) in
  let concat_out_dim :=
    (num_heads self * (c_z self + c_hidden self + num_v_points self * 4))%nat in
  let s_update : T3 :=
    fun bt i => Linear_forward concat_out_dim (linear_out self) (o_cat bt i) in
  s_update.

(** [InvariantPointAttention.forward].  The two ambient switches are
    [is_autocast_fp16_enabled()] and [inductor.is_enabled()]; [N_res] is the
    length of the residue axis of the inputs. *)
Definition forward (self : t)
    (is_autocast_fp16_enabled inductor_is_enabled : bool) (N_res : nat)
    (s : T3) (z : T4) (r : Frames) (mask : T2) : Result T3 :=
  let '(q, b, k, v, q_pts, k_pts, v_pts) := forward_activations self s z r in
  let? a := forward_attention self is_autocast_fp16_enabled
              inductor_is_enabled N_res q b k q_pts k_pts mask in
  ok (forward_output self inductor_is_enabled N_res a v v_pts z r).

(** The logit of head [h] and residue pair [(i, j)] as the specification
    words it, before the mask bias: scaled [q_i . k_j], scaled pair bias,
    and the weighted negative sum of squared point distances. *)
Definition logit_spec (q k b : T4) (q_pts k_pts : P4)
    (c_hidden : nat) (head_weights : nat -> R) (num_qk_points : nat)
    : T4 :=
  fun bt h i j =>
    sqrt (1 / (3 * INR c_hidden))
      * big_sum c_hidden (fun c => q bt i h c * k bt j h c)
    + sqrt (1 / 3) * b bt i j h
    - 0.5 * F_softplus (head_weights h)
      * sqrt (1 / (3 * (INR num_qk_points * 9 / 2)))
      * big_sum num_qk_points (fun p =>
          norm2 (vsub (q_pts bt i h p) (k_pts bt j h p))).

Definition mask_bias (mask : T2) (inf : R) : T3 :=
  fun bt i j => (mask bt i * mask bt j - 1) * inf.

(** The attention weight that a valid query gives to key [j] is not negative
    and at most [exp (L i j - L i j0 - inf)] for every valid key [j0], where
    [L] is the logit before the mask bias. *)
Definition masked_weight_bounded (self : t)
    (is_autocast_fp16_enabled inductor_is_enabled : bool) (N_res : nat)
    (q b k : T4) (q_pts k_pts : P4) (mask : T2) (bt j : nat) : Prop :=
  match forward_attention self is_autocast_fp16_enabled inductor_is_enabled
          N_res q b k q_pts k_pts mask with
  | inr a =>
      let L := logit_spec q k b q_pts k_pts (c_hidden self)
                 (head_weights self) (num_qk_points self) in
      forall h i j0,
        mask bt i = 1 -> mask bt j0 = 1 -> (j0 < N_res)%nat ->
        0 <= a bt h i j <= exp (L bt h i j - L bt h i j0 - inf self)
  | inl e => e = ZeroDivisionError
  end.

End InvariantPointAttention.

(* ===================================================================== *)
(** ** GPU memory report (utils/gpu_mem_analyze.py)                       *)
(* ===================================================================== *)

Module gpu_mem_analyze.

(** The exceptions of this script: a missing dictionary key, and arrays
    whose lengths cannot be broadcast. *)
Inductive py_exn : Type :=
  | KeyError (key : string)
  | ValueError.

(** A one-dimensional array of numbers (exact arithmetic). *)
Definition ndarray : Type := list Q.

(** An [OrderedDict] from host names to arrays: its items in insertion
    order. *)
Definition OrderedDict : Type := list (string * ndarray).

(** [d[k]]. *)
Fixpoint dict_get (d : OrderedDict) (k : string) : py_exn + ndarray :=
  match d with
  | [] => inl (KeyError k)
  | (k', v) :: rest => if String.eqb k' k then inr v else dict_get rest k
  end.

(** [d[k] = v]: the value of an existing key is replaced where it stands, a
    new key is added at the end. *)
Fixpoint dict_set (d : OrderedDict) (k : string) (v : ndarray) : OrderedDict :=
  match d with
  | [] => [(k, v)]
  | (k', v') :: rest =>
      if String.eqb k' k then (k', v) :: rest
      else (k', v') :: dict_set rest k v
  end.

(** [a - b] on one-dimensional arrays, with broadcasting of an array of
    length 1. *)
Definition np_sub (a b : ndarray) : py_exn + ndarray :=
  if (length a =? length b)%nat then inr (zip_with Qminus a b)
  else
    match a, b with
    | [x], _ => inr (List.map (fun y => Qminus x y) b)
    | _, [y] => inr (List.map (fun x => Qminus x y) a)
    | _, _ => inl ValueError
    end.

(** [int(v)]: truncation toward zero. *)
Definition py_int (v : Q) : Z := Z.quot (Qnum v) (Zpos (Qden v)).

Definition newline : string := String (Ascii.ascii_of_nat 10) EmptyString.

(** [gpu_mem_dumps]. *)
Definition gpu_mem_dumps (gpu_mem : OrderedDict) : string :=
  String.concat newline
    (List.map
       (fun '(k, values) =>
          String.concat " | "
            (k :: List.map (fun v => pretty (py_int v) +:+ " MiB") values))
       gpu_mem).

(** [for k in gpu_mem_start.keys():
       end_vs_start_diff[k] = gpu_mem_end[k] - gpu_mem_start[k]]. *)
Fixpoint diff_loop (keys : list string) (gpu_mem_start gpu_mem_end : OrderedDict)
    (end_vs_start_diff : OrderedDict) : py_exn + OrderedDict :=
  match keys with
  | [] => inr end_vs_start_diff
  | k :: keys' =>
      match dict_get gpu_mem_end k with
      | inl e => inl e
      | inr e_k =>
          match dict_get gpu_mem_start k with
          | inl e => inl e
          | inr s_k =>
              match np_sub e_k s_k with
              | inl e => inl e
              | inr d =>
                  diff_loop keys' gpu_mem_start gpu_mem_end
                    (dict_set end_vs_start_diff k d)
              end
          end
      end
  end.

(** [gpu_mem_diff]: the outcome, and the lines printed on standard output. *)
Definition gpu_mem_diff (gpu_mem_start gpu_mem_end : OrderedDict)
    (print_stdout : bool) (desc_start desc_end : string)
    : (py_exn + OrderedDict) * list string :=
  let end_vs_start_diff : OrderedDict := [] in
  let truthy := negb (length gpu_mem_end =? 0)%nat in
  match
    (if truthy
     then diff_loop (gpu_mem_start.*1) gpu_mem_start gpu_mem_end
            end_vs_start_diff
     else inr end_vs_start_diff)
  with
  | inl e => (inl e, [])
  | inr end_vs_start_diff =>
      (inr end_vs_start_diff,
       if print_stdout then
         if truthy then
           ["Difference in GPU memory (" +:+ desc_end +:+ " vs "
              +:+ desc_start +:+ "):";
            gpu_mem_dumps end_vs_start_diff]
         else ["No GPU memory data for " +:+ desc_end]
       else [])
  end.

(** Two hosts with the readings of four devices, before and after a job;
    the second report has a host that the first has not. *)
Definition example_start : OrderedDict :=
  [("nid001", [10; 20; 30; 40]%Q); ("nid002", [1; 2; 3; 4]%Q)].
Definition example_end : OrderedDict :=
  [("nid002", [2; 2; 5; 4]%Q); ("nid003", [0; 0; 0; 0]%Q);
   ("nid001", [15; 20; 25; 40]%Q)].

End gpu_mem_analyze.

(* ===================================================================== *)
(** ** Vocabulary of the statements                                       *)
(* ===================================================================== *)

(** An axis index that Python accepts for a sequence of length [rank]. *)
Definition valid_axis (rank : nat) (d : Z) : Prop :=
  (- Z.of_nat rank <= d < Z.of_nat rank)%Z.

(** Shapes that agree except for axes collapsed to length 1. *)
Definition collapsed (sm sh : list nat) : Prop :=
  Forall2 (fun dm d => dm = d \/ dm = 1%nat) sm sh.

(** [keeps l t m Q]: running [m] leaves the tensor object [t] at [l] as it
    is, whatever the outcome, and a returned value satisfies [Q]. *)
Definition keeps (l : loc) (t : Tensor) {A : Type} (m : M A) (Q : A -> Prop)
    : Prop :=
  forall w, heap w !! l = Some t ->
    heap (m w).2 !! l = Some t /\ (forall x, (m w).1 = inr x -> Q x).

(** Everything of the process state but the tensor store and the position of
    the random generator. *)
Definition same_env (w w' : World) : Prop :=
  rng w' = rng w /\ grad_enabled w' = grad_enabled w /\
  dap_ctx w' = dap_ctx w /\
  inductor_hopper w' = inductor_hopper w /\
  inductor_ampere w' = inductor_ampere w.

(** [m] changes at most the tensor store and the generator position. *)
Definition env_stable {A : Type} (m : M A) : Prop :=
  forall w, same_env w (m w).2.

(** The entries of a dropout mask: ones outside training; in training every
    entry is dropped or kept and scaled. *)
Definition mask_values (training : bool) (p : R) (tm : Tensor) : Prop :=
  forall idx,
    if training then data tm idx = 0 \/ data tm idx = 1 / (1 - p)
    else data tm idx = 1.

(** The optional sharded axis is a valid axis and the group is not empty. *)
Definition dap_dim_ok (w : World) (rank : nat) (dd : option Z) : Prop :=
  match dd with
  | None => True
  | Some d => valid_axis rank d /\ (0 < dap.size (dap_ctx w))%nat
  end.

(** [m] neither reads nor changes the autograd mode. *)
Definition grad_indep {A : Type} (m : M A) : Prop :=
  forall b w,
    m (set_grad_enabled b w) = (let '(r, w') := m w in (r, set_grad_enabled b w')).

(** Every tensor object of [w] is in [w'], unchanged, and the parallel
    context is the same. *)
Definition extends (w w' : World) : Prop :=
  (forall l t, heap w !! l = Some t -> heap w' !! l = Some t) /\
  dap_ctx w' = dap_ctx w.

(** [tout] is [ty + tx * mask] for a mask of module [d] on the shape of
    [tx]. *)
Definition is_dropout_sum (d : Dropout.t) (tx ty tout : Tensor) : Prop :=
  shape tout = shape tx /\
  exists tmask sm,
    Dropout.set_shared (Dropout.share_dim d) (shape tx) = ok sm /\
    shape tmask = sm /\
    mask_values (Dropout.training d) (Dropout.p d) tmask /\
    forall idx, valid_index (shape tx) idx ->
      data tout idx = data ty idx + data tx idx * data tmask (bcast_index sm idx).

(** The masks the block hands to row and column attention, and the layout
    change between the two: the scattered copies and the collective when the
    parallel service is active, the mask itself and nothing otherwise. *)
Definition block_masks (ctx : dap.Context) (msa_mask row col : Tensor) : Prop :=
  if dap.is_enabled ctx
  then dap.scatter ctx msa_mask 1 = ok row /\ dap.scatter ctx msa_mask 2 = ok col
  else row = msa_mask /\ col = msa_mask.

Definition block_relayout (ctx : dap.Context) (m : Tensor) : Tensor :=
  if dap.is_enabled ctx then dap.row_to_col ctx m else m.

(** [tout] is [ty + tx * mask] on tensors of rank 4, for a mask that does not
    depend on the index along axis -3 and whose entries are 1 outside
    training and 0 or [1/(1-p)] in training. *)
Definition is_rowwise_dropout_sum (training : bool) (p : R) (B S N C : nat)
    (tx ty tout : Tensor) : Prop :=
  shape tout = [B; S; N; C] /\
  exists mask : nat -> nat -> nat -> R,
    (forall b j c,
        if training then mask b j c = 0 \/ mask b j c = 1 / (1 - p)
        else mask b j c = 1) /\
    forall b i j c,
      (b < B)%nat -> (i < S)%nat -> (j < N)%nat -> (c < C)%nat ->
      data tout [b; i; j; c] =
      data ty [b; i; j; c] + data tx [b; i; j; c] * mask b j c.

(** A small attention module and inputs on which the definitions are run:
    one head, three hidden channels, one query/key point and one value point,
    two residues of which the second is masked out. *)
Module IPAExample.
Import Rigid InvariantPointAttention.

Definition ipa : InvariantPointAttention.t :=
  InvariantPointAttention.mk 1 1 3 1 1 1 100000 (1 / 100000000)
    (* linear_q: q = 1 on every channel *)
    (mkLinear 1 3 (fun _ _ => 0) (fun _ => 1))
    (* linear_kv: k = v = s on every channel *)
    (mkLinear 1 6 (fun _ _ => 1) (fun _ => 0))
    (* linear_q_points, linear_kv_points: every local point is the origin *)
    (mkLinear 1 3 (fun _ _ => 0) (fun _ => 0))
    (mkLinear 1 6 (fun _ _ => 0) (fun _ => 0))
    (* linear_b: no pair bias *)
    (mkLinear 1 1 (fun _ _ => 0) (fun _ => 0))
    (fun _ => 0)
    (* linear_out: the first scalar output channel *)
    (mkLinear 8 1 (fun _ n => if (n =? 0)%nat then 1 else 0) (fun _ => 0)).

Definition N_res : nat := 2.

(** Residue 0 is valid, residue 1 is masked out. *)
Definition mask : T2 := fun _ i => if (i =? 0)%nat then 1 else 0.

Definition z : T4 := fun _ _ _ _ => 0.

(** First run: zero single representation, identity frames. *)
Definition s : T3 := fun _ _ _ => 0.
Definition r : Frames := fun _ _ => Rigid.identity.

(** A quarter turn about the z axis, followed by a translation. *)
Definition quarter_turn (t : vec3) : Rigid.t :=
  Rigid.mk (mkmat3 0 (-1) 0
                   1 0 0
                   0 0 1) t.

(** Second run: the row of [s] and the frame of the masked residue 1 are
    changed, nothing else. *)
Definition s_perturbed : T3 :=
  fun _ i _ => if (i =? 1)%nat then 100000 else 0.
Definition r_perturbed : Frames :=
  fun _ i =>
    if (i =? 1)%nat then quarter_turn (mkvec3 0 0 0) else Rigid.identity.

(** A global rigid motion. *)
Definition g : Rigid.t := quarter_turn (mkvec3 1 2 3).

End IPAExample.

(** Small tensor objects and a process state on which the dropout code is
    run: a single worker, two objects of rank 4 and two of rank 2. *)
Module DropoutExample.

Definition ctx : dap.Context :=
  dap.mkContext false 1 0 (fun t _ => t) (fun t => t).

Definition x : loc := 1%positive.
Definition y : loc := 2%positive.

Definition tx : Tensor := mkTensor [2; 2; 2; 1]%nat (fun _ => 1).
Definition ty : Tensor := mkTensor [2; 2; 2; 1]%nat (fun _ => 2).

Definition world : World :=
  mkWorld (<[y := ty]> (<[x := tx]> ∅)) (fun _ _ => true) 0 true ctx
          false false.

Definition tx2 : Tensor := mkTensor [2; 3]%nat (fun _ => 1).
Definition ty2 : Tensor := mkTensor [2; 3]%nat (fun _ => 2).

Definition world2 : World :=
  mkWorld (<[y := ty2]> (<[x := tx2]> ∅)) (fun _ _ => true) 0 true ctx
          false false.

(** What [DropoutRowwise(p=0.5)] builds. *)
Definition rowwise : Dropout.t := Dropout.mk (1 / 2) [(-3)%Z] false true.

End DropoutExample.

(** A stack of one block whose collaborators hand their first argument on,
    with its dropout in inference mode, and a process state holding the four
    inputs. *)
Module EvoformerExample.

Definition block : EvoformerBlock.t :=
  EvoformerBlock.mk (fun m _ _ => m) (fun m _ => m)
    (Dropout.eval DropoutExample.rowwise) (fun m z _ _ => (m, z)).

Definition stack : EvoformerStack.t :=
  EvoformerStack.mk [block] (mkLinear 1 1 (fun _ _ => 1) (fun _ => 0)).

Definition m : loc := 1%positive.
Definition z : loc := 2%positive.
Definition msa_mask : loc := 3%positive.
Definition pair_mask : loc := 4%positive.

Definition tm : Tensor := mkTensor [1; 2; 2; 1]%nat (fun _ => 1).
Definition tz : Tensor := mkTensor [1; 2; 2; 1]%nat (fun _ => 1).
Definition tmsa : Tensor := mkTensor [1; 2; 2]%nat (fun _ => 1).
Definition tpair : Tensor := mkTensor [1; 2; 2]%nat (fun _ => 1).

Definition world : World :=
  mkWorld (<[pair_mask := tpair]> (<[msa_mask := tmsa]>
             (<[z := tz]> (<[m := tm]> ∅))))
          (fun _ _ => true) 0 true DropoutExample.ctx false false.

(** The same state under [torch.no_grad()]. *)
Definition world_no_grad : World := set_grad_enabled false world.

End EvoformerExample.

(** The entry at [idx] of the mask that [F.dropout] makes of a tensor of
    ones when the next sample tensor of the generator is [sample]. *)
Definition dropout_mask_entry (training : bool) (p : R)
    (sample : list nat -> bool) (idx : list nat) : R :=
  if negb training then 1
  else if Req_dec_T p 0 then 1
  else if Req_dec_T p 1 then 0
  else (if sample idx then 1 else 0) / (1 - p).

(** The number of sample tensors that [F.dropout] takes from the generator. *)
Definition dropout_draws (training : bool) (p : R) : nat :=
  if negb training then 0%nat
  else if Req_dec_T p 0 then 0%nat
  else if Req_dec_T p 1 then 0%nat
  else 1%nat.

(** The entry of the mask drawn by [Dropout.forward] that the entry [idx] of
    the output is multiplied with: [sm] is the shape of [x] with the shared
    axes collapsed and [k] the sharded axis, if any, along which the worker
    reads its own slice of the mask of the whole group. *)
Definition mask_index (ctx : dap.Context) (sm : list nat) (k : option nat)
    (idx : list nat) : list nat :=
  match k with
  | None => bcast_index sm idx
  | Some k =>
      alter (fun i => (i + dap.rank ctx * (sm !!! k))%nat) k (bcast_index sm idx)
  end.

(** The sharded axis that [dap_scattered_dim] names in a shape of rank [n]. *)
Definition sharded_axis (n : nat) (dd : option Z) (k : option nat) : Prop :=
  match dd with
  | None => k = None
  | Some d => exists k0, py_index n d = ok k0 /\ k = Some k0
  end.

(** [m] leaves the random generator where it was, whatever the outcome. *)
Definition rng_kept {A : Type} (m : M A) : Prop :=
  forall w, rng_pos (m w).2 = rng_pos w.

(** [m] removes no tensor object: every identity in use before the call is
    in use after it, whatever the outcome. *)
Definition heap_grows {A : Type} (m : M A) : Prop :=
  forall w, dom (heap w) ⊆ dom (heap (m w).2).

(** When [m] returns, the object it returns did not exist before the call. *)
Definition returns_new (m : M loc) : Prop :=
  forall w l w', m w = (inr l, w') -> heap w !! l = None.

(** A worker of rank 1 in a parallel group of two, and a state like
    [DropoutExample.world] seen by that worker. *)
Module DropoutShardExample.

Definition ctx : dap.Context :=
  dap.mkContext true 2 1 (fun t _ => t) (fun t => t).

Definition world : World :=
  mkWorld (<[DropoutExample.y := DropoutExample.ty]>
             (<[DropoutExample.x := DropoutExample.tx]> ∅))
          (fun _ idx => match idx with [_; _; 2%nat; _] => true | _ => false end)
          0 true ctx false false.

End DropoutShardExample.

(** Inputs for the attention example that differ from [IPAExample.s] only in
    the second element of the batch, attention weights with a single
    non-zero key, and the exchange of residues 0 and 1. *)
Module IPAExample2.
Import InvariantPointAttention.

Definition s_other_batch : T3 :=
  fun bt _ _ => if (bt =? 0)%nat then 0 else 1.

(** Attention weights that give every query's whole weight to key 0. *)
Definition first_key_only : T4 :=
  fun _ _ _ j => if (j =? 0)%nat then 1 else 0.


End IPAExample2.

(** The module with the bias vector of [linear_b] replaced. *)
Definition with_linear_b_bias (self : InvariantPointAttention.t)
    (bias_b : nat -> R) : InvariantPointAttention.t :=
  let lb := InvariantPointAttention.linear_b self in
  InvariantPointAttention.mk
    (InvariantPointAttention.c_s self) (InvariantPointAttention.c_z self)
    (InvariantPointAttention.c_hidden self)
    (InvariantPointAttention.num_heads self)
    (InvariantPointAttention.num_qk_points self)
    (InvariantPointAttention.num_v_points self)
    (InvariantPointAttention.inf self) (InvariantPointAttention.eps self)
    (InvariantPointAttention.linear_q self)
    (InvariantPointAttention.linear_kv self)
    (InvariantPointAttention.linear_q_points self)
    (InvariantPointAttention.linear_kv_points self)
    (mkLinear (in_features lb) (out_features lb) (weight lb) bias_b)
    (InvariantPointAttention.head_weights self)
    (InvariantPointAttention.linear_out self).

(** A stack without blocks, on the state of [EvoformerExample]. *)
Module EvoformerExample2.

Definition empty_stack : EvoformerStack.t :=
  EvoformerStack.mk [] (mkLinear 1 1 (fun _ _ => 1) (fun _ => 0)).

(** A block whose row attention returns a tensor of rank 2, which the
    row-wise dropout does not accept. *)
Definition failing_block : EvoformerBlock.t :=
  EvoformerBlock.mk (fun _ _ _ => mkTensor [2; 2]%nat (fun _ => 0))
    (fun m _ => m) DropoutExample.rowwise (fun m z _ _ => (m, z)).

End EvoformerExample2.

(** Bounds on the coordinates of a point and on the entries of a matrix. *)
Definition vec3_within (B : R) (p : Rigid.vec3) : Prop :=
  Rabs (Rigid.vx p) <= B /\ Rabs (Rigid.vy p) <= B /\ Rabs (Rigid.vz p) <= B.

Definition mat3_within (B : R) (m : Rigid.mat3) : Prop :=
  Rabs (Rigid.r00 m) <= B /\ Rabs (Rigid.r01 m) <= B /\
  Rabs (Rigid.r02 m) <= B /\ Rabs (Rigid.r10 m) <= B /\
  Rabs (Rigid.r11 m) <= B /\ Rabs (Rigid.r12 m) <= B /\
  Rabs (Rigid.r20 m) <= B /\ Rabs (Rigid.r21 m) <= B /\
  Rabs (Rigid.r22 m) <= B.

(** [concat_out_dim] of [InvariantPointAttention.__init__]: the input width
    of [linear_out]. *)
Definition concat_out_dim (self : InvariantPointAttention.t) : nat :=
  (InvariantPointAttention.num_heads self
   * (InvariantPointAttention.c_z self + InvariantPointAttention.c_hidden self
      + InvariantPointAttention.num_v_points self * 4))%nat.

(* ===================================================================== *)
(** * Properties                                                          *)
(* ===================================================================== *)

(** ** The definitions on small inputs *)

Section SmallInputs.

Example py_index_negative : py_index 4 (-3) = ok 1%nat.
Proof. reflexivity. Qed.

Example py_index_out_of_range : py_index 2 (-3) = raise IndexError.
Proof. reflexivity. Qed.

Example set_shared_rowwise :
  Dropout.set_shared [(-3)%Z] [2; 5; 7; 3]%nat = ok [2; 1; 7; 3]%nat.
Proof. reflexivity. Qed.

Example set_shared_out_of_range :
  Dropout.set_shared [(-3)%Z] [2; 3]%nat = raise IndexError.
Proof. reflexivity. Qed.

Example broadcast_shared_mask :
  broadcast_shapes [2; 5; 7; 3]%nat [2; 1; 7; 3]%nat = ok [2; 5; 7; 3]%nat.
Proof. reflexivity. Qed.

Example broadcast_lower_rank :
  broadcast_shapes [2; 5; 7; 3]%nat [7; 1]%nat = ok [2; 5; 7; 3]%nat.
Proof. reflexivity. Qed.

Example broadcast_mismatch :
  broadcast_shapes [2; 5]%nat [3; 5]%nat = raise RuntimeError.
Proof. reflexivity. Qed.

Example bcast_index_rowwise :
  bcast_index [2; 1; 7; 3]%nat [1; 4; 6; 2]%nat = [1; 0; 6; 2]%nat.
Proof. reflexivity. Qed.

(** The second of two workers keeps rows 2 and 3 of a tensor with 4 rows. *)
Example scatter_second_worker :
  match dap.scatter (dap.mkContext true 2 1 (fun t _ => t) (fun t => t))
          (mkTensor [4; 6]%nat (fun idx => INR (idx !!! 0%nat))) 0 with
  | inr t => shape t = [2; 6]%nat /\ data t [0; 3]%nat = 2
  | inl _ => False
  end.
Proof.
  cbn. split; [reflexivity|].
  change (INR 2 = 2). cbn. lra.
Qed.

Example big_sum_three : big_sum 3 INR = 3.
Proof. cbn. lra. Qed.

Example cat2_second_part :
  cat2 2 (fun _ => 1) (fun n => INR n) 3%nat = 1.
Proof. reflexivity. Qed.

Example softplus_above_threshold : F_softplus 25 = 25.
Proof. unfold F_softplus. destruct (Rlt_dec 20 25); [reflexivity|lra]. Qed.

Example rowwise_built :
  DropoutRowwise.__init__ (1 / 4) = ok (Dropout.mk (1 / 4) [(-3)%Z] false true).
Proof.
  unfold DropoutRowwise.__init__, Dropout.__init__.
  destruct (Rle_dec 0 (1 / 4)); [|lra].
  destruct (Rle_dec (1 / 4) 1); [|lra]. reflexivity.
Qed.

End SmallInputs.

(** ** Finite sums and softmax *)

Section BigSum.

Lemma big_sum_ext (n : nat) (f g : nat -> R) :
  (forall j, (j < n)%nat -> f j = g j) -> big_sum n f = big_sum n g.
Proof.
  induction n as [|n IH]; intros Hfg; simpl.
  - reflexivity.
  - rewrite IH by (intros j Hj; apply Hfg; lia).
    rewrite Hfg by lia. reflexivity.
Qed.

Lemma big_sum_scal (n : nat) (c : R) (f : nat -> R) :
  big_sum n (fun j => c * f j) = c * big_sum n f.
Proof.
  induction n as [|n IH]; simpl.
  - ring.
  - rewrite IH. ring.
Qed.

Lemma big_sum_scal_r (n : nat) (c : R) (f : nat -> R) :
  big_sum n (fun j => f j * c) = big_sum n f * c.
Proof.
  induction n as [|n IH]; simpl.
  - ring.
  - rewrite IH. ring.
Qed.

Lemma big_sum_affine (n : nat) (a x y z : nat -> R) (c0 c1 c2 t : R) :
  big_sum n (fun j => a j * (c0 * x j + c1 * y j + c2 * z j + t)) =
  c0 * big_sum n (fun j => a j * x j)
  + c1 * big_sum n (fun j => a j * y j)
  + c2 * big_sum n (fun j => a j * z j)
  + t * big_sum n a.
Proof.
  induction n as [|n IH]; simpl.
  - ring.
  - rewrite IH. ring.
Qed.

Lemma big_sum_nonneg (n : nat) (f : nat -> R) :
  (forall j, (j < n)%nat -> 0 <= f j) -> 0 <= big_sum n f.
Proof.
  induction n as [|n IH]; intros Hf; simpl.
  - lra.
  - assert (0 <= big_sum n f) by (apply IH; intros; apply Hf; lia).
    assert (0 <= f n) by (apply Hf; lia). lra.
Qed.

Lemma big_sum_ge_term (n : nat) (f : nat -> R) (j : nat) :
  (forall i, (i < n)%nat -> 0 <= f i) -> (j < n)%nat -> f j <= big_sum n f.
Proof.
  induction n as [|n IH]; intros Hf Hj; simpl.
  - lia.
  - assert (0 <= big_sum n f) by (apply big_sum_nonneg; intros; apply Hf; lia).
    assert (0 <= f n) by (apply Hf; lia).
    destruct (Nat.eq_dec j n) as [->|Hne].
    + lra.
    + assert (f j <= big_sum n f) by (apply IH; [intros; apply Hf|]; lia). lra.
Qed.

Lemma big_sum_exp_pos (n : nat) (x : nat -> R) :
  (0 < n)%nat -> 0 < big_sum n (fun j => exp (x j)).
Proof.
  intros Hn.
  apply Rlt_le_trans with (exp (x 0%nat)).
  - apply exp_pos.
  - apply (big_sum_ge_term n (fun j => exp (x j)) 0); [|assumption].
    intros i _. left. apply exp_pos.
Qed.

Lemma softmax_ext (n : nat) (f g : nat -> R) (j : nat) :
  (forall i, f i = g i) -> softmax n f j = softmax n g j.
Proof.
  intros Hfg. unfold softmax. rewrite Hfg.
  rewrite (big_sum_ext n (fun j' => exp (f j')) (fun j' => exp (g j'))).
  - reflexivity.
  - intros i _. rewrite Hfg. reflexivity.
Qed.

Lemma softmax_pos (n : nat) (x : nat -> R) (j : nat) :
  (0 < n)%nat -> 0 < softmax n x j.
Proof.
  intros Hn. unfold softmax. apply Rdiv_lt_0_compat.
  - apply exp_pos.
  - apply big_sum_exp_pos. assumption.
Qed.

Lemma softmax_sum (n : nat) (x : nat -> R) :
  (0 < n)%nat -> big_sum n (softmax n x) = 1.
Proof.
  intros Hn. unfold softmax.
  pose proof (big_sum_exp_pos n x Hn) as Hpos.
  unfold Rdiv. rewrite big_sum_scal_r. field. lra.
Qed.

End BigSum.

(** ** Rigid transformations *)

Section RigidFacts.
Import Rigid.

Lemma apply_compose (g r : Rigid.t) (p : vec3) :
  apply (compose g r) p = apply g (apply r p).
Proof.
  destruct g as [[g00 g01 g02 g10 g11 g12 g20 g21 g22] [gx gy gz]].
  destruct r as [[a00 a01 a02 a10 a11 a12 a20 a21 a22] [ax ay az]].
  destruct p as [x y z].
  unfold apply, compose, rot_vec_mul, rot_matmul, vadd; simpl.
  f_equal; ring.
Qed.

Lemma is_rigid_columns (g : Rigid.t) :
  is_rigid g ->
  let m := rots g in
  r00 m * r00 m + r10 m * r10 m + r20 m * r20 m = 1 /\
  r01 m * r01 m + r11 m * r11 m + r21 m * r21 m = 1 /\
  r02 m * r02 m + r12 m * r12 m + r22 m * r22 m = 1 /\
  r00 m * r01 m + r10 m * r11 m + r20 m * r21 m = 0 /\
  r00 m * r02 m + r10 m * r12 m + r20 m * r22 m = 0 /\
  r01 m * r02 m + r11 m * r12 m + r21 m * r22 m = 0.
Proof.
  unfold is_rigid, rot_matmul, invert_rot_mat, identity_rot_mat.
  destruct g as [[g00 g01 g02 g10 g11 g12 g20 g21 g22] t]; simpl.
  intros H. injection H as H00 H01 H02 H10 H11 H12 H20 H21 H22.
  repeat split; assumption.
Qed.

Lemma rot_vec_mul_sub (m : mat3) (u v : vec3) :
  vsub (rot_vec_mul m u) (rot_vec_mul m v) = rot_vec_mul m (vsub u v).
Proof.
  destruct m, u, v. unfold vsub, rot_vec_mul; simpl. f_equal; ring.
Qed.

Lemma apply_sub (g : Rigid.t) (u v : vec3) :
  vsub (apply g u) (apply g v) = rot_vec_mul (rots g) (vsub u v).
Proof.
  destruct g as [m t], m, t, u, v.
  unfold apply, vsub, vadd, rot_vec_mul; simpl. f_equal; ring.
Qed.

Lemma norm2_rot (g : Rigid.t) (d : vec3) :
  is_rigid g -> norm2 (rot_vec_mul (rots g) d) = norm2 d.
Proof.
  intros Hg. apply is_rigid_columns in Hg.
  destruct g as [[g00 g01 g02 g10 g11 g12 g20 g21 g22] t], d as [x y z].
  simpl in Hg. destruct Hg as (E00 & E11 & E22 & E01 & E02 & E12).
  unfold norm2, rot_vec_mul; simpl.
  replace ((g00 * x + g01 * y + g02 * z) * (g00 * x + g01 * y + g02 * z) +
           (g10 * x + g11 * y + g12 * z) * (g10 * x + g11 * y + g12 * z) +
           (g20 * x + g21 * y + g22 * z) * (g20 * x + g21 * y + g22 * z))
    with (x * x * (g00 * g00 + g10 * g10 + g20 * g20)
          + y * y * (g01 * g01 + g11 * g11 + g21 * g21)
          + z * z * (g02 * g02 + g12 * g12 + g22 * g22)
          + 2 * x * y * (g00 * g01 + g10 * g11 + g20 * g21)
          + 2 * x * z * (g00 * g02 + g10 * g12 + g20 * g22)
          + 2 * y * z * (g01 * g02 + g11 * g12 + g21 * g22)) by ring.
  rewrite E00, E11, E22, E01, E02, E12. ring.
Qed.

Lemma norm2_apply_sub (g : Rigid.t) (u v : vec3) :
  is_rigid g -> norm2 (vsub (apply g u) (apply g v)) = norm2 (vsub u v).
Proof.
  intros Hg. rewrite apply_sub. apply norm2_rot. assumption.
Qed.

Lemma invert_rot_mul (g : Rigid.t) (d : vec3) :
  is_rigid g ->
  rot_vec_mul (invert_rot_mat (rots g)) (rot_vec_mul (rots g) d) = d.
Proof.
  intros Hg. apply is_rigid_columns in Hg.
  destruct g as [[g00 g01 g02 g10 g11 g12 g20 g21 g22] t], d as [x y z].
  simpl in Hg. destruct Hg as (E00 & E11 & E22 & E01 & E02 & E12).
  unfold rot_vec_mul, invert_rot_mat; simpl. f_equal.
  - replace (g00 * (g00 * x + g01 * y + g02 * z) +
             g10 * (g10 * x + g11 * y + g12 * z) +
             g20 * (g20 * x + g21 * y + g22 * z))
      with (x * (g00 * g00 + g10 * g10 + g20 * g20)
            + y * (g00 * g01 + g10 * g11 + g20 * g21)
            + z * (g00 * g02 + g10 * g12 + g20 * g22)) by ring.
    rewrite E00, E01, E02. ring.
  - replace (g01 * (g00 * x + g01 * y + g02 * z) +
             g11 * (g10 * x + g11 * y + g12 * z) +
             g21 * (g20 * x + g21 * y + g22 * z))
      with (x * (g00 * g01 + g10 * g11 + g20 * g21)
            + y * (g01 * g01 + g11 * g11 + g21 * g21)
            + z * (g01 * g02 + g11 * g12 + g21 * g22)) by ring.
    rewrite E01, E11, E12. ring.
  - replace (g02 * (g00 * x + g01 * y + g02 * z) +
             g12 * (g10 * x + g11 * y + g12 * z) +
             g22 * (g20 * x + g21 * y + g22 * z))
      with (x * (g00 * g02 + g10 * g12 + g20 * g22)
            + y * (g01 * g02 + g11 * g12 + g21 * g22)
            + z * (g02 * g02 + g12 * g12 + g22 * g22)) by ring.
    rewrite E02, E12, E22. ring.
Qed.

Lemma invert_rot_matmul (a b : mat3) (d : vec3) :
  rot_vec_mul (invert_rot_mat (rot_matmul a b)) d =
  rot_vec_mul (invert_rot_mat b) (rot_vec_mul (invert_rot_mat a) d).
Proof.
  destruct a, b, d. unfold rot_vec_mul, invert_rot_mat, rot_matmul; simpl.
  f_equal; ring.
Qed.

Lemma invert_apply_compose (g r : Rigid.t) (p : vec3) :
  is_rigid g ->
  invert_apply (compose g r) (apply g p) = invert_apply r p.
Proof.
  intros Hg. unfold invert_apply, compose. cbn [rots trans].
  rewrite invert_rot_matmul, apply_sub, invert_rot_mul by assumption.
  reflexivity.
Qed.

Lemma apply_weighted_sum (g : Rigid.t) (n : nat) (a : nat -> R)
    (w : nat -> vec3) :
  big_sum n a = 1 ->
  mkvec3 (big_sum n (fun j => a j * vx (apply g (w j))))
         (big_sum n (fun j => a j * vy (apply g (w j))))
         (big_sum n (fun j => a j * vz (apply g (w j)))) =
  apply g (mkvec3 (big_sum n (fun j => a j * vx (w j)))
                  (big_sum n (fun j => a j * vy (w j)))
                  (big_sum n (fun j => a j * vz (w j)))).
Proof.
  intros Ha.
  destruct g as [[g00 g01 g02 g10 g11 g12 g20 g21 g22] [tx ty tz]].
  unfold apply, rot_vec_mul, vadd;
    cbn [rots trans vx vy vz r00 r01 r02 r10 r11 r12 r20 r21 r22].
  f_equal.
  - rewrite (big_sum_affine n a (fun j => vx (w j)) (fun j => vy (w j))
               (fun j => vz (w j))).
    rewrite Ha. ring.
  - rewrite (big_sum_affine n a (fun j => vx (w j)) (fun j => vy (w j))
               (fun j => vz (w j))).
    rewrite Ha. ring.
  - rewrite (big_sum_affine n a (fun j => vx (w j)) (fun j => vy (w j))
               (fun j => vz (w j))).
    rewrite Ha. ring.
Qed.
End RigidFacts.

(** ** Invariant Point Attention *)

Section IPAFacts.
Import Rigid InvariantPointAttention.

Lemma py_div_ok (x y : R) : y <> 0 -> py_div x y = ok (x / y).
Proof.
  intros Hy. unfold py_div. destruct (Req_dec_T y 0); [contradiction|reflexivity].
Qed.

Lemma py_div_zero (x y : R) : y = 0 -> py_div x y = raise ZeroDivisionError.
Proof.
  intros Hy. unfold py_div. destruct (Req_dec_T y 0); [reflexivity|contradiction].
Qed.

Lemma math_sqrt_ok (x : R) : 0 <= x -> math_sqrt x = ok (sqrt x).
Proof.
  intros Hx. unfold math_sqrt. destruct (Rlt_dec x 0); [lra|reflexivity].
Qed.

Lemma inv_scale_ok (n : nat) (c : R) :
  0 < c -> n <> 0%nat ->
  (let? d := py_div 1 (c * INR n) in math_sqrt d) = ok (sqrt (1 / (c * INR n))).
Proof.
  intros Hc Hn.
  assert (0 < INR n) by (apply lt_0_INR; lia).
  assert (0 < c * INR n) by (apply Rmult_lt_0_compat; assumption).
  rewrite py_div_ok by lra. cbn [bindR ok].
  apply math_sqrt_ok. left. apply Rdiv_lt_0_compat; lra.
Qed.

Lemma forward_a_eager_char (N : nat) (q k b : T4) (q_pts k_pts : P4)
    (mask : T2) (C H : nat) (hw : nat -> R) (P : nat) (inf : R) :
  exists a : T4,
    (forall bt h i j,
        a bt h i j =
        softmax N (fun j' => logit_spec q k b q_pts k_pts C hw P bt h i j'
                             + mask_bias mask inf bt i j') j) /\
    _forward_a_eager N (matmul_qk C q k) b q_pts k_pts mask C H hw P inf =
    if (C =? 0)%nat || (P =? 0)%nat then raise ZeroDivisionError else ok a.
Proof.
  unfold _forward_a_eager.
  destruct (Nat.eq_dec C 0%nat) as [->|HC].
  { eexists; split; [reflexivity|].
    rewrite py_div_zero by (simpl; ring). reflexivity. }
  assert (0 < INR C) as HCpos by (apply lt_0_INR; lia).
  rewrite (py_div_ok 1 (3 * INR C)) by lra. cbn [bindR ok].
  rewrite (math_sqrt_ok (1 / (3 * INR C)))
    by (left; apply Rdiv_lt_0_compat; lra).
  cbn [bindR ok].
  rewrite (py_div_ok 1 3) by lra. cbn [bindR ok].
  rewrite (math_sqrt_ok (1 / 3)) by lra. cbn [bindR ok].
  destruct (Nat.eq_dec P 0%nat) as [->|HP].
  { eexists; split; [reflexivity|].
    rewrite py_div_zero by (simpl; field).
    destruct C; [contradiction|reflexivity]. }
  assert (0 < INR P) as HPpos by (apply lt_0_INR; lia).
  rewrite (py_div_ok 1 (3 * (INR P * 9 / 2))) by lra. cbn [bindR ok].
  rewrite (math_sqrt_ok (1 / (3 * (INR P * 9 / 2))))
    by (left; apply Rdiv_lt_0_compat; lra).
  cbn [bindR ok].
  destruct C; [contradiction|]. destruct P; [contradiction|].
  cbn [Nat.eqb orb].
  eexists; split; [|reflexivity].
  intros bt h i j. cbv beta.
  apply softmax_ext. intros j'.
  unfold logit_spec, mask_bias, matmul_qk, norm2. cbn [vx vy vz].
  rewrite (big_sum_ext (S P) _
             (fun p => norm2 (vsub (q_pts bt i h p) (k_pts bt j' h p))
                       * (F_softplus (hw h)
                          * sqrt (1 / (3 * (INR (S P) * 9 / 2)))))).
  2:{ intros p _. unfold norm2. ring. }
  rewrite big_sum_scal_r. unfold norm2.
  replace (-0.5) with (- (1 / 2)) by lra. replace 0.5 with (1 / 2) by lra.
  field.
Qed.

Lemma forward_output_invariant (self : InvariantPointAttention.t) (ind : bool)
    (N : nat) (a a' v : T4) (v_pts v_pts' : P4) (z : T4) (r : Frames)
    (g : Rigid.t) :
  is_rigid g ->
  (forall bt h i j, a' bt h i j = a bt h i j) ->
  (forall bt h i, big_sum N (a bt h i) = 1) ->
  (forall bt j h p, v_pts' bt j h p = apply g (v_pts bt j h p)) ->
  forall bt i c,
    forward_output self ind N a' v v_pts' z (fun bt i => compose g (r bt i)) bt i c =
    forward_output self ind N a v v_pts z r bt i c.
Proof.
  intros Hg Ha Hsum Hv bt i c.
  assert (Hpt : forall h p,
    invert_apply_jit (compose g (r bt i))
      (mkvec3 (big_sum N (fun j => a' bt h i j * vx (v_pts' bt j h p)))
              (big_sum N (fun j => a' bt h i j * vy (v_pts' bt j h p)))
              (big_sum N (fun j => a' bt h i j * vz (v_pts' bt j h p)))) =
    invert_apply_jit (r bt i)
      (mkvec3 (big_sum N (fun j => a bt h i j * vx (v_pts bt j h p)))
              (big_sum N (fun j => a bt h i j * vy (v_pts bt j h p)))
              (big_sum N (fun j => a bt h i j * vz (v_pts bt j h p))))).
  { intros h p. unfold invert_apply_jit.
    rewrite <- (invert_apply_compose g (r bt i)) by assumption.
    f_equal.
    rewrite <- (apply_weighted_sum g N (a bt h i) (fun j => v_pts bt j h p))
      by apply Hsum.
    f_equal; apply big_sum_ext; intros j _; rewrite Ha, Hv; reflexivity. }
  unfold forward_output, Linear_forward, F_linear.
  f_equal. apply big_sum_ext. intros n _. f_equal.
  unfold cat2, _forward_o_pt_norm_jit, _forward_o_pt_norm_eager.
  repeat match goal with
         | |- context [(?x <? ?y)%nat] => destruct (x <? y)%nat
         end;
    try rewrite Hpt; try reflexivity;
    try (apply big_sum_ext; intros j _; rewrite Ha; reflexivity).
  all: destruct ind; rewrite Hpt; reflexivity.
Qed.

Lemma forward_attention_char (self : InvariantPointAttention.t)
    (fp16 ind : bool) (N : nat) (q b k : T4) (q_pts k_pts : P4) (mask : T2) :
  exists a : T4,
    (forall bt h i j,
        a bt h i j =
        softmax N (fun j' =>
                     logit_spec q k b q_pts k_pts (c_hidden self)
                       (head_weights self) (num_qk_points self) bt h i j'
                     + mask_bias mask (inf self) bt i j') j) /\
    forward_attention self fp16 ind N q b k q_pts k_pts mask =
    if (c_hidden self =? 0)%nat || (num_qk_points self =? 0)%nat
    then raise ZeroDivisionError else ok a.
Proof.
  unfold forward_attention, _forward_a_jit.
  destruct fp16, ind; apply forward_a_eager_char.
Qed.

Lemma softmax_le_exp_diff (n : nat) (x : nat -> R) (j j0 : nat) :
  (j0 < n)%nat -> softmax n x j <= exp (x j - x j0).
Proof.
  intros Hj0. unfold softmax, Rminus.
  rewrite exp_plus, exp_Ropp. unfold Rdiv.
  pose proof (exp_pos (x j)) as Hj. pose proof (exp_pos (x j0)) as H0.
  assert (exp (x j0) <= big_sum n (fun j' => exp (x j'))) as Hle.
  { apply (big_sum_ge_term n (fun j' => exp (x j')) j0); [|assumption].
    intros i _. left. apply exp_pos. }
  apply Rmult_le_compat_l; [lra|].
  apply Rinv_le_contravar; assumption.
Qed.

Lemma F_linear_ext (n : nat) (x y : nat -> R) (w : nat -> nat -> R)
    (b : nat -> R) (o : nat) :
  (forall c, x c = y c) -> F_linear n x w b o = F_linear n y w b o.
Proof.
  intros Hxy. unfold F_linear. f_equal.
  apply big_sum_ext. intros c _. rewrite Hxy. reflexivity.
Qed.

Lemma masked_weight_bound (self : InvariantPointAttention.t)
    (fp16 ind : bool) (N : nat) (q b k : T4) (q_pts k_pts : P4) (mask : T2)
    (bt j : nat) :
  mask bt j = 0 ->
  masked_weight_bounded self fp16 ind N q b k q_pts k_pts mask bt j.
Proof.
  intros Hmask. unfold masked_weight_bounded.
  destruct (forward_attention_char self fp16 ind N q b k q_pts k_pts mask)
    as (a & Ha & E).
  rewrite E.
  destruct ((c_hidden self =? 0)%nat || (num_qk_points self =? 0)%nat);
    [reflexivity|].
  cbn [ok]. intros h i j0 Hi Hj0 HN. rewrite Ha. split.
  - left. apply softmax_pos. lia.
  - eapply Rle_trans; [apply (softmax_le_exp_diff N _ j j0 HN)|].
    unfold mask_bias. rewrite Hmask, Hi, Hj0. right. f_equal. ring.
Qed.

Lemma forward_attention_le_one (self : InvariantPointAttention.t)
    (fp16 ind : bool) (N : nat) (q b k : T4) (q_pts k_pts : P4) (mask : T2)
    (a : T4) :
  forward_attention self fp16 ind N q b k q_pts k_pts mask = ok a ->
  forall bt h i j, (j < N)%nat -> a bt h i j <= 1.
Proof.
  intros E bt h i j Hj.
  destruct (forward_attention_char self fp16 ind N q b k q_pts k_pts mask)
    as (a0 & Ha0 & E0).
  rewrite E0 in E.
  destruct ((c_hidden self =? 0)%nat || (num_qk_points self =? 0)%nat);
    [discriminate|].
  injection E as <-. rewrite Ha0.
  match goal with
  | |- softmax N ?x j <= 1 =>
      rewrite <- (softmax_sum N x) by lia;
      apply (big_sum_ge_term N (softmax N x) j); [|assumption];
      intros j' _; left; apply softmax_pos; lia
  end.
Qed.

(** The output stage on two sets of values that differ only at residue [j],
    for attention weights that give key [j] the weight 0 at row [i]. *)
Lemma forward_output_zero_weight (self : InvariantPointAttention.t)
    (ind : bool) (N : nat) (a a' v v' : T4) (v_pts v_pts' : P4) (z : T4)
    (r r' : Frames) (bt i j : nat) :
  (forall h j', (j' < N)%nat -> j' <> j -> a' bt h i j' = a bt h i j') ->
  (forall h, a bt h i j = 0 /\ a' bt h i j = 0) ->
  (forall h j' c, j' <> j -> v' bt j' h c = v bt j' h c) ->
  (forall h j' p, j' <> j -> v_pts' bt j' h p = v_pts bt j' h p) ->
  r' bt i = r bt i ->
  forall c,
    forward_output self ind N a' v' v_pts' z r' bt i c =
    forward_output self ind N a v v_pts z r bt i c.
Proof.
  intros Ha Hzero Hv Hvp Hr c.
  assert (Hsum : forall (g' g : nat -> R) h,
             (forall j', j' <> j -> g' j' = g j') ->
             big_sum N (fun j' => a' bt h i j' * g' j') =
             big_sum N (fun j' => a bt h i j' * g j')).
  { intros g' g h Hg. apply big_sum_ext. intros j' Hj'.
    destruct (Nat.eq_dec j' j) as [->|Hne].
    - destruct (Hzero h) as [-> ->]. ring.
    - rewrite Ha, Hg by assumption. reflexivity. }
  assert (Ho : forall h c0,
             big_sum N (fun j' => a' bt h i j' * v' bt j' h c0) =
             big_sum N (fun j' => a bt h i j' * v bt j' h c0)).
  { intros h c0.
    apply (Hsum (fun j' => v' bt j' h c0) (fun j' => v bt j' h c0)).
    intros j' Hj'. apply Hv. assumption. }
  assert (Hpair : forall h c0,
             big_sum N (fun j' => a' bt h i j' * z bt i j' c0) =
             big_sum N (fun j' => a bt h i j' * z bt i j' c0)).
  { intros h c0.
    apply (Hsum (fun j' => z bt i j' c0) (fun j' => z bt i j' c0)).
    reflexivity. }
  assert (Hpt : forall h p,
    mkvec3 (big_sum N (fun j' => a' bt h i j' * vx (v_pts' bt j' h p)))
           (big_sum N (fun j' => a' bt h i j' * vy (v_pts' bt j' h p)))
           (big_sum N (fun j' => a' bt h i j' * vz (v_pts' bt j' h p))) =
    mkvec3 (big_sum N (fun j' => a bt h i j' * vx (v_pts bt j' h p)))
           (big_sum N (fun j' => a bt h i j' * vy (v_pts bt j' h p)))
           (big_sum N (fun j' => a bt h i j' * vz (v_pts bt j' h p)))).
  { intros h p. f_equal.
    - apply (Hsum (fun j' => vx (v_pts' bt j' h p))
               (fun j' => vx (v_pts bt j' h p))).
      intros j' Hj'. rewrite Hvp by assumption. reflexivity.
    - apply (Hsum (fun j' => vy (v_pts' bt j' h p))
               (fun j' => vy (v_pts bt j' h p))).
      intros j' Hj'. rewrite Hvp by assumption. reflexivity.
    - apply (Hsum (fun j' => vz (v_pts' bt j' h p))
               (fun j' => vz (v_pts bt j' h p))).
      intros j' Hj'. rewrite Hvp by assumption. reflexivity. }
  unfold forward_output, Linear_forward, F_linear.
  f_equal. apply big_sum_ext. intros n _. f_equal.
  unfold cat2, _forward_o_pt_norm_jit, _forward_o_pt_norm_eager.
  rewrite Hr.
  repeat match goal with
         | |- context [(?x <? ?y)%nat] => destruct (x <? y)%nat
         end;
    try rewrite Hpt; try rewrite Ho; try rewrite Hpair; try reflexivity.
  all: destruct ind; cbv beta; rewrite ?Hr, ?Hpt; reflexivity.
Qed.

End IPAFacts.

(** ** The example module, evaluated *)

Section IPAExampleFacts.
Import Rigid InvariantPointAttention IPAExample.

Lemma sqrt_1_9 : sqrt (1 / (3 * INR 3)) = 1 / 3.
Proof.
  replace (1 / (3 * INR 3)) with ((1 / 3) * (1 / 3)) by (simpl; field).
  apply sqrt_square. lra.
Qed.

Lemma example_linear_out (x : nat -> R) :
  Linear_forward 8 (linear_out ipa) x 0%nat = x 0%nat.
Proof.
  unfold Linear_forward, F_linear. cbn. ring.
Qed.

(** The output of the example module at row 0, channel 0, for any single
    representation whose rows are constant along the channel axis and any
    frames without translation. *)
Lemma example_run (s0 : T3) (r0 : Frames) :
  (forall bt i, trans (r0 bt i) = mkvec3 0 0 0) ->
  match forward ipa false false N_res s0 z r0 mask with
  | inr u =>
      u 0%nat 0%nat 0%nat =
      (exp (s0 O O O) * s0 O O O
       + exp (s0 O 1%nat O - 100000) * s0 O 1%nat O)
      / (exp (s0 O O O) + exp (s0 O 1%nat O - 100000))
  | inl _ => False
  end.
Proof.
  intros Hr.
  unfold forward, forward_activations, _forward_linears_on_inputs_eager.
  cbv zeta.
  match goal with
  | |- context [forward_attention _ _ _ _ ?q ?b ?k ?qp ?kp _] =>
      destruct (forward_attention_char ipa false false N_res q b k qp kp mask)
        as (a & Ha & E)
  end.
  rewrite E. clear E.
  assert (Ha0 : forall j,
             a O O O j =
             softmax 2 (fun j' => s0 O j' O + (mask O O * mask O j' - 1) * 100000) j).
  { intros j. rewrite Ha. apply softmax_ext. intros j'.
    unfold logit_spec, mask_bias, F_linear.
    cbn [ipa c_hidden num_qk_points num_v_points num_heads c_z c_s inf
         linear_q linear_kv linear_b linear_q_points linear_kv_points
         head_weights weight bias big_sum].
    rewrite sqrt_1_9.
    unfold apply, rot_vec_mul, vadd, vsub, norm2. rewrite !Hr.
    cbn [vx vy vz].
    replace 0.5 with (1 / 2) by lra. field. }
  clear Ha.
  cbn [ipa c_hidden num_qk_points Nat.eqb orb bindR ok].
  unfold forward_output. cbv zeta.
  rewrite example_linear_out.
  unfold cat2.
  cbn [ipa c_hidden num_qk_points num_v_points num_heads c_z c_s linear_kv
       weight bias N_res big_sum Nat.mul Nat.add Nat.ltb Nat.leb Nat.eqb
       Nat.sub Nat.div Nat.modulo Nat.divmod fst snd].
  unfold F_linear.
  cbn [ipa c_hidden num_qk_points num_v_points num_heads c_z c_s linear_kv
       weight bias N_res big_sum Nat.mul Nat.add Nat.ltb Nat.leb Nat.eqb
       Nat.sub Nat.div Nat.modulo Nat.divmod fst snd].
  rewrite !Ha0. unfold softmax, mask. cbn [big_sum Nat.eqb].
  replace (s0 O O O + (1 * 1 - 1) * 100000) with (s0 O O O) by ring.
  replace (s0 O 1%nat O + (1 * 0 - 1) * 100000)
    with (s0 O 1%nat O - 100000) by ring.
  pose proof (exp_pos (s0 O O O)).
  pose proof (exp_pos (s0 O 1%nat O - 100000)).
  field. lra.
Qed.

End IPAExampleFacts.

(** ** Bounds on the change of the attention output *)

Section Bounds.

Lemma big_sum_split_at (n j : nat) (f : nat -> R) :
  (j < n)%nat ->
  big_sum n f = big_sum n (fun k => if (k =? j)%nat then 0 else f k) + f j.
Proof.
  induction n as [|n IH]; intros Hj; [lia|]. cbn [big_sum].
  destruct (Nat.eq_dec j n) as [->|Hne].
  - rewrite Nat.eqb_refl.
    rewrite (big_sum_ext n f (fun k => if (k =? n)%nat then 0 else f k)).
    + ring.
    + intros k Hk. destruct (Nat.eqb_spec k n); [lia|reflexivity].
  - rewrite IH by lia. destruct (Nat.eqb_spec n j); [lia|]. ring.
Qed.

Lemma big_sum_minus (n : nat) (f g : nat -> R) :
  big_sum n f - big_sum n g = big_sum n (fun k => f k - g k).
Proof. induction n as [|n IH]; cbn; [ring|]. rewrite <- IH. ring. Qed.

Lemma big_sum_le (n : nat) (f g : nat -> R) :
  (forall k, (k < n)%nat -> f k <= g k) -> big_sum n f <= big_sum n g.
Proof.
  induction n as [|n IH]; intros H; cbn; [lra|].
  specialize (IH (fun k Hk => H k (Nat.lt_lt_succ_r _ _ Hk))).
  specialize (H n (Nat.lt_succ_diag_r n)). lra.
Qed.

Lemma big_sum_abs_bound (n : nat) (f : nat -> R) (B : R) :
  (forall k, (k < n)%nat -> Rabs (f k) <= B) ->
  Rabs (big_sum n f) <= INR n * B.
Proof.
  induction n as [|n IH]; intros H.
  - cbn. rewrite Rabs_R0. lra.
  - cbn [big_sum]. rewrite S_INR.
    specialize (IH (fun k Hk => H k (Nat.lt_lt_succ_r _ _ Hk))).
    specialize (H n (Nat.lt_succ_diag_r n)).
    eapply Rle_trans; [apply Rabs_triang|]. lra.
Qed.

Lemma big_sum_weighted_bound (n : nat) (e x : nat -> R) (X : R) :
  (forall k, (k < n)%nat -> 0 <= e k) ->
  (forall k, (k < n)%nat -> Rabs (x k) <= X) ->
  Rabs (big_sum n (fun k => e k * x k)) <= X * big_sum n e.
Proof.
  induction n as [|n IH]; intros He Hx.
  - cbn. rewrite Rabs_R0. lra.
  - cbn [big_sum].
    specialize (IH (fun k Hk => He k (Nat.lt_lt_succ_r _ _ Hk))
                   (fun k Hk => Hx k (Nat.lt_lt_succ_r _ _ Hk))).
    specialize (He n (Nat.lt_succ_diag_r n)).
    specialize (Hx n (Nat.lt_succ_diag_r n)).
    eapply Rle_trans; [apply Rabs_triang|].
    rewrite Rabs_mult, (Rabs_right (e n)) by lra.
    assert (e n * Rabs (x n) <= e n * X) by (apply Rmult_le_compat_l; lra).
    lra.
Qed.

(** Two convex mixtures of one average [T / R] with the values [xj], [xj'],
    with mixing weights at most [d]. *)
Lemma mix_bound (Rs T e e' xj xj' X d : R) :
  0 < Rs -> 0 < e -> 0 < e' ->
  Rabs T <= X * Rs -> Rabs xj <= X -> Rabs xj' <= X ->
  e / (Rs + e) <= d -> e' / (Rs + e') <= d ->
  Rabs ((T + e' * xj') / (Rs + e') - (T + e * xj) / (Rs + e)) <= 3 * d * X.
Proof.
  intros HR He He' HT Hx Hx' Hw Hw'.
  set (w := e / (Rs + e)) in *. set (w' := e' / (Rs + e')) in *.
  set (o := T / Rs).
  assert (HX : 0 <= X) by (pose proof (Rabs_pos xj); lra).
  assert (Hw0 : 0 < w) by (apply Rdiv_lt_0_compat; lra).
  assert (Hw0' : 0 < w') by (apply Rdiv_lt_0_compat; lra).
  assert (Ho : Rabs o <= X).
  { unfold o, Rdiv. rewrite Rabs_mult, (Rabs_right (/ Rs)).
    - apply (Rmult_le_reg_r Rs); [assumption|].
      rewrite Rmult_assoc, Rinv_l by lra. lra.
    - left. apply Rinv_0_lt_compat. assumption. }
  replace ((T + e' * xj') / (Rs + e') - (T + e * xj) / (Rs + e))
    with ((w - w') * o + w' * xj' - w * xj)
    by (unfold w, w', o; field; lra).
  assert (H1 : Rabs ((w - w') * o) <= d * X).
  { rewrite Rabs_mult.
    assert (Rabs (w - w') <= d) by (apply Rabs_le; lra).
    apply Rmult_le_compat; [apply Rabs_pos|apply Rabs_pos|assumption|assumption]. }
  assert (H2 : Rabs (w' * xj') <= d * X).
  { rewrite Rabs_mult, (Rabs_right w') by lra.
    apply Rmult_le_compat; [lra|apply Rabs_pos|assumption|assumption]. }
  assert (H3 : Rabs (w * xj) <= d * X).
  { rewrite Rabs_mult, (Rabs_right w) by lra.
    apply Rmult_le_compat; [lra|apply Rabs_pos|assumption|assumption]. }
  replace ((w - w') * o + w' * xj' - w * xj)
    with ((w - w') * o + (w' * xj' + - (w * xj))) by ring.
  eapply Rle_trans; [apply Rabs_triang|].
  pose proof (Rabs_triang (w' * xj') (- (w * xj))) as Htri.
  rewrite Rabs_Ropp in Htri. lra.
Qed.

(** One channel of the attention output under a change of the logit and of
    the value of key [j]. *)
Lemma softmax_channel_bound (N j j0 : nat) (y y' x x' : nat -> R) (X d : R) :
  (j < N)%nat -> (j0 < N)%nat -> j0 <> j ->
  (forall k, k <> j -> y' k = y k) ->
  (forall k, k <> j -> x' k = x k) ->
  (forall k, (k < N)%nat -> Rabs (x k) <= X) ->
  Rabs (x' j) <= X ->
  softmax N y j <= d -> softmax N y' j <= d ->
  Rabs (big_sum N (fun k => softmax N y' k * x' k)
        - big_sum N (fun k => softmax N y k * x k)) <= 3 * d * X.
Proof.
  intros Hj Hj0 Hne Hy Hx HX HXj Hw Hw'.
  set (E := fun k => if (k =? j)%nat then 0 else exp (y k)).
  set (Rs := big_sum N E).
  set (T := big_sum N (fun k => E k * x k)).
  assert (HE0 : forall k, 0 <= E k).
  { intros k. unfold E. destruct (k =? j)%nat; [lra|]. left. apply exp_pos. }
  assert (HR : 0 < Rs).
  { apply Rlt_le_trans with (E j0).
    - unfold E. destruct (Nat.eqb_spec j0 j); [contradiction|]. apply exp_pos.
    - apply (big_sum_ge_term N E j0); [intros; apply HE0|assumption]. }
  assert (HT : Rabs T <= X * Rs).
  { apply big_sum_weighted_bound; [intros; apply HE0|assumption]. }
  assert (Hden : forall (u : nat -> R), (forall k, k <> j -> u k = y k) ->
             big_sum N (fun k => exp (u k)) = Rs + exp (u j)).
  { intros u Hu. rewrite (big_sum_split_at N j) by assumption. f_equal.
    apply big_sum_ext. intros k _. unfold E.
    destruct (Nat.eqb_spec k j); [reflexivity|]. rewrite Hu by assumption.
    reflexivity. }
  assert (Hnum : forall (u t : nat -> R),
             (forall k, k <> j -> u k = y k) ->
             (forall k, k <> j -> t k = x k) ->
             big_sum N (fun k => softmax N u k * t k) =
             (T + exp (u j) * t j) / (Rs + exp (u j))).
  { intros u t Hu Ht. unfold softmax. rewrite (Hden u Hu).
    rewrite (big_sum_ext N _
               (fun k => exp (u k) * t k * / (Rs + exp (u j))))
      by (intros; unfold Rdiv; ring).
    rewrite big_sum_scal_r. unfold Rdiv. f_equal.
    rewrite (big_sum_split_at N j) by assumption. f_equal.
    apply big_sum_ext. intros k _. unfold E.
    destruct (Nat.eqb_spec k j); [ring|].
    rewrite Hu, Ht by assumption. reflexivity. }
  rewrite (Hnum y' x' Hy Hx), (Hnum y x (fun _ _ => eq_refl) (fun _ _ => eq_refl)).
  unfold softmax in Hw, Hw'.
  rewrite (Hden y' Hy) in Hw'. rewrite (Hden y (fun _ _ => eq_refl)) in Hw.
  apply mix_bound; try assumption; try apply exp_pos.
  apply HX. assumption.
Qed.

Lemma sqrt_sum_sq_lipschitz (x y z x' y' z' eps : R) :
  0 <= eps ->
  Rabs (sqrt (x' * x' + y' * y' + z' * z' + eps)
        - sqrt (x * x + y * y + z * z + eps))
  <= Rabs (x' - x) + Rabs (y' - y) + Rabs (z' - z).
Proof.
  intros He.
  set (A' := x' * x' + y' * y' + z' * z' + eps).
  set (A := x * x + y * y + z * z + eps).
  assert (HA' : 0 <= A') by (unfold A'; nra).
  assert (HA : 0 <= A) by (unfold A; nra).
  set (f := sqrt A'). set (g := sqrt A).
  assert (Hf : 0 <= f) by apply sqrt_pos.
  assert (Hg : 0 <= g) by apply sqrt_pos.
  assert (Hff : f * f = A') by (apply sqrt_sqrt; assumption).
  assert (Hgg : g * g = A) by (apply sqrt_sqrt; assumption).
  assert (Hcomp : forall c B s, 0 <= s -> s * s = B -> c * c <= B -> Rabs c <= s).
  { intros c B s Hs Hss Hc. apply Rabs_le. split; nra. }
  assert (Hx' : Rabs x' <= f) by (apply (Hcomp x' A'); [assumption..|unfold A'; nra]).
  assert (Hy' : Rabs y' <= f) by (apply (Hcomp y' A'); [assumption..|unfold A'; nra]).
  assert (Hz' : Rabs z' <= f) by (apply (Hcomp z' A'); [assumption..|unfold A'; nra]).
  assert (Hx : Rabs x <= g) by (apply (Hcomp x A); [assumption..|unfold A; nra]).
  assert (Hy : Rabs y <= g) by (apply (Hcomp y A); [assumption..|unfold A; nra]).
  assert (Hz : Rabs z <= g) by (apply (Hcomp z A); [assumption..|unfold A; nra]).
  set (S := Rabs (x' - x) + Rabs (y' - y) + Rabs (z' - z)).
  assert (HS : 0 <= S).
  { unfold S. pose proof (Rabs_pos (x' - x)). pose proof (Rabs_pos (y' - y)).
    pose proof (Rabs_pos (z' - z)). lra. }
  assert (Hprod : Rabs ((f - g) * (f + g)) <= S * (f + g)).
  { replace ((f - g) * (f + g)) with
      ((x' - x) * (x' + x) + (y' - y) * (y' + y) + (z' - z) * (z' + z))
      by (unfold A', A in *; nra).
    assert (Hterm : forall c' c, Rabs c' <= f -> Rabs c <= g ->
               Rabs ((c' - c) * (c' + c)) <= Rabs (c' - c) * (f + g)).
    { intros c' c Hc' Hc. rewrite Rabs_mult.
      apply Rmult_le_compat_l; [apply Rabs_pos|].
      eapply Rle_trans; [apply Rabs_triang|]. lra. }
    pose proof (Hterm x' x Hx' Hx). pose proof (Hterm y' y Hy' Hy).
    pose proof (Hterm z' z Hz' Hz).
    eapply Rle_trans; [apply Rabs_triang|].
    eapply Rle_trans; [apply Rplus_le_compat_r; apply Rabs_triang|].
    unfold S. lra. }
  destruct (Req_dec (f + g) 0) as [H0|Hn0].
  - assert (f = 0) by lra. assert (g = 0) by lra.
    replace (f - g) with 0 by lra. rewrite Rabs_R0. assumption.
  - rewrite Rabs_mult, (Rabs_right (f + g)) in Hprod by lra.
    apply (Rmult_le_reg_r (f + g)); [lra|assumption].
Qed.

End Bounds.

Section OutputBound.
Import Rigid InvariantPointAttention.

Lemma invert_apply_diff (r : Rigid.t) (P P' : vec3) (rho D : R) :
  mat3_within rho (rots r) ->
  Rabs (vx P' - vx P) <= D -> Rabs (vy P' - vy P) <= D ->
  Rabs (vz P' - vz P) <= D ->
  Rabs (vx (invert_apply_jit r P') - vx (invert_apply_jit r P)) <= 3 * (rho * D) /\
  Rabs (vy (invert_apply_jit r P') - vy (invert_apply_jit r P)) <= 3 * (rho * D) /\
  Rabs (vz (invert_apply_jit r P') - vz (invert_apply_jit r P)) <= 3 * (rho * D).
Proof.
  intros (H00 & H01 & H02 & H10 & H11 & H12 & H20 & H21 & H22) Hx Hy Hz.
  assert (Hterm : forall m e, Rabs m <= rho -> Rabs e <= D ->
             Rabs (m * e) <= rho * D).
  { intros m e Hm He. rewrite Rabs_mult.
    apply Rmult_le_compat; [apply Rabs_pos|apply Rabs_pos|assumption|assumption]. }
  assert (Hsum : forall m1 m2 m3 e1 e2 e3,
             Rabs m1 <= rho -> Rabs m2 <= rho -> Rabs m3 <= rho ->
             Rabs e1 <= D -> Rabs e2 <= D -> Rabs e3 <= D ->
             Rabs (m1 * e1 + m2 * e2 + m3 * e3) <= 3 * (rho * D)).
  { intros m1 m2 m3 e1 e2 e3 A1 A2 A3 B1 B2 B3.
    pose proof (Hterm m1 e1 A1 B1). pose proof (Hterm m2 e2 A2 B2).
    pose proof (Hterm m3 e3 A3 B3).
    eapply Rle_trans; [apply Rabs_triang|].
    eapply Rle_trans; [apply Rplus_le_compat_r; apply Rabs_triang|]. lra. }
  unfold invert_apply_jit, invert_apply, rot_vec_mul, invert_rot_mat, vsub.
  cbn [vx vy vz r00 r01 r02 r10 r11 r12 r20 r21 r22].
  split; [|split].
  - replace (_ - _) with
      (r00 (rots r) * (vx P' - vx P) + r10 (rots r) * (vy P' - vy P)
       + r20 (rots r) * (vz P' - vz P)) by ring.
    apply Hsum; assumption.
  - replace (_ - _) with
      (r01 (rots r) * (vx P' - vx P) + r11 (rots r) * (vy P' - vy P)
       + r21 (rots r) * (vz P' - vz P)) by ring.
    apply Hsum; assumption.
  - replace (_ - _) with
      (r02 (rots r) * (vx P' - vx P) + r12 (rots r) * (vy P' - vy P)
       + r22 (rots r) * (vz P' - vz P)) by ring.
    apply Hsum; assumption.
Qed.

Lemma forward_output_masked_bound (self : InvariantPointAttention.t)
    (ind : bool) (N : nat) (y y' : nat -> nat -> R) (a a' v v' : T4)
    (v_pts v_pts' : P4) (z : T4) (r r' : Frames) (bt i j c : nat)
    (d V Vp Zb rho Wo : R) :
  i <> j -> (i < N)%nat -> (j < N)%nat -> 0 <= eps self ->
  (forall h k, a bt h i k = softmax N (y h) k) ->
  (forall h k, a' bt h i k = softmax N (y' h) k) ->
  (forall h k, k <> j -> y' h k = y h k) ->
  (forall h, a bt h i j <= d /\ a' bt h i j <= d) ->
  (forall h k c0, k <> j -> v' bt k h c0 = v bt k h c0) ->
  (forall h k p, k <> j -> v_pts' bt k h p = v_pts bt k h p) ->
  r' bt i = r bt i ->
  (forall h k c0, (k < N)%nat -> Rabs (v bt k h c0) <= V) ->
  (forall h c0, Rabs (v' bt j h c0) <= V) ->
  (forall h k p, (k < N)%nat -> vec3_within Vp (v_pts bt k h p)) ->
  (forall h p, vec3_within Vp (v_pts' bt j h p)) ->
  (forall k c0, (k < N)%nat -> Rabs (z bt i k c0) <= Zb) ->
  mat3_within rho (rots (r bt i)) ->
  (forall n, (n < concat_out_dim self)%nat ->
     Rabs (weight (linear_out self) c n) <= Wo) ->
  Rabs (forward_output self ind N a' v' v_pts' z r' bt i c
        - forward_output self ind N a v v_pts z r bt i c)
  <= INR (concat_out_dim self) * (3 * d * (V + 9 * rho * Vp + Zb) * Wo).
Proof.
  intros Hij Hi Hj Heps Ha Ha' Hy Hd Hv Hvp Hr HV HVj HVp HVpj HZ Hrho HW.
  (* the bounds are not negative *)
  assert (H0V : 0 <= V) by (pose proof (Rabs_pos (v' bt j O O)); pose proof (HVj O O); lra).
  assert (H0Vp : 0 <= Vp).
  { destruct (HVpj O O) as [H _]. pose proof (Rabs_pos (vx (v_pts' bt j O O))). lra. }
  assert (H0Z : 0 <= Zb) by (pose proof (Rabs_pos (z bt i i O)); pose proof (HZ i O Hi); lra).
  assert (H0r : 0 <= rho).
  { destruct Hrho as [H _]. pose proof (Rabs_pos (r00 (rots (r bt i)))). lra. }
  assert (H0d : 0 <= d).
  { destruct (Hd O) as [H _]. rewrite Ha in H.
    pose proof (softmax_pos N (y O) j ltac:(lia)). lra. }
  assert (HdV : 0 <= d * V) by (apply Rmult_le_pos; assumption).
  assert (HdZ : 0 <= d * Zb) by (apply Rmult_le_pos; assumption).
  assert (HrV : 0 <= rho * Vp) by (apply Rmult_le_pos; assumption).
  assert (HdrV : 0 <= d * (rho * Vp)) by (apply Rmult_le_pos; assumption).
  set (K := V + 9 * rho * Vp + Zb).
  (* one channel *)
  assert (Hch : forall h (x x' : nat -> R) X,
             (forall k, k <> j -> x' k = x k) ->
             (forall k, (k < N)%nat -> Rabs (x k) <= X) ->
             Rabs (x' j) <= X ->
             Rabs (big_sum N (fun k => a' bt h i k * x' k)
                   - big_sum N (fun k => a bt h i k * x k)) <= 3 * d * X).
  { intros h x x' X Hx HX HXj'.
    rewrite (big_sum_ext N (fun k => a' bt h i k * x' k)
               (fun k => softmax N (y' h) k * x' k))
      by (intros k _; rewrite Ha'; reflexivity).
    rewrite (big_sum_ext N (fun k => a bt h i k * x k)
               (fun k => softmax N (y h) k * x k))
      by (intros k _; rewrite Ha; reflexivity).
    destruct (Hd h) as [Hd1 Hd2]. rewrite Ha in Hd1. rewrite Ha' in Hd2.
    apply (softmax_channel_bound N j i); try assumption. apply Hy. }
  assert (Ho : forall h c0,
             Rabs (big_sum N (fun k => a' bt h i k * v' bt k h c0)
                   - big_sum N (fun k => a bt h i k * v bt k h c0))
             <= 3 * d * V).
  { intros h c0.
    apply (Hch h (fun k => v bt k h c0) (fun k => v' bt k h c0)).
    - intros k Hk. apply Hv. assumption.
    - intros k Hk. apply HV. assumption.
    - apply HVj. }
  assert (Hpair : forall h c0,
             Rabs (big_sum N (fun k => a' bt h i k * z bt i k c0)
                   - big_sum N (fun k => a bt h i k * z bt i k c0))
             <= 3 * d * Zb).
  { intros h c0.
    apply (Hch h (fun k => z bt i k c0) (fun k => z bt i k c0)).
    - reflexivity.
    - intros k Hk. apply HZ. assumption.
    - apply HZ. assumption. }
  assert (Hpt : forall h p,
    Rabs (big_sum N (fun k => a' bt h i k * vx (v_pts' bt k h p))
          - big_sum N (fun k => a bt h i k * vx (v_pts bt k h p))) <= 3 * d * Vp /\
    Rabs (big_sum N (fun k => a' bt h i k * vy (v_pts' bt k h p))
          - big_sum N (fun k => a bt h i k * vy (v_pts bt k h p))) <= 3 * d * Vp /\
    Rabs (big_sum N (fun k => a' bt h i k * vz (v_pts' bt k h p))
          - big_sum N (fun k => a bt h i k * vz (v_pts bt k h p))) <= 3 * d * Vp).
  { intros h p. split; [|split].
    - apply (Hch h (fun k => vx (v_pts bt k h p)) (fun k => vx (v_pts' bt k h p))).
      + intros k Hk. rewrite Hvp by assumption. reflexivity.
      + intros k Hk. apply (HVp h k p Hk).
      + apply (HVpj h p).
    - apply (Hch h (fun k => vy (v_pts bt k h p)) (fun k => vy (v_pts' bt k h p))).
      + intros k Hk. rewrite Hvp by assumption. reflexivity.
      + intros k Hk. apply (HVp h k p Hk).
      + apply (HVpj h p).
    - apply (Hch h (fun k => vz (v_pts bt k h p)) (fun k => vz (v_pts' bt k h p))).
      + intros k Hk. rewrite Hvp by assumption. reflexivity.
      + intros k Hk. apply (HVp h k p Hk).
      + apply (HVpj h p). }
  assert (Hloc : forall h p,
    let P' := mkvec3 (big_sum N (fun k => a' bt h i k * vx (v_pts' bt k h p)))
                     (big_sum N (fun k => a' bt h i k * vy (v_pts' bt k h p)))
                     (big_sum N (fun k => a' bt h i k * vz (v_pts' bt k h p))) in
    let P := mkvec3 (big_sum N (fun k => a bt h i k * vx (v_pts bt k h p)))
                    (big_sum N (fun k => a bt h i k * vy (v_pts bt k h p)))
                    (big_sum N (fun k => a bt h i k * vz (v_pts bt k h p))) in
    Rabs (vx (invert_apply_jit (r bt i) P') - vx (invert_apply_jit (r bt i) P))
      <= 3 * (rho * (3 * d * Vp)) /\
    Rabs (vy (invert_apply_jit (r bt i) P') - vy (invert_apply_jit (r bt i) P))
      <= 3 * (rho * (3 * d * Vp)) /\
    Rabs (vz (invert_apply_jit (r bt i) P') - vz (invert_apply_jit (r bt i) P))
      <= 3 * (rho * (3 * d * Vp))).
  { intros h p P' P. destruct (Hpt h p) as (Hx & Hy' & Hz).
    apply invert_apply_diff; assumption. }
  assert (Hnorm : forall h p,
    let P' := mkvec3 (big_sum N (fun k => a' bt h i k * vx (v_pts' bt k h p)))
                     (big_sum N (fun k => a' bt h i k * vy (v_pts' bt k h p)))
                     (big_sum N (fun k => a' bt h i k * vz (v_pts' bt k h p))) in
    let P := mkvec3 (big_sum N (fun k => a bt h i k * vx (v_pts bt k h p)))
                    (big_sum N (fun k => a bt h i k * vy (v_pts bt k h p)))
                    (big_sum N (fun k => a bt h i k * vz (v_pts bt k h p))) in
    let q' := invert_apply_jit (r bt i) P' in
    let q := invert_apply_jit (r bt i) P in
    Rabs (sqrt (vx q' * vx q' + vy q' * vy q' + vz q' * vz q' + eps self)
          - sqrt (vx q * vx q + vy q * vy q + vz q * vz q + eps self))
      <= 9 * (rho * (3 * d * Vp))).
  { intros h p P' P q' q. destruct (Hloc h p) as (Hx & Hy' & Hz).
    eapply Rle_trans; [apply sqrt_sum_sq_lipschitz; assumption|].
    fold P' P q' q in Hx, Hy', Hz. lra. }
  (* the projection *)
  unfold forward_output, Linear_forward, F_linear.
  fold (concat_out_dim self).
  match goal with
  | |- Rabs (big_sum _ ?F' + _ - (big_sum _ ?F + _)) <= _ =>
      replace (big_sum (concat_out_dim self) F' + bias (linear_out self) c
               - (big_sum (concat_out_dim self) F + bias (linear_out self) c))
        with (big_sum (concat_out_dim self) (fun n => F' n - F n))
        by (rewrite <- big_sum_minus; ring)
  end.
  apply big_sum_abs_bound. intros n Hn. cbv beta.
  rewrite <- Rmult_minus_distr_r, Rabs_mult.
  apply Rmult_le_compat; [apply Rabs_pos|apply Rabs_pos| |apply HW; assumption].
  unfold cat2, _forward_o_pt_norm_jit, _forward_o_pt_norm_eager.
  rewrite Hr.
  repeat match goal with
         | |- context [(?x <? ?y)%nat] => destruct (x <? y)%nat
         end.
  - eapply Rle_trans; [apply Ho|]. unfold K. nra.
  - eapply Rle_trans; [apply (proj1 (Hloc _ _))|]. unfold K. nra.
  - eapply Rle_trans; [apply (proj1 (proj2 (Hloc _ _)))|]. unfold K. nra.
  - eapply Rle_trans; [apply (proj2 (proj2 (Hloc _ _)))|]. unfold K. nra.
  - destruct ind; cbv beta; rewrite ?Hr;
      (eapply Rle_trans; [apply Hnorm|]; unfold K; nra).
  - eapply Rle_trans; [apply Hpair|]. unfold K. nra.
Qed.

End OutputBound.

(** ** Claims about Invariant Point Attention *)

Section IPAClaims.
Import Rigid InvariantPointAttention IPAExample.

(** C1. In exact arithmetic the output of [InvariantPointAttention.forward]
    is invariant under a global rigid transform: composing every frame of [r]
    with the same rigid [g], and changing no other input, gives the same
    outcome, the same exception or the same [s_update] at every residue. *)
Theorem ipa_forward_rigid_invariant (self : InvariantPointAttention.t)
    (fp16 ind : bool) (N : nat) (s : T3) (z : T4) (r : Frames) (mask : T2)
    (g : Rigid.t) :
  is_rigid g ->
  result_rel
    (fun u' u => forall bt i c, (i < N)%nat -> u' bt i c = u bt i c)
    (forward self fp16 ind N s z (fun bt i => compose g (r bt i)) mask)
    (forward self fp16 ind N s z r mask).
Proof.
  intros Hg.
  unfold forward, forward_activations, _forward_linears_on_inputs_eager.
  cbv zeta.
  match goal with
  | |- result_rel _ (bindR (forward_attention _ _ _ _ ?q ?b ?k ?qp' ?kp' _) _)
                    (bindR (forward_attention _ _ _ _ _ _ _ ?qp ?kp _) _) =>
      destruct (forward_attention_char self fp16 ind N q b k qp' kp' mask)
        as (a' & Ha' & E');
      destruct (forward_attention_char self fp16 ind N q b k qp kp mask)
        as (a & Ha & E)
  end.
  rewrite E', E.
  destruct ((c_hidden self =? 0)%nat || (num_qk_points self =? 0)%nat).
  { reflexivity. }
  cbn [bindR ok raise result_rel].
  intros bt i c Hi.
  assert (Haa : forall bt h i j, a' bt h i j = a bt h i j).
  { intros bt0 h0 i0 j0. rewrite Ha', Ha. apply softmax_ext. intros j'.
    unfold logit_spec. f_equal. f_equal. f_equal.
    apply big_sum_ext. intros p _.
    rewrite !apply_compose. apply norm2_apply_sub. assumption. }
  apply forward_output_invariant; try assumption.
  - intros bt0 h0 i0.
    rewrite (big_sum_ext N (a bt0 h0 i0) _ (fun j _ => Ha bt0 h0 i0 j)).
    apply softmax_sum. lia.
  - intros bt0 j h p. apply apply_compose.
Qed.


Lemma ipa_forward_rigid_invariant_witness :
  is_rigid g /\
  result_rel
    (fun u' u => forall bt i c, (i < N_res)%nat -> u' bt i c = u bt i c)
    (forward ipa false false N_res s_perturbed z
       (fun bt i => compose g (r_perturbed bt i)) mask)
    (forward ipa false false N_res s_perturbed z r_perturbed mask).
Proof.
  assert (Hg : is_rigid g).
  { unfold is_rigid, g, quarter_turn, rot_matmul, invert_rot_mat,
      identity_rot_mat; cbn [rots r00 r01 r02 r10 r11 r12 r20 r21 r22].
    f_equal; ring. }
  split; [exact Hg|].
  exact (ipa_forward_rigid_invariant ipa false false N_res s_perturbed z
           r_perturbed mask g Hg).
Defined.

(** C2. The attention weights that [forward] computes are the softmax over
    the key positions [j] of the logit
    [sqrt(1/(3 c_hidden)) (q_i . k_j) + sqrt(1/3) b[i,j,h]
     - 0.5 softplus(head_weights[h]) sqrt(1/(3 (num_qk_points 9/2)))
       (sum over p of |q_pts[i,h,p] - k_pts[j,h,p]|^2)]
    plus the mask bias [(mask_i mask_j - 1) inf]; the only other outcome is
    the division by zero of the scale constants when [c_hidden] or
    [num_qk_points] is 0. *)
Theorem ipa_attention_logits (self : InvariantPointAttention.t)
    (fp16 ind : bool) (N : nat) (q b k : T4) (q_pts k_pts : P4) (mask : T2) :
  match forward_attention self fp16 ind N q b k q_pts k_pts mask with
  | inr a =>
      forall bt h i j,
        a bt h i j =
        softmax N (fun j' =>
                     logit_spec q k b q_pts k_pts (c_hidden self)
                       (head_weights self) (num_qk_points self) bt h i j'
                     + mask_bias mask (inf self) bt i j') j
  | inl e =>
      e = ZeroDivisionError /\
      (c_hidden self = 0%nat \/ num_qk_points self = 0%nat)
  end.
Proof.
  destruct (forward_attention_char self fp16 ind N q b k q_pts k_pts mask)
    as (a & Ha & E).
  rewrite E.
  destruct (Nat.eqb_spec (c_hidden self) 0) as [HC|HC]; cbn [orb].
  { split; [reflexivity|]. left. assumption. }
  destruct (Nat.eqb_spec (num_qk_points self) 0) as [HP|HP].
  { split; [reflexivity|]. right. assumption. }
  exact Ha.
Qed.

(** C7 (as stated) fails: in the example the second residue is masked out,
    the two runs differ only in its row of [s] and its frame, and [s_update]
    at the valid first residue moves from 0 to 50000. *)
Lemma ipa_masked_row_leaks :
  mask O 1%nat = 0 /\ mask O O = 1 /\
  (forall i c, i <> 1%nat -> s_perturbed O i c = s O i c) /\
  (forall i, i <> 1%nat -> r_perturbed O i = r O i) /\
  match forward ipa false false N_res s z r mask,
        forward ipa false false N_res s_perturbed z r_perturbed mask with
  | inr u, inr u' => u O O O = 0 /\ u' O O O = 50000
  | _, _ => False
  end.
Proof.
  split; [reflexivity|]. split; [reflexivity|].
  split.
  { intros i c Hi. unfold s_perturbed, s.
    destruct (Nat.eqb_spec i 1); [contradiction|reflexivity]. }
  split.
  { intros i Hi. unfold r_perturbed, r.
    destruct (Nat.eqb_spec i 1); [contradiction|reflexivity]. }
  pose proof (example_run s r) as H1.
  pose proof (example_run s_perturbed r_perturbed) as H2.
  destruct (forward ipa false false N_res s z r mask) as [e|u];
    [contradiction (H1 (fun _ _ => eq_refl))|].
  destruct (forward ipa false false N_res s_perturbed z r_perturbed mask)
    as [e'|u'].
  { apply H2. intros bt i. unfold r_perturbed. destruct (i =? 1)%nat; reflexivity. }
  split.
  - rewrite H1 by (intros; reflexivity). unfold s.
    pose proof (exp_pos 0). pose proof (exp_pos (0 - 100000)). field. lra.
  - rewrite H2 by (intros bt i; unfold r_perturbed; destruct (i =? 1)%nat; reflexivity).
    unfold s_perturbed. cbn [Nat.eqb].
    replace (100000 - 100000) with 0 by ring.
    pose proof (exp_pos 0). field. lra.
Qed.

(** C7 (amended).  Two runs that differ only in the row of [s] and the frame
    of a masked residue [j] have, for every other residue, the same logits
    against every key other than [j], the same values and the same value
    points.  [forward] computes [s_update] from the attention weights by the
    output stage.  For every row [i] other than [j]:
    the output stage gives the same row of [s_update] in both runs for any
    attention weights that give key [j] the weight 0 at row [i] in both runs
    and agree there on the other keys; and for the attention weights that
    [forward] computes, if [d] bounds the weight of key [j] at row [i] in
    both runs, the entry [c] of that row of [s_update] changes by at most
    [concat_out_dim * 3 * d * (V + 9 * rho * Vp + Zb) * Wo], where [V] bounds
    the values (those of the perturbed residue included), [Vp] the
    coordinates of the value points, [Zb] the pair entries of row [i], [rho]
    the entries of the rotation of frame [i] and [Wo] the weights of
    [linear_out] for channel [c].  In exact arithmetic the weight that a
    valid query [i] gives to key [j] is, in either run, not negative and at
    most [exp (L i j - L i j0 - inf)] for every valid key [j0], where [L] is
    the logit of that run before the mask bias. *)
Theorem ipa_masked_key_influence (self : InvariantPointAttention.t)
    (fp16 ind : bool) (N : nat) (s s' : T3) (z : T4) (r r' : Frames)
    (mask : T2) (bt j : nat) :
  mask bt j = 0 ->
  (forall i c, i <> j -> s' bt i c = s bt i c) ->
  (forall i, i <> j -> r' bt i = r bt i) ->
  let '(q, b, k, v, q_pts, k_pts, v_pts) := forward_activations self s z r in
  let '(q', b', k', v', q_pts', k_pts', v_pts') :=
    forward_activations self s' z r' in
  let L := logit_spec q k b q_pts k_pts (c_hidden self) (head_weights self)
             (num_qk_points self) in
  let L' := logit_spec q' k' b' q_pts' k_pts' (c_hidden self)
              (head_weights self) (num_qk_points self) in
  (forall h i j', i <> j -> j' <> j -> L' bt h i j' = L bt h i j') /\
  (forall h j' c, j' <> j -> v' bt j' h c = v bt j' h c) /\
  (forall h j' p, j' <> j -> v_pts' bt j' h p = v_pts bt j' h p) /\
  forward self fp16 ind N s z r mask =
    (let? a := forward_attention self fp16 ind N q b k q_pts k_pts mask in
     ok (forward_output self ind N a v v_pts z r)) /\
  forward self fp16 ind N s' z r' mask =
    (let? a' := forward_attention self fp16 ind N q' b' k' q_pts' k_pts' mask in
     ok (forward_output self ind N a' v' v_pts' z r')) /\
  (forall (a a' : T4) i, i <> j ->
     (forall h j', (j' < N)%nat -> j' <> j -> a' bt h i j' = a bt h i j') ->
     (forall h, a bt h i j = 0 /\ a' bt h i j = 0) ->
     forall c,
       forward_output self ind N a' v' v_pts' z r' bt i c =
       forward_output self ind N a v v_pts z r bt i c) /\
  (forall (a a' : T4) (u u' : T3),
     forward_attention self fp16 ind N q b k q_pts k_pts mask = ok a ->
     forward_attention self fp16 ind N q' b' k' q_pts' k_pts' mask = ok a' ->
     forward self fp16 ind N s z r mask = ok u ->
     forward self fp16 ind N s' z r' mask = ok u' ->
     forall i c d V Vp Zb rho Wo,
       i <> j -> (i < N)%nat -> (j < N)%nat -> 0 <= eps self ->
       (forall h, a bt h i j <= d /\ a' bt h i j <= d) ->
       (forall h j' c0, (j' < N)%nat -> Rabs (v bt j' h c0) <= V) ->
       (forall h c0, Rabs (v' bt j h c0) <= V) ->
       (forall h j' p, (j' < N)%nat -> vec3_within Vp (v_pts bt j' h p)) ->
       (forall h p, vec3_within Vp (v_pts' bt j h p)) ->
       (forall j' c0, (j' < N)%nat -> Rabs (z bt i j' c0) <= Zb) ->
       mat3_within rho (rots (r bt i)) ->
       (forall n, (n < concat_out_dim self)%nat ->
          Rabs (weight (linear_out self) c n) <= Wo) ->
       Rabs (u' bt i c - u bt i c)
       <= INR (concat_out_dim self)
          * (3 * d * (V + 9 * rho * Vp + Zb) * Wo)) /\
  masked_weight_bounded self fp16 ind N q b k q_pts k_pts mask bt j /\
  masked_weight_bounded self fp16 ind N q' b' k' q_pts' k_pts' mask bt j.
Proof.
  intros Hmask Hs Hr.
  unfold forward, forward_activations, _forward_linears_on_inputs_eager.
  cbv zeta.
  assert (Hlin : forall i w b o, i <> j ->
            F_linear (c_s self) (s' bt i) w b o = F_linear (c_s self) (s bt i) w b o).
  { intros i w b o Hi. apply F_linear_ext. intros c. apply Hs. assumption. }
  match goal with
  | |- ?A /\ ?B /\ ?C /\ _ =>
      assert (HA : A); [|assert (HB : B); [|assert (HC : C)]]
  end.
  { intros h i j' Hi Hj'. unfold logit_spec.
    f_equal; [f_equal|].
    + f_equal. apply big_sum_ext. intros c _.
      rewrite !Hlin by assumption. reflexivity.
    + f_equal. apply big_sum_ext. intros p _.
      rewrite !Hlin by assumption. rewrite !Hr by assumption. reflexivity. }
  { intros h j' c Hj'. apply Hlin. assumption. }
  { intros h j' p Hj'. rewrite !Hlin by assumption. rewrite Hr by assumption.
    reflexivity. }
  split; [exact HA|]. split; [exact HB|]. split; [exact HC|].
  split; [reflexivity|]. split; [reflexivity|].
  split; [|split; [|split]].
  - intros a a' i Hi Ha Hzero c.
    apply (forward_output_zero_weight self ind N a a' _ _ _ _ z r r' bt i j);
      try assumption.
    apply Hr. assumption.
  - intros a a' u u' HFA HFA' Hu Hu' i c d V Vp Zb rho Wo
      Hij Hi Hj Heps Hd HV HVj HVp HVpj HZ Hrho HW.
    rewrite HFA in Hu. rewrite HFA' in Hu'. cbn [bindR ok] in Hu, Hu'.
    injection Hu as <-. injection Hu' as <-.
    match type of HFA with
    | forward_attention _ _ _ _ ?q ?b ?k ?qp ?kp _ = _ =>
        destruct (forward_attention_char self fp16 ind N q b k qp kp mask)
          as (a0 & Ha0 & E0)
    end.
    match type of HFA' with
    | forward_attention _ _ _ _ ?q ?b ?k ?qp ?kp _ = _ =>
        destruct (forward_attention_char self fp16 ind N q b k qp kp mask)
          as (a0' & Ha0' & E0')
    end.
    rewrite E0 in HFA. rewrite E0' in HFA'.
    destruct ((c_hidden self =? 0)%nat || (num_qk_points self =? 0)%nat);
      [discriminate|].
    injection HFA as <-. injection HFA' as <-.
    eapply (forward_output_masked_bound self ind N _ _ a0 a0' _ _ _ _ z r r'
              bt i j c d V Vp Zb rho Wo); try eassumption.
    + intros h j'. apply Ha0.
    + intros h j'. apply Ha0'.
    + intros h j' Hj'. cbv beta. rewrite HA by assumption. reflexivity.
    + apply Hr. assumption.
  - apply masked_weight_bound. assumption.
  - apply masked_weight_bound. assumption.
Qed.

Lemma ipa_masked_key_influence_witness :
  mask O 1%nat = 0 /\
  (forall i c, i <> 1%nat -> s_perturbed O i c = s O i c) /\
  (forall i, i <> 1%nat -> r_perturbed O i = r O i) /\
  (let '(q, b, k, v, q_pts, k_pts, v_pts) := forward_activations ipa s z r in
   let '(q', b', k', v', q_pts', k_pts', v_pts') :=
     forward_activations ipa s_perturbed z r_perturbed in
   (let L := logit_spec q k b q_pts k_pts (c_hidden ipa) (head_weights ipa)
               (num_qk_points ipa) in
    let L' := logit_spec q' k' b' q_pts' k_pts' (c_hidden ipa)
                (head_weights ipa) (num_qk_points ipa) in
    (forall h i j', i <> 1%nat -> j' <> 1%nat -> L' O h i j' = L O h i j') /\
    (forall h j' c, j' <> 1%nat -> v' O j' h c = v O j' h c) /\
    (forall h j' p, j' <> 1%nat -> v_pts' O j' h p = v_pts O j' h p) /\
    forward ipa false false N_res s z r mask =
      (let? a := forward_attention ipa false false N_res q b k q_pts k_pts mask in
       ok (forward_output ipa false N_res a v v_pts z r)) /\
    forward ipa false false N_res s_perturbed z r_perturbed mask =
      (let? a' := forward_attention ipa false false N_res q' b' k' q_pts' k_pts'
                    mask in
       ok (forward_output ipa false N_res a' v' v_pts' z r_perturbed)) /\
    (forall (a a' : T4) i, i <> 1%nat ->
       (forall h j', (j' < N_res)%nat -> j' <> 1%nat ->
          a' O h i j' = a O h i j') ->
       (forall h, a O h i 1%nat = 0 /\ a' O h i 1%nat = 0) ->
       forall c,
         forward_output ipa false N_res a' v' v_pts' z r_perturbed O i c =
         forward_output ipa false N_res a v v_pts z r O i c) /\
    (forall (a a' : T4) (u u' : T3),
       forward_attention ipa false false N_res q b k q_pts k_pts mask = ok a ->
       forward_attention ipa false false N_res q' b' k' q_pts' k_pts' mask =
         ok a' ->
       forward ipa false false N_res s z r mask = ok u ->
       forward ipa false false N_res s_perturbed z r_perturbed mask = ok u' ->
       forall i c d V Vp Zb rho Wo,
         i <> 1%nat -> (i < N_res)%nat -> (1 < N_res)%nat -> 0 <= eps ipa ->
         (forall h, a O h i 1%nat <= d /\ a' O h i 1%nat <= d) ->
         (forall h j' c0, (j' < N_res)%nat -> Rabs (v O j' h c0) <= V) ->
         (forall h c0, Rabs (v' O 1%nat h c0) <= V) ->
         (forall h j' p, (j' < N_res)%nat -> vec3_within Vp (v_pts O j' h p)) ->
         (forall h p, vec3_within Vp (v_pts' O 1%nat h p)) ->
         (forall j' c0, (j' < N_res)%nat -> Rabs (z O i j' c0) <= Zb) ->
         mat3_within rho (rots (r O i)) ->
         (forall n, (n < concat_out_dim ipa)%nat ->
            Rabs (weight (linear_out ipa) c n) <= Wo) ->
         Rabs (u' O i c - u O i c)
         <= INR (concat_out_dim ipa)
            * (3 * d * (V + 9 * rho * Vp + Zb) * Wo)) /\
    masked_weight_bounded ipa false false N_res q b k q_pts k_pts mask O 1%nat /\
    masked_weight_bounded ipa false false N_res q' b' k' q_pts' k_pts' mask
      O 1%nat) /\
   (* with the whole weight of row 0 on key 0, the two runs agree on row 0 *)
   forall c,
     forward_output ipa false N_res IPAExample2.first_key_only v' v_pts' z
       r_perturbed O O c =
     forward_output ipa false N_res IPAExample2.first_key_only v v_pts z r
       O O c) /\
  (* the bound for the two runs of the example, with [d = 1] *)
  forall u u',
    forward ipa false false N_res s z r mask = ok u ->
    forward ipa false false N_res s_perturbed z r_perturbed mask = ok u' ->
    Rabs (u' O O O - u O O O)
    <= INR (concat_out_dim ipa) * (3 * 1 * (100000 + 9 * 1 * 0 + 0) * 1).
Proof.
  assert (H1 : mask O 1%nat = 0) by reflexivity.
  assert (H2 : forall i c, i <> 1%nat -> s_perturbed O i c = s O i c).
  { intros i c Hi. unfold s_perturbed, s.
    destruct (Nat.eqb_spec i 1); [contradiction|reflexivity]. }
  assert (H3 : forall i, i <> 1%nat -> r_perturbed O i = r O i).
  { intros i Hi. unfold r_perturbed, r.
    destruct (Nat.eqb_spec i 1); [contradiction|reflexivity]. }
  split; [exact H1|]. split; [exact H2|]. split; [exact H3|].
  pose proof (ipa_masked_key_influence ipa false false N_res s s_perturbed z
                r r_perturbed mask O 1%nat H1 H2 H3) as H.
  split.
  - destruct (forward_activations ipa s z r)
      as [[[[[[q b] k] v] q_pts] k_pts] v_pts].
    destruct (forward_activations ipa s_perturbed z r_perturbed)
      as [[[[[[q' b'] k'] v'] q_pts'] k_pts'] v_pts'].
    split; [exact H|].
    destruct H as (_ & _ & _ & _ & _ & Hout & _).
    apply (Hout IPAExample2.first_key_only IPAExample2.first_key_only O).
    + discriminate.
    + reflexivity.
    + intros h. split; reflexivity.
  - unfold forward_activations, _forward_linears_on_inputs_eager in H.
    cbv zeta in H.
    destruct H as (_ & _ & _ & E & E' & _ & Hbound & _).
    intros u u' Hu Hu'.
    pose proof Hu as Hu0. pose proof Hu' as Hu0'.
    rewrite E in Hu0. rewrite E' in Hu0'.
    match type of Hu0 with
    | bindR ?m _ = _ =>
        assert (HFA : exists a, m = ok a)
          by (destruct m; [discriminate|eexists; reflexivity])
    end.
    match type of Hu0' with
    | bindR ?m _ = _ =>
        assert (HFA' : exists a, m = ok a)
          by (destruct m; [discriminate|eexists; reflexivity])
    end.
    destruct HFA as [a HFA]. destruct HFA' as [a' HFA'].
    apply (Hbound a a' u u' HFA HFA' Hu Hu').
    + discriminate.
    + unfold N_res. lia.
    + unfold N_res. lia.
    + cbn. lra.
    + intros h. split.
      * apply (forward_attention_le_one _ _ _ _ _ _ _ _ _ _ _ HFA).
        unfold N_res. lia.
      * apply (forward_attention_le_one _ _ _ _ _ _ _ _ _ _ _ HFA').
        unfold N_res. lia.
    + intros h j' c0 _. unfold F_linear, s. cbn.
      replace (0 + 0 * 1 + 0) with 0 by ring. rewrite Rabs_R0. lra.
    + intros h c0. unfold F_linear, s_perturbed. cbn.
      replace (0 + 100000 * 1 + 0) with 100000 by ring.
      rewrite Rabs_right by lra. lra.
    + intros h j' p _. unfold vec3_within, F_linear, r, apply, rot_vec_mul,
        vadd, identity, identity_rot_mat. cbn.
      repeat split;
        match goal with
        | |- Rabs ?t <= _ => replace t with 0 by ring
        end; rewrite Rabs_R0; lra.
    + intros h p. unfold vec3_within, F_linear, r_perturbed, quarter_turn,
        apply, rot_vec_mul, vadd. cbn.
      repeat split;
        match goal with
        | |- Rabs ?t <= _ => replace t with 0 by ring
        end; rewrite Rabs_R0; lra.
    + intros j' c0 _. unfold z. rewrite Rabs_R0. lra.
    + unfold mat3_within, r, identity, identity_rot_mat. cbn.
      rewrite Rabs_R0, Rabs_R1. repeat split; lra.
    + intros n _. cbn. destruct (n =? 0)%nat;
        [rewrite Rabs_R1|rewrite Rabs_R0]; lra.
Defined.

End IPAClaims.

(** ** Shapes and broadcasting *)

Section ShapeFacts.

Lemma py_index_ok (len : nat) (d : Z) :
  valid_axis len d -> exists k, py_index len d = ok k /\ (k < len)%nat.
Proof.
  unfold valid_axis, py_index. intros [Hlo Hhi].
  destruct (0 <=? d)%Z eqn:E0.
  - apply Z.leb_le in E0.
    assert ((d <? Z.of_nat len)%Z = true) as -> by (apply Z.ltb_lt; lia).
    cbn. exists (Z.to_nat d). split; [reflexivity|lia].
  - apply Z.leb_gt in E0. cbn.
    assert ((- Z.of_nat len <=? d)%Z = true) as -> by (apply Z.leb_le; lia).
    assert ((d <? 0)%Z = true) as -> by (apply Z.ltb_lt; lia).
    cbn. exists (Z.to_nat (Z.of_nat len + d)). split; [reflexivity|lia].
Qed.

Lemma py_index_bound (len : nat) (d : Z) (k : nat) :
  py_index len d = ok k -> (k < len)%nat.
Proof.
  unfold py_index.
  destruct ((0 <=? d)%Z && (d <? Z.of_nat len)%Z) eqn:E1.
  - apply andb_prop in E1 as [E0 E2]. apply Z.leb_le in E0. apply Z.ltb_lt in E2.
    intros [= <-]. lia.
  - destruct ((- Z.of_nat len <=? d)%Z && (d <? 0)%Z) eqn:E3; [|discriminate].
    apply andb_prop in E3 as [E4 E5]. apply Z.leb_le in E4. apply Z.ltb_lt in E5.
    intros [= <-]. lia.
Qed.

Lemma py_index_invalid (len : nat) (d : Z) :
  ~ valid_axis len d -> py_index len d = raise IndexError.
Proof.
  unfold valid_axis, py_index. intros H.
  destruct ((0 <=? d)%Z && (d <? Z.of_nat len)%Z) eqn:E1.
  - apply andb_prop in E1 as [E0 E2]. apply Z.leb_le in E0. apply Z.ltb_lt in E2. lia.
  - destruct ((- Z.of_nat len <=? d)%Z && (d <? 0)%Z) eqn:E3; [|reflexivity].
    apply andb_prop in E3 as [E4 E5]. apply Z.leb_le in E4. apply Z.ltb_lt in E5. lia.
Qed.

Lemma collapsed_refl (sh : list nat) : collapsed sh sh.
Proof. induction sh; constructor; auto. Qed.

Lemma collapsed_length (sm sh : list nat) :
  collapsed sm sh -> length sm = length sh.
Proof. apply Forall2_length. Qed.

Lemma collapsed_insert (sm sh : list nat) (k : nat) :
  collapsed sm sh -> collapsed (<[k := 1%nat]> sm) sh.
Proof.
  intros H. revert k. induction H as [|dm d sm sh Hd H IH]; intros k.
  - constructor.
  - destruct k as [|k]; cbn.
    + constructor; [right; reflexivity|assumption].
    + constructor; [assumption|apply IH].
Qed.

Lemma set_shared_ok (ds : list Z) (sm sh : list nat) :
  collapsed sm sh ->
  Forall (valid_axis (length sh)) ds ->
  exists sm', Dropout.set_shared ds sm = ok sm' /\ collapsed sm' sh.
Proof.
  intros Hc Hds. revert sm Hc.
  induction Hds as [|d ds Hd Hds IH]; intros sm Hc; cbn.
  - exists sm. split; [reflexivity|assumption].
  - rewrite (collapsed_length _ _ Hc).
    destruct (py_index_ok _ _ Hd) as (k & -> & Hk). cbn.
    apply IH. apply collapsed_insert. assumption.
Qed.

Lemma broadcast_zip_collapsed (sh sm : list nat) :
  collapsed sm sh -> broadcast_zip sh sm = ok sh.
Proof.
  induction 1 as [|dm d sm sh Hd H IH]; cbn.
  - reflexivity.
  - rewrite IH. cbn.
    destruct (Nat.eqb_spec d dm) as [E|E]; [reflexivity|].
    destruct Hd as [->| ->]; [contradiction|].
    destruct (Nat.eqb_spec d 1) as [E1|E1]; [congruence|].
    reflexivity.
Qed.

Lemma pad_shape_same (s : list nat) : pad_shape (length s) s = s.
Proof. unfold pad_shape. rewrite Nat.sub_diag. reflexivity. Qed.

Lemma broadcast_shapes_collapsed (sh sm : list nat) :
  collapsed sm sh -> broadcast_shapes sh sm = ok sh.
Proof.
  intros H. unfold broadcast_shapes.
  rewrite (collapsed_length _ _ H), Nat.max_id.
  rewrite pad_shape_same.
  rewrite <- (collapsed_length _ _ H), pad_shape_same.
  apply broadcast_zip_collapsed. assumption.
Qed.

Lemma bcast_index_valid (sh idx : list nat) :
  valid_index sh idx -> bcast_index sh idx = idx.
Proof.
  unfold valid_index, bcast_index. intros H.
  rewrite (Forall2_length _ _ _ H), Nat.sub_diag, drop_0.
  induction H as [|i d idx sh Hid H IH]; cbn.
  - reflexivity.
  - rewrite IH. destruct (Nat.eqb_spec d 1) as [->|]; [|reflexivity].
    f_equal. lia.
Qed.

End ShapeFacts.

(** ** Frame rules: what a computation leaves alone *)

Section Keeps.
Context (l : loc) (t : Tensor).

Lemma keeps_weaken {A} (m : M A) (Q Q' : A -> Prop) :
  keeps l t m Q -> (forall x, Q x -> Q' x) -> keeps l t m Q'.
Proof.
  intros Hm HQ w Hw. destruct (Hm w Hw) as [H1 H2]. split; [assumption|].
  intros x Hx. apply HQ, H2, Hx.
Qed.

Lemma keeps_ret {A} (x : A) (Q : A -> Prop) : Q x -> keeps l t (retM x) Q.
Proof.
  intros HQ w Hw. cbn. split; [assumption|]. intros y [= <-]. assumption.
Qed.

Lemma keeps_raise {A} (e : exn) (Q : A -> Prop) : keeps l t (raiseM e) Q.
Proof. intros w Hw. cbn. split; [assumption|]. intros y [=]. Qed.

Lemma keeps_read {A} (f : World -> A) :
  keeps l t (fun w => (inr (f w), w)) (fun _ => True).
Proof. intros w Hw. cbn. split; [assumption|]. intros; exact I. Qed.

Lemma keeps_liftR {A} (r : Result A) : keeps l t (liftR r) (fun _ => True).
Proof. intros w Hw. cbn. split; [assumption|]. intros; exact I. Qed.

Lemma keeps_bind {A B} (m : M A) (k : A -> M B) (Q : A -> Prop)
    (Q' : B -> Prop) :
  keeps l t m Q -> (forall x, Q x -> keeps l t (k x) Q') ->
  keeps l t (bindM m k) Q'.
Proof.
  intros Hm Hk w Hw. unfold bindM.
  destruct (Hm w Hw) as [H1 H2].
  destruct (m w) as [[e|x] w1]; cbn in *.
  - split; [assumption|]. intros y [=].
  - apply (Hk x (H2 x eq_refl) w1 H1).
Qed.

Lemma keeps_deref (l' : loc) : keeps l t (deref l') (fun _ => True).
Proof.
  intros w Hw. unfold deref.
  destruct (heap w !! l'); cbn; (split; [assumption|intros; exact I]).
Qed.

Lemma keeps_alloc (t0 : Tensor) : keeps l t (alloc t0) (fun l0 => l0 <> l).
Proof.
  intros w Hw. unfold alloc. cbn.
  assert (fresh (dom (heap w)) <> l) as Hne.
  { intros E. pose proof (is_fresh (dom (heap w))) as Hf.
    rewrite E in Hf. apply Hf. apply elem_of_dom. eauto. }
  split.
  - rewrite lookup_insert_ne by assumption. assumption.
  - intros x [= <-]. assumption.
Qed.

Lemma keeps_store (l0 : loc) (t0 : Tensor) :
  l0 <> l -> keeps l t (store l0 t0) (fun _ => True).
Proof.
  intros Hne w Hw. unfold store. cbn. split; [|intros; exact I].
  rewrite lookup_insert_ne by assumption. assumption.
Qed.

Lemma keeps_if {A} (b : bool) (m1 m2 : M A) (Q : A -> Prop) :
  keeps l t m1 Q -> keeps l t m2 Q -> keeps l t (if b then m1 else m2) Q.
Proof. destruct b; auto. Qed.

Lemma keeps_dap_scatter (m : loc) (d : Z) :
  keeps l t (dap_scatter m d) (fun l0 => l0 <> l).
Proof.
  unfold dap_scatter.
  eapply keeps_bind; [apply keeps_read|]. intros ctx _.
  eapply keeps_bind; [apply keeps_deref|]. intros ts _.
  eapply keeps_bind; [apply keeps_liftR|]. intros r _.
  apply keeps_alloc.
Qed.

Lemma keeps_F_dropout (input : loc) (p : R) (training inplace : bool) :
  input <> l ->
  keeps l t (F_dropout input p training inplace) (fun l0 => l0 <> l).
Proof.
  intros Hne. unfold F_dropout.
  destruct (Rlt_dec p 0); [apply keeps_raise|].
  destruct (Rlt_dec 1 p); [apply keeps_raise|].
  destruct (negb training); [apply keeps_ret; assumption|].
  destruct (Req_dec_T p 0); [apply keeps_ret; assumption|].
  eapply keeps_bind; [apply keeps_deref|]. intros ti _.
  eapply keeps_bind with (Q := fun _ => True).
  { destruct (Req_dec_T p 1); [apply keeps_ret; exact I|].
    eapply keeps_bind; [apply (keeps_read (fun w => rng w (rng_pos w)))|].
    intros sample _. apply keeps_ret. exact I. }
  intros out _. destruct inplace.
  - eapply keeps_bind; [apply keeps_store; assumption|].
    intros _ _. apply keeps_ret. assumption.
  - apply keeps_alloc.
Qed.

Lemma keeps_mul_add_eager (x mask y : loc) :
  keeps l t (Dropout._mul_add_eager x mask y) (fun _ => True).
Proof.
  unfold Dropout._mul_add_eager.
  eapply keeps_bind; [apply keeps_deref|]. intros tx _.
  eapply keeps_bind; [apply keeps_deref|]. intros tm _.
  eapply keeps_bind; [apply keeps_deref|]. intros ty _.
  eapply keeps_bind; [apply keeps_liftR|]. intros prod _.
  eapply keeps_bind; [apply keeps_liftR|]. intros res _.
  eapply keeps_weaken; [apply keeps_alloc|]. intros; exact I.
Qed.

Lemma keeps_mul_add (x mask y : loc) :
  keeps l t (Dropout._mul_add x mask y) (fun _ => True).
Proof.
  unfold Dropout._mul_add, Dropout._mul_add_jit,
    inductor_is_enabled_on_hopper, inductor_is_enabled_on_ampere, dap_size.
  eapply keeps_bind; [apply keeps_read|]. intros hopper _.
  destruct hopper; [apply keeps_mul_add_eager|].
  eapply keeps_bind; [apply keeps_read|]. intros ampere _.
  eapply keeps_bind; [apply keeps_read|]. intros n _.
  destruct (ampere && (n <=? 1)%nat); apply keeps_mul_add_eager.
Qed.

Lemma keeps_Dropout_forward (self : Dropout.t) (x y : loc) (dd : option Z) :
  keeps l t (Dropout.forward self x y dd) (fun _ => True).
Proof.
  unfold Dropout.forward, new_ones, dap_size.
  eapply keeps_bind; [apply keeps_deref|]. intros tx _.
  eapply keeps_bind; [apply keeps_liftR|]. intros sh1 _.
  eapply keeps_bind with (Q := fun _ => True).
  { destruct dd; [|apply keeps_ret; exact I].
    eapply keeps_bind; [apply keeps_liftR|]. intros k _.
    eapply keeps_bind; [apply keeps_read|]. intros n _.
    apply keeps_ret. exact I. }
  intros sh2 _.
  eapply keeps_bind; [apply keeps_alloc|]. intros mask Hmask.
  eapply keeps_bind; [apply keeps_F_dropout; assumption|]. intros mask' Hmask'.
  eapply keeps_bind with (Q := fun _ => True).
  { destruct dd; [|apply keeps_ret; exact I].
    eapply keeps_weaken; [apply keeps_dap_scatter|]. intros; exact I. }
  intros mask'' _.
  eapply keeps_bind; [apply keeps_mul_add|]. intros out _.
  apply keeps_ret. exact I.
Qed.

End Keeps.

Section EnvStable.

Lemma same_env_refl (w : World) : same_env w w.
Proof. repeat split. Qed.

Lemma same_env_trans (w1 w2 w3 : World) :
  same_env w1 w2 -> same_env w2 w3 -> same_env w1 w3.
Proof.
  unfold same_env. intros (A1 & A2 & A3 & A4 & A5) (B1 & B2 & B3 & B4 & B5).
  repeat split; congruence.
Qed.

Lemma env_stable_ret {A} (x : A) : env_stable (retM x).
Proof. intros w. apply same_env_refl. Qed.

Lemma env_stable_raise {A} (e : exn) : env_stable (@raiseM A e).
Proof. intros w. apply same_env_refl. Qed.

Lemma env_stable_liftR {A} (r : Result A) : env_stable (liftR r).
Proof. intros w. apply same_env_refl. Qed.

Lemma env_stable_read {A} (f : World -> A) :
  env_stable (fun w => (inr (f w), w)).
Proof. intros w. apply same_env_refl. Qed.

Lemma env_stable_bind {A B} (m : M A) (k : A -> M B) :
  env_stable m -> (forall x, env_stable (k x)) -> env_stable (bindM m k).
Proof.
  intros Hm Hk w. unfold bindM. specialize (Hm w).
  destruct (m w) as [[e|x] w1]; cbn in *; [assumption|].
  eapply same_env_trans; [eassumption|apply Hk].
Qed.

Lemma env_stable_deref (l : loc) : env_stable (deref l).
Proof.
  intros w. unfold deref. destruct (heap w !! l); apply same_env_refl.
Qed.

Lemma env_stable_alloc (t : Tensor) : env_stable (alloc t).
Proof. intros w. repeat split. Qed.

Lemma env_stable_store (l : loc) (t : Tensor) : env_stable (store l t).
Proof. intros w. repeat split. Qed.

Lemma env_stable_bernoulli_draw : env_stable bernoulli_draw.
Proof. intros w. repeat split. Qed.

End EnvStable.

Create HintDb env_stable.
#[export] Hint Resolve env_stable_ret env_stable_raise env_stable_liftR
env_stable_read env_stable_deref env_stable_alloc env_stable_store
env_stable_bernoulli_draw : env_stable.

(** Solves [env_stable] goals by following the structure of the program. *)
Ltac env_stable_tac :=
repeat first
  [ progress intros
  | solve [auto with env_stable]
  | apply env_stable_bind
  | match goal with
    | |- env_stable (if ?b then _ else _) => destruct b
    | |- env_stable (match ?o with Some _ => _ | None => _ end) => destruct o
    | |- env_stable (match ?x with (_, _) => _ end) => destruct x
    end ].

Section EnvStableOps.

Lemma env_stable_dap_scatter (t : loc) (d : Z) : env_stable (dap_scatter t d).
Proof. unfold dap_scatter, dap_context. env_stable_tac. Qed.

Lemma env_stable_dap_gather (t : loc) (d : Z) : env_stable (dap_gather t d).
Proof. unfold dap_gather, dap_context. env_stable_tac. Qed.

Lemma env_stable_dap_row_to_col (t : loc) : env_stable (dap_row_to_col t).
Proof. unfold dap_row_to_col, dap_context. env_stable_tac. Qed.

Lemma env_stable_F_dropout (input : loc) (p : R) (tr ip : bool) :
  env_stable (F_dropout input p tr ip).
Proof.
  unfold F_dropout.
  destruct (Rlt_dec p 0), (Rlt_dec 1 p), (Req_dec_T p 0), (Req_dec_T p 1);
    env_stable_tac.
Qed.

Lemma env_stable_mul_add (x m y : loc) : env_stable (Dropout._mul_add x m y).
Proof.
  unfold Dropout._mul_add, Dropout._mul_add_jit, Dropout._mul_add_eager,
    inductor_is_enabled_on_hopper, inductor_is_enabled_on_ampere, dap_size.
  env_stable_tac.
Qed.

Lemma env_stable_Dropout_forward (self : Dropout.t) (x y : loc)
    (dd : option Z) :
  env_stable (Dropout.forward self x y dd).
Proof.
  unfold Dropout.forward, new_ones, dap_size.
  pose proof env_stable_F_dropout. pose proof env_stable_mul_add.
  pose proof env_stable_dap_scatter.
  env_stable_tac.
Qed.

End EnvStableOps.

(** ** Running the dropout code *)

Section DropoutRuns.

Lemma deref_run (w : World) (l : loc) (t : Tensor) :
  heap w !! l = Some t -> deref l w = (inr t, w).
Proof. intros H. unfold deref. rewrite H. reflexivity. Qed.

Lemma bindM_run {A B} (m : M A) (k : A -> M B) (w w1 : World) (x : A) :
  m w = (inr x, w1) -> bindM m k w = k x w1.
Proof. intros H. unfold bindM. rewrite H. reflexivity. Qed.

Lemma fresh_lookup (w : World) : heap w !! fresh (dom (heap w)) = None.
Proof. apply not_elem_of_dom. apply is_fresh. Qed.

Lemma fresh_ne (w : World) (l : loc) (t : Tensor) :
  heap w !! l = Some t -> l <> fresh (dom (heap w)).
Proof. intros H E. rewrite E, fresh_lookup in H. discriminate. Qed.

Lemma F_dropout_run (input : loc) (p : R) (tr ip : bool) (w : World)
    (sh : list nat) :
  0 <= p <= 1 ->
  heap w !! input = Some (mkTensor sh (fun _ => 1)) ->
  exists m' t',
    (F_dropout input p tr ip w).1 = inr m' /\
    heap (F_dropout input p tr ip w).2 !! m' = Some t' /\
    shape t' = sh /\ mask_values tr p t'.
Proof.
  intros [Hp0 Hp1] Hin. unfold F_dropout.
  destruct (Rlt_dec p 0); [lra|]. destruct (Rlt_dec 1 p); [lra|].
  destruct tr; cbn [negb].
  2:{ exists input, (mkTensor sh (fun _ => 1)). cbn.
      repeat split; try assumption. }
  destruct (Req_dec_T p 0) as [->|Hne0].
  { exists input, (mkTensor sh (fun _ => 1)). cbn.
    repeat split; try assumption. intros idx. cbn. right. field. }
  rewrite (bindM_run _ _ _ _ _ (deref_run _ _ _ Hin)).
  destruct (Req_dec_T p 1) as [->|Hne1].
  - unfold bindM at 1. cbn [retM].
    destruct ip; cbn.
    + eexists _, _. split; [reflexivity|]. split; [apply lookup_insert_eq|].
      split; [reflexivity|]. intros idx. cbn. left. ring.
    + eexists _, _. split; [reflexivity|]. split; [apply lookup_insert_eq|].
      split; [reflexivity|]. intros idx. cbn. left. ring.
  - unfold bindM at 1. cbn [bernoulli_draw bindM retM].
    assert (Hval : forall (s : list nat -> bool) idx,
               1 * ((if s idx then 1 else 0) / (1 - p)) = 0 \/
               1 * ((if s idx then 1 else 0) / (1 - p)) = 1 / (1 - p)).
    { intros s idx. destruct (s idx); [right|left]; field; lra. }
    destruct ip; cbn.
    + eexists _, _. split; [reflexivity|]. split; [apply lookup_insert_eq|].
      split; [reflexivity|]. intros idx. cbn. apply Hval.
    + eexists _, _. split; [reflexivity|]. split; [apply lookup_insert_eq|].
      split; [reflexivity|]. intros idx. cbn. apply Hval.
Qed.

Lemma scatter_run (ctx : dap.Context) (t : Tensor) (d : Z) (k : nat)
    (sh : list nat) :
  (0 < dap.size ctx)%nat ->
  py_index (length sh) d = ok k ->
  shape t = <[k := ((sh !!! k) * dap.size ctx)%nat]> sh ->
  exists t', dap.scatter ctx t d = ok t' /\ shape t' = sh /\
             forall idx, exists idx', data t' idx = data t idx'.
Proof.
  intros Hn Hk Hsh. unfold dap.scatter.
  rewrite Hsh, length_insert, Hk. cbn [bindR ok].
  pose proof (py_index_bound _ _ _ Hk) as Hlt.
  eexists. split; [reflexivity|]. cbn. split.
  - rewrite list_lookup_total_insert_eq by assumption.
    rewrite Nat.div_mul by lia.
    rewrite list_insert_insert_eq. apply list_insert_id.
    apply list_lookup_lookup_total_lt. assumption.
  - intros idx. eexists. reflexivity.
Qed.

Lemma mul_add_run (x mask y : loc) (w : World) (tx tm ty prod res : Tensor) :
  heap w !! x = Some tx -> heap w !! mask = Some tm -> heap w !! y = Some ty ->
  tensor_mul tx tm = ok prod -> tensor_add ty prod = ok res ->
  Dropout._mul_add x mask y w =
  (inr (fresh (dom (heap w))),
   set_heap (<[fresh (dom (heap w)) := res]> (heap w)) w).
Proof.
  intros Hx Hm Hy Hprod Hres.
  assert (E : Dropout._mul_add_eager x mask y w =
              (inr (fresh (dom (heap w))),
               set_heap (<[fresh (dom (heap w)) := res]> (heap w)) w)).
  { unfold Dropout._mul_add_eager.
    rewrite (bindM_run _ _ _ _ _ (deref_run _ _ _ Hx)).
    rewrite (bindM_run _ _ _ _ _ (deref_run _ _ _ Hm)).
    rewrite (bindM_run _ _ _ _ _ (deref_run _ _ _ Hy)).
    rewrite Hprod. unfold bindM at 1. cbn [liftR ok].
    rewrite Hres. reflexivity. }
  unfold Dropout._mul_add, Dropout._mul_add_jit,
    inductor_is_enabled_on_hopper, inductor_is_enabled_on_ampere, dap_size.
  unfold bindM at 1. destruct (inductor_hopper w); [exact E|].
  unfold bindM at 1. unfold bindM at 1.
  destruct (inductor_ampere w && (dap.size (dap_ctx w) <=? 1)%nat); exact E.
Qed.

Lemma mask_values_reindex (tr : bool) (p : R) (t t' : Tensor) :
  mask_values tr p t ->
  (forall idx, exists idx', data t' idx = data t idx') ->
  mask_values tr p t'.
Proof.
  intros H Hre idx. destruct (Hre idx) as [idx' ->]. apply H.
Qed.

Lemma Dropout_forward_tail (x y mask : loc) (w1 : World)
    (tx ty tmask : Tensor) :
  heap w1 !! x = Some tx -> heap w1 !! mask = Some tmask ->
  heap w1 !! y = Some ty -> shape ty = shape tx ->
  collapsed (shape tmask) (shape tx) ->
  exists out w2 tout,
    (do x0 <- Dropout._mul_add x mask y; retM x0) w1 = (inr out, w2) /\
    heap w2 !! out = Some tout /\
    shape tout = shape tx /\
    forall idx, valid_index (shape tx) idx ->
      data tout idx =
      data ty idx + data tx idx * data tmask (bcast_index (shape tmask) idx).
Proof.
  intros Hx1 Hm1 Hy1 Hsh Hcol.
  assert (Hprod : tensor_mul tx tmask =
                  ok (mkTensor (shape tx)
                        (fun idx => bcast_get tx idx * bcast_get tmask idx))).
  { unfold tensor_mul. rewrite (broadcast_shapes_collapsed _ _ Hcol).
    reflexivity. }
  assert (Hres : tensor_add ty
                   (mkTensor (shape tx)
                      (fun idx => bcast_get tx idx * bcast_get tmask idx)) =
                 ok (mkTensor (shape tx)
                       (fun idx =>
                          bcast_get ty idx +
                          bcast_get (mkTensor (shape tx)
                            (fun idx => bcast_get tx idx * bcast_get tmask idx))
                            idx))).
  { unfold tensor_add. cbn [shape]. rewrite Hsh.
    rewrite (broadcast_shapes_collapsed _ _ (collapsed_refl _)). reflexivity. }
  rewrite (bindM_run _ _ _ _ _
             (mul_add_run x mask y w1 _ _ _ _ _ Hx1 Hm1 Hy1 Hprod Hres)).
  eexists _, _, _. split; [reflexivity|].
  split; [apply lookup_insert_eq|]. split; [reflexivity|].
  intros idx Hidx. cbn [data]. unfold bcast_get. cbn [shape data].
  rewrite Hsh, !(bcast_index_valid _ _ Hidx). reflexivity.
Qed.

(** [Dropout.forward] on inputs of one shape, for valid shared axes: it
    returns a new object holding [add_output_to + x * mask], where the mask
    has the shape of [x] with the shared axes collapsed. *)
Lemma Dropout_forward_run (self : Dropout.t) (x y : loc) (dd : option Z)
    (w : World) (tx ty : Tensor) :
  heap w !! x = Some tx -> heap w !! y = Some ty -> shape ty = shape tx ->
  0 <= Dropout.p self <= 1 ->
  Forall (valid_axis (length (shape tx))) (Dropout.share_dim self) ->
  dap_dim_ok w (length (shape tx)) dd ->
  exists out w' tout tmask sm,
    Dropout.forward self x y dd w = (inr out, w') /\
    heap w' !! out = Some tout /\
    shape tout = shape tx /\
    Dropout.set_shared (Dropout.share_dim self) (shape tx) = ok sm /\
    shape tmask = sm /\
    mask_values (Dropout.training self) (Dropout.p self) tmask /\
    forall idx, valid_index (shape tx) idx ->
      data tout idx = data ty idx + data tx idx * data tmask (bcast_index sm idx).
Proof.
  intros Hx Hy Hsh Hp Hds Hdd.
  destruct (set_shared_ok _ _ _ (collapsed_refl (shape tx)) Hds)
    as (sm & Hsm & Hcol).
  unfold Dropout.forward.
  rewrite (bindM_run _ _ _ _ _ (deref_run _ _ _ Hx)). cbv zeta.
  rewrite Hsm. rewrite (bindM_run (liftR (ok sm)) _ w w sm eq_refl).
  destruct dd as [d|].
  - destruct Hdd as [Hd Hn].
    rewrite <- (collapsed_length _ _ Hcol) in Hd.
    destruct (py_index_ok _ _ Hd) as (k & Hk & Hklt).
    set (sh2 := <[k := ((sm !!! k) * dap.size (dap_ctx w))%nat]> sm).
    assert (Esh : (do k <- liftR (py_index (length sm) d);
                   do n <- dap_size;
                   retM (<[k := ((sm !!! k) * n)%nat]> sm)) w = (inr sh2, w))
      by (rewrite Hk; reflexivity).
    rewrite (bindM_run _ _ _ _ _ Esh).
    set (m0 := fresh (dom (heap w))).
    set (w0 := set_heap (<[m0 := mkTensor sh2 (fun _ => 1)]> (heap w)) w).
    rewrite (bindM_run (new_ones x sh2) _ w w0 m0 eq_refl).
    assert (Hm0 : heap w0 !! m0 = Some (mkTensor sh2 (fun _ => 1)))
      by apply lookup_insert_eq.
    assert (Hx0 : heap w0 !! x = Some tx).
    { cbn. rewrite lookup_insert_ne by (symmetry; eapply fresh_ne; eassumption).
      assumption. }
    assert (Hy0 : heap w0 !! y = Some ty).
    { cbn. rewrite lookup_insert_ne by (symmetry; eapply fresh_ne; eassumption).
      assumption. }
    destruct (F_dropout_run m0 (Dropout.p self) (Dropout.training self)
                (Dropout.inplace self) w0 sh2 Hp Hm0)
      as (m1 & t1 & E1 & Hm1 & Hsh1 & Hval1).
    pose proof (keeps_F_dropout x tx m0 (Dropout.p self)
                  (Dropout.training self) (Dropout.inplace self)
                  (not_eq_sym (fresh_ne _ _ _ Hx)) w0 Hx0) as [Hx1 _].
    pose proof (keeps_F_dropout y ty m0 (Dropout.p self)
                  (Dropout.training self) (Dropout.inplace self)
                  (not_eq_sym (fresh_ne _ _ _ Hy)) w0 Hy0) as [Hy1 _].
    pose proof (env_stable_F_dropout m0 (Dropout.p self)
                  (Dropout.training self) (Dropout.inplace self) w0)
      as (_ & _ & Hctx & _).
    destruct (F_dropout m0 (Dropout.p self) (Dropout.training self)
                (Dropout.inplace self) w0) as [r1 w1] eqn:EF.
    cbn [fst snd] in *. subst r1.
    rewrite (bindM_run _ _ _ _ _ EF).
    assert (Hn1 : (0 < dap.size (dap_ctx w1))%nat) by (rewrite Hctx; exact Hn).
    destruct (scatter_run (dap_ctx w1) t1 d k sm Hn1 Hk) as (t2 & E2 & Hsh2 & Hre).
    { rewrite Hsh1, Hctx. reflexivity. }
    set (m2 := fresh (dom (heap w1))).
    set (w2 := set_heap (<[m2 := t2]> (heap w1)) w1).
    assert (Esc : dap_scatter m1 d w1 = (inr m2, w2)).
    { unfold dap_scatter.
      rewrite (bindM_run dap_context _ w1 w1 (dap_ctx w1) eq_refl).
      rewrite (bindM_run _ _ _ _ _ (deref_run _ _ _ Hm1)).
      rewrite E2. reflexivity. }
    rewrite (bindM_run _ _ _ _ _ Esc).
    assert (Hx2 : heap w2 !! x = Some tx).
    { cbn. rewrite lookup_insert_ne by (symmetry; eapply fresh_ne; eassumption).
      assumption. }
    assert (Hy2 : heap w2 !! y = Some ty).
    { cbn. rewrite lookup_insert_ne by (symmetry; eapply fresh_ne; eassumption).
      assumption. }
    assert (Hm2 : heap w2 !! m2 = Some t2) by apply lookup_insert_eq.
    rewrite <- Hsh2 in Hcol.
    destruct (Dropout_forward_tail x y m2 w2 tx ty t2 Hx2 Hm2 Hy2 Hsh Hcol)
      as (out & w3 & tout & E3 & Hout & Hshout & Hdata).
    exists out, w3, tout, t2, sm. rewrite Hsh2 in Hdata.
    repeat (split; [first [assumption|reflexivity]|]).
    split; [eapply mask_values_reindex; eassumption|]. assumption.
  - rewrite (bindM_run (retM sm) _ w w sm eq_refl).
    set (m0 := fresh (dom (heap w))).
    set (w0 := set_heap (<[m0 := mkTensor sm (fun _ => 1)]> (heap w)) w).
    rewrite (bindM_run (new_ones x sm) _ w w0 m0 eq_refl).
    assert (Hm0 : heap w0 !! m0 = Some (mkTensor sm (fun _ => 1)))
      by apply lookup_insert_eq.
    assert (Hx0 : heap w0 !! x = Some tx).
    { cbn. rewrite lookup_insert_ne by (symmetry; eapply fresh_ne; eassumption).
      assumption. }
    assert (Hy0 : heap w0 !! y = Some ty).
    { cbn. rewrite lookup_insert_ne by (symmetry; eapply fresh_ne; eassumption).
      assumption. }
    destruct (F_dropout_run m0 (Dropout.p self) (Dropout.training self)
                (Dropout.inplace self) w0 sm Hp Hm0)
      as (m1 & t1 & E1 & Hm1 & Hsh1 & Hval1).
    pose proof (keeps_F_dropout x tx m0 (Dropout.p self)
                  (Dropout.training self) (Dropout.inplace self)
                  (not_eq_sym (fresh_ne _ _ _ Hx)) w0 Hx0) as [Hx1 _].
    pose proof (keeps_F_dropout y ty m0 (Dropout.p self)
                  (Dropout.training self) (Dropout.inplace self)
                  (not_eq_sym (fresh_ne _ _ _ Hy)) w0 Hy0) as [Hy1 _].
    destruct (F_dropout m0 (Dropout.p self) (Dropout.training self)
                (Dropout.inplace self) w0) as [r1 w1] eqn:EF.
    cbn [fst snd] in *. subst r1.
    rewrite (bindM_run _ _ _ _ _ EF).
    rewrite (bindM_run (retM m1) _ w1 w1 m1 eq_refl).
    rewrite <- Hsh1 in Hcol.
    destruct (Dropout_forward_tail x y m1 w1 tx ty t1 Hx1 Hm1 Hy1 Hsh Hcol)
      as (out & w3 & tout & E3 & Hout & Hshout & Hdata).
    exists out, w3, tout, t1, sm. rewrite Hsh1 in Hdata.
    repeat (split; [first [assumption|reflexivity]|]). assumption.
Qed.

End DropoutRuns.

(** ** Claims about shared-mask dropout *)

Section DropoutClaims.
Import DropoutExample.

Lemma example_rowwise_init : DropoutRowwise.__init__ (1 / 2) = ok rowwise.
Proof.
  unfold DropoutRowwise.__init__, Dropout.__init__.
  destruct (Rle_dec 0 (1 / 2)); [|lra].
  destruct (Rle_dec (1 / 2) 1); [|lra].
  reflexivity.
Defined.

Lemma example_world_x : heap world !! x = Some tx.
Proof. reflexivity. Defined.

Lemma example_world_y : heap world !! y = Some ty.
Proof. reflexivity. Defined.

(** C8 (as stated) fails twice: the assertion error for [p = 2] carries no
    value, and a probability inside [0, 1] does not make construction succeed
    when [share_dim] is neither an int nor a tuple. *)
Lemma dropout_init_error_is_bare :
  Dropout.__init__ 2 (Dropout.PyInt (-3)) false = raise (AssertionError []) /\
  0 <= 1 / 2 <= 1 /\
  Dropout.__init__ (1 / 2) Dropout.PyOther false = raise (AssertionError []).
Proof.
  unfold Dropout.__init__. split; [|split].
  - destruct (Rle_dec 0 2); [|lra]. destruct (Rle_dec 2 1); [lra|]. reflexivity.
  - lra.
  - destruct (Rle_dec 0 (1 / 2)); [|lra].
    destruct (Rle_dec (1 / 2) 1); [|lra]. reflexivity.
Qed.

(** C8 (amended).  [Dropout.__init__] succeeds exactly when [0 <= p <= 1] and
    [share_dim] is an int or a tuple, and then stores its arguments (an int
    as a one-element tuple) in a module in training mode; otherwise it fails
    at once with an [AssertionError] that has no message. *)
Theorem dropout_init_outcome (p : R) (sd : Dropout.share_dim_arg) (ip : bool) :
  match Dropout.__init__ p sd ip with
  | inr self =>
      0 <= p <= 1 /\ sd <> Dropout.PyOther /\
      Dropout.p self = p /\ Dropout.inplace self = ip /\
      Dropout.training self = true /\
      Dropout.share_dim self =
        match sd with
        | Dropout.PyInt d => [d]
        | Dropout.PyTuple ds => ds
        | Dropout.PyOther => []
        end
  | inl e =>
      e = AssertionError [] /\ (~ (0 <= p <= 1) \/ sd = Dropout.PyOther)
  end.
Proof.
  unfold Dropout.__init__.
  destruct (Rle_dec 0 p) as [H0|H0].
  2:{ split; [reflexivity|]. left. lra. }
  destruct (Rle_dec p 1) as [H1|H1].
  2:{ split; [reflexivity|]. left. lra. }
  destruct sd; cbn.
  - repeat split; try assumption; discriminate.
  - repeat split; try assumption; discriminate.
  - split; [reflexivity|]. right. reflexivity.
Qed.

(** C4 (as stated) fails: in inference mode [DropoutRowwise] raises
    [IndexError] on inputs of rank 2, whose shape has no axis -3. *)
Lemma dropout_inference_bad_axis :
  DropoutRowwise.__init__ (1 / 2) = ok rowwise /\
  heap world2 !! x = Some tx2 /\ heap world2 !! y = Some ty2 /\
  shape ty2 = shape tx2 /\
  Dropout.training (Dropout.eval rowwise) = false /\
  Dropout.forward (Dropout.eval rowwise) x y None world2 =
  (inl IndexError, world2).
Proof.
  split; [exact example_rowwise_init|].
  repeat split; reflexivity.
Qed.

(** C4 (amended).  In inference mode, for [p] in [0, 1], inputs of one shape
    and shared axes (and sharded axis, if any) that are axes of [x],
    [Dropout.forward] returns a new tensor equal to [add_output_to + x]; the
    value does not depend on [p], on the shared axes or on the generator. *)
Theorem dropout_inference_is_add (self : Dropout.t) (x y : loc)
    (dd : option Z) (w : World) (tx ty : Tensor) :
  Dropout.training self = false ->
  0 <= Dropout.p self <= 1 ->
  heap w !! x = Some tx -> heap w !! y = Some ty -> shape ty = shape tx ->
  Forall (valid_axis (length (shape tx))) (Dropout.share_dim self) ->
  dap_dim_ok w (length (shape tx)) dd ->
  exists out w' tout,
    Dropout.forward self x y dd w = (inr out, w') /\
    heap w' !! out = Some tout /\
    shape tout = shape tx /\
    forall idx, valid_index (shape tx) idx ->
      data tout idx = data ty idx + data tx idx.
Proof.
  intros Htr Hp Hx Hy Hsh Hds Hdd.
  destruct (Dropout_forward_run self x y dd w tx ty Hx Hy Hsh Hp Hds Hdd)
    as (out & w' & tout & tmask & sm & E & Hout & Hshape & _ & _ & Hval & Hdata).
  exists out, w', tout. repeat (split; [assumption|]).
  intros idx Hidx. rewrite (Hdata idx Hidx).
  specialize (Hval (bcast_index sm idx)). rewrite Htr in Hval.
  rewrite Hval. ring.
Qed.

Lemma dropout_inference_is_add_witness :
  exists out w' tout,
    Dropout.forward (Dropout.eval rowwise) x y None world = (inr out, w') /\
    heap w' !! out = Some tout /\
    shape tout = shape tx /\
    forall idx, valid_index (shape tx) idx ->
      data tout idx = data ty idx + data tx idx.
Proof.
  apply (dropout_inference_is_add (Dropout.eval rowwise) x y None world tx ty).
  - reflexivity.
  - cbn. lra.
  - reflexivity.
  - reflexivity.
  - reflexivity.
  - repeat constructor; cbn; lia.
  - exact I.
Defined.


Lemma rowwise_init_inv (p0 : R) (self : Dropout.t) :
  DropoutRowwise.__init__ p0 = ok self ->
  0 <= p0 <= 1 /\ self = Dropout.mk p0 [(-3)%Z] false true.
Proof.
  unfold DropoutRowwise.__init__, Dropout.__init__.
  destruct (Rle_dec 0 p0); [|discriminate].
  destruct (Rle_dec p0 1); [|discriminate].
  intros [= <-]. split; [lra|reflexivity].
Qed.

(** C6.  In training mode, on an input [x] of rank 4, the mask that
    [DropoutRowwise] applies does not depend on the index along axis -3:
    the result is [add_output_to + x * mask] with one mask entry, 0 or
    [1/(1-p)], for all the entries of [x] that differ only in that index. *)
Theorem dropout_rowwise_mask_shared (p0 : R) (self : Dropout.t)
    (x y : loc) (dd : option Z) (w : World) (tx ty : Tensor)
    (B S N C : nat) :
  DropoutRowwise.__init__ p0 = ok self ->
  heap w !! x = Some tx -> heap w !! y = Some ty ->
  shape tx = [B; S; N; C] -> shape ty = shape tx ->
  dap_dim_ok w 4 dd ->
  Dropout.training self = true /\
  exists out w' tout (mask : nat -> nat -> nat -> R),
    Dropout.forward self x y dd w = (inr out, w') /\
    heap w' !! out = Some tout /\
    shape tout = [B; S; N; C] /\
    (forall b j c, mask b j c = 0 \/ mask b j c = 1 / (1 - p0)) /\
    forall b i j c,
      (b < B)%nat -> (i < S)%nat -> (j < N)%nat -> (c < C)%nat ->
      data tout [b; i; j; c] =
      data ty [b; i; j; c] + data tx [b; i; j; c] * mask b j c.
Proof.
  intros Hinit Hx Hy Hshx Hshy Hdd.
  destruct (rowwise_init_inv p0 self Hinit) as [Hp ->].
  split; [reflexivity|].
  destruct (Dropout_forward_run (Dropout.mk p0 [(-3)%Z] false true)
              x y dd w tx ty Hx Hy Hshy) as
    (out & w' & tout & tmask & sm & E & Hout & Hshape & Hsm & _ & Hval & Hdata).
  { exact Hp. }
  { rewrite Hshx. repeat constructor; cbn; lia. }
  { rewrite Hshx. exact Hdd. }
  rewrite Hshx in Hsm. cbn in Hsm. injection Hsm as <-.
  exists out, w', tout,
    (fun b j c => data tmask (bcast_index [B; 1; N; C]%nat [b; 0; j; c]%nat)).
  split; [assumption|]. split; [assumption|]. split; [congruence|].
  split.
  - intros b j c. apply (Hval _).
  - intros b i j c Hb Hi Hj Hc.
    rewrite Hdata by (rewrite Hshx; repeat constructor; assumption).
    reflexivity.
Qed.

Lemma dropout_rowwise_mask_shared_witness :
  Dropout.training rowwise = true /\
  exists out w' tout (mask : nat -> nat -> nat -> R),
    Dropout.forward rowwise x y None world = (inr out, w') /\
    heap w' !! out = Some tout /\
    shape tout = [2; 2; 2; 1]%nat /\
    (forall b j c, mask b j c = 0 \/ mask b j c = 1 / (1 - 1 / 2)) /\
    forall b i j c,
      (b < 2)%nat -> (i < 2)%nat -> (j < 2)%nat -> (c < 1)%nat ->
      data tout [b; i; j; c] =
      data ty [b; i; j; c] + data tx [b; i; j; c] * mask b j c.
Proof.
  apply (dropout_rowwise_mask_shared (1 / 2) rowwise x y None world tx ty
           2 2 2 1).
  - exact example_rowwise_init.
  - reflexivity.
  - reflexivity.
  - reflexivity.
  - reflexivity.
  - exact I.
Defined.

(** C9.  Whatever the [inplace] flag, the mode, the arguments and the
    outcome, the tensor objects passed as [x] and [add_output_to] hold after
    the call what they held before it. *)
Theorem dropout_forward_keeps_inputs (self : Dropout.t) (x y : loc)
    (dd : option Z) (w : World) (tx ty : Tensor) :
  heap w !! x = Some tx -> heap w !! y = Some ty ->
  heap (Dropout.forward self x y dd w).2 !! x = Some tx /\
  heap (Dropout.forward self x y dd w).2 !! y = Some ty.
Proof.
  intros Hx Hy. split.
  - apply (keeps_Dropout_forward x tx self x y dd w Hx).
  - apply (keeps_Dropout_forward y ty self x y dd w Hy).
Qed.

Lemma dropout_forward_keeps_inputs_witness :
  heap (Dropout.forward (Dropout.mk (1 / 2) [(-3)%Z] true true)
          x y None world).2 !! x = Some tx /\
  heap (Dropout.forward (Dropout.mk (1 / 2) [(-3)%Z] true true)
          x y None world).2 !! y = Some ty.
Proof.
  exact (dropout_forward_keeps_inputs (Dropout.mk (1 / 2) [(-3)%Z] true true)
           x y None world tx ty example_world_x example_world_y).
Defined.

End DropoutClaims.

(** ** The autograd mode and the recomputation wrapper *)

Section GradIndep.

Lemma set_grad_enabled_same (w : World) :
  set_grad_enabled (grad_enabled w) w = w.
Proof. destruct w. reflexivity. Qed.

Lemma grad_indep_ret {A} (x : A) : grad_indep (retM x).
Proof. intros b w. reflexivity. Qed.

Lemma grad_indep_raise {A} (e : exn) : grad_indep (@raiseM A e).
Proof. intros b w. reflexivity. Qed.

Lemma grad_indep_liftR {A} (r : Result A) : grad_indep (liftR r).
Proof. intros b w. reflexivity. Qed.

Lemma grad_indep_bind {A B} (m : M A) (k : A -> M B) :
  grad_indep m -> (forall x, grad_indep (k x)) -> grad_indep (bindM m k).
Proof.
  intros Hm Hk b w. unfold bindM. rewrite (Hm b w).
  destruct (m w) as [[e|x] w1]; [reflexivity|].
  apply Hk.
Qed.

Lemma grad_indep_deref (l : loc) : grad_indep (deref l).
Proof.
  intros b w. unfold deref. cbn [heap set_grad_enabled].
  destruct (heap w !! l); reflexivity.
Qed.

Lemma grad_indep_alloc (t : Tensor) : grad_indep (alloc t).
Proof. intros b w. reflexivity. Qed.

Lemma grad_indep_store (l : loc) (t : Tensor) : grad_indep (store l t).
Proof. intros b w. reflexivity. Qed.

Lemma grad_indep_bernoulli_draw : grad_indep bernoulli_draw.
Proof. intros b w. reflexivity. Qed.

Lemma grad_indep_dap_context : grad_indep dap_context.
Proof. intros b w. reflexivity. Qed.

Lemma grad_indep_dap_size : grad_indep dap_size.
Proof. intros b w. reflexivity. Qed.

Lemma grad_indep_dap_is_enabled : grad_indep dap_is_enabled.
Proof. intros b w. reflexivity. Qed.

Lemma grad_indep_inductor_hopper : grad_indep inductor_is_enabled_on_hopper.
Proof. intros b w. reflexivity. Qed.

Lemma grad_indep_inductor_ampere : grad_indep inductor_is_enabled_on_ampere.
Proof. intros b w. reflexivity. Qed.

End GradIndep.

Create HintDb grad_indep.
#[export] Hint Resolve grad_indep_ret grad_indep_raise grad_indep_liftR
  grad_indep_deref grad_indep_alloc grad_indep_store
  grad_indep_bernoulli_draw grad_indep_dap_context grad_indep_dap_size
  grad_indep_dap_is_enabled grad_indep_inductor_hopper
  grad_indep_inductor_ampere : grad_indep.

(** Solves [grad_indep] goals by following the structure of the program. *)
Ltac grad_indep_tac :=
  repeat first
    [ progress intros
    | solve [auto with grad_indep]
    | apply grad_indep_bind
    | match goal with
      | |- grad_indep (if ?b then _ else _) => destruct b
      | |- grad_indep (match ?o with Some _ => _ | None => _ end) => destruct o
      | |- grad_indep (match ?x with (_, _) => _ end) => destruct x
      | |- grad_indep (let '(_, _) := ?x in _) => destruct x
      end ].

Section GradIndepOps.

Lemma grad_indep_dap_scatter (t : loc) (d : Z) : grad_indep (dap_scatter t d).
Proof. unfold dap_scatter. grad_indep_tac. Qed.

Lemma grad_indep_dap_gather (t : loc) (d : Z) : grad_indep (dap_gather t d).
Proof. unfold dap_gather. grad_indep_tac. Qed.

Lemma grad_indep_dap_row_to_col (t : loc) : grad_indep (dap_row_to_col t).
Proof. unfold dap_row_to_col. grad_indep_tac. Qed.

Lemma grad_indep_F_dropout (input : loc) (p : R) (tr ip : bool) :
  grad_indep (F_dropout input p tr ip).
Proof.
  unfold F_dropout.
  destruct (Rlt_dec p 0), (Rlt_dec 1 p), (Req_dec_T p 0), (Req_dec_T p 1);
    grad_indep_tac.
Qed.

Lemma grad_indep_mul_add (x m y : loc) : grad_indep (Dropout._mul_add x m y).
Proof.
  unfold Dropout._mul_add, Dropout._mul_add_jit, Dropout._mul_add_eager.
  grad_indep_tac.
Qed.

Lemma grad_indep_Dropout_forward (self : Dropout.t) (x y : loc)
    (dd : option Z) :
  grad_indep (Dropout.forward self x y dd).
Proof.
  unfold Dropout.forward, new_ones.
  pose proof grad_indep_F_dropout. pose proof grad_indep_mul_add.
  pose proof grad_indep_dap_scatter.
  grad_indep_tac.
Qed.

Lemma grad_indep_block_forward (self : EvoformerBlock.t)
    (m z msa_mask pair_mask : loc) :
  grad_indep (EvoformerBlock.forward self m z msa_mask pair_mask).
Proof.
  unfold EvoformerBlock.forward, EvoformerBlock.call_msa_att_row,
    EvoformerBlock.call_msa_att_col, EvoformerBlock.call_core.
  pose proof grad_indep_Dropout_forward. pose proof grad_indep_dap_scatter.
  pose proof grad_indep_dap_row_to_col.
  grad_indep_tac.
Qed.

Lemma grad_indep_for_blocks {B} (body : B -> loc -> loc -> M (loc * loc))
    (blocks : list B) :
  (forall block m z, grad_indep (body block m z)) ->
  forall m z, grad_indep (EvoformerStack.for_blocks body blocks m z).
Proof.
  intros Hbody. induction blocks as [|block rest IH]; intros m z; cbn.
  - apply grad_indep_ret.
  - apply grad_indep_bind; [apply Hbody|]. intros [m' z']. apply IH.
Qed.

Lemma grad_indep_dap_both (f : loc -> Z -> M loc) (m z : loc) :
  (forall l d, grad_indep (f l d)) ->
  grad_indep (EvoformerStack.dap_both f m z).
Proof. intros Hf. unfold EvoformerStack.dap_both. grad_indep_tac. Qed.

Lemma grad_indep_forward_blocks (self : EvoformerStack.t)
    (m z msa_mask pair_mask : loc) :
  grad_indep (EvoformerStack._forward_blocks self m z msa_mask pair_mask).
Proof.
  unfold EvoformerStack._forward_blocks.
  apply grad_indep_bind.
  { apply grad_indep_dap_both. apply grad_indep_dap_scatter. }
  intros [m1 z1]. apply grad_indep_bind.
  { apply grad_indep_for_blocks. intros. apply grad_indep_block_forward. }
  intros [m2 z2]. apply grad_indep_bind.
  { apply grad_indep_dap_both. apply grad_indep_dap_gather. }
  intros [m3 z3]. apply grad_indep_ret.
Qed.

(** Recording of gradients is switched off and back on around a function
    that does not look at the mode: nothing changes. *)
Lemma gradient_checkpointing_fn_id {A} (f : loc -> loc -> M A) (m z : loc)
    (w : World) :
  grad_indep (f m z) ->
  EvoformerStack.gradient_checkpointing_fn f m z w = f m z w.
Proof.
  intros Hm. unfold EvoformerStack.gradient_checkpointing_fn.
  rewrite (Hm false w).
  pose proof (Hm (grad_enabled w) w) as Hsame.
  rewrite set_grad_enabled_same in Hsame.
  destruct (f m z w) as [r w'].
  injection Hsame as Hw'. rewrite Hw' at 2.
  reflexivity.
Qed.

Lemma for_blocks_checkpointed (blocks : list EvoformerBlock.t)
    (msa_mask pair_mask m z : loc) (w : World) :
  EvoformerStack.for_blocks
    (fun block m z => EvoformerStack.gradient_checkpointing_fn block m z)
    (List.map
       (fun block m z => EvoformerBlock.forward block m z msa_mask pair_mask)
       blocks) m z w =
  EvoformerStack.for_blocks
    (fun block m z => EvoformerBlock.forward block m z msa_mask pair_mask)
    blocks m z w.
Proof.
  revert m z w. induction blocks as [|block rest IH]; intros m z w; cbn.
  - reflexivity.
  - unfold bindM.
    rewrite gradient_checkpointing_fn_id by apply grad_indep_block_forward.
    destruct (EvoformerBlock.forward block m z msa_mask pair_mask w)
      as [[e|[m' z']] w1]; [reflexivity|].
    apply IH.
Qed.

Lemma bindM_ext {A B} (m : M A) (k1 k2 : A -> M B) (w : World) :
  (forall x w', k1 x w' = k2 x w') -> bindM m k1 w = bindM m k2 w.
Proof.
  intros Hk. unfold bindM. destruct (m w) as [[e|x] w']; [reflexivity|apply Hk].
Qed.

Lemma bindM_cong {A B} (m1 m2 : M A) (k : A -> M B) (w : World) :
  m1 w = m2 w -> bindM m1 k w = bindM m2 k w.
Proof. intros Hm. unfold bindM. rewrite Hm. reflexivity. Qed.

Lemma forward_blocks_checkpointed (self : EvoformerStack.t)
    (m z msa_mask pair_mask : loc) (w : World) :
  EvoformerStack._forward_blocks_with_gradient_checkpointing
    self m z msa_mask pair_mask w =
  EvoformerStack._forward_blocks self m z msa_mask pair_mask w.
Proof.
  unfold EvoformerStack._forward_blocks_with_gradient_checkpointing,
    EvoformerStack._forward_blocks. cbv zeta.
  apply bindM_ext. intros [m1 z1] w1.
  apply bindM_cong. apply for_blocks_checkpointed.
Qed.

End GradIndepOps.

(** ** Running the Evoformer block *)

Section Runs.

Lemma extends_refl (w : World) : extends w w.
Proof. split; auto. Qed.

Lemma extends_trans (w1 w2 w3 : World) :
  extends w1 w2 -> extends w2 w3 -> extends w1 w3.
Proof.
  intros [H1 C1] [H2 C2]. split; [auto|congruence].
Qed.

Lemma extends_alloc (w : World) (t : Tensor) :
  extends w (set_heap (<[fresh (dom (heap w)) := t]> (heap w)) w).
Proof.
  split; [|reflexivity]. intros l t0 Hl. cbn.
  rewrite lookup_insert_ne by (symmetry; eapply fresh_ne; eassumption).
  assumption.
Qed.

Lemma alloc_run (w : World) (t : Tensor) :
  exists l w', alloc t w = (inr l, w') /\ heap w' !! l = Some t /\ extends w w'.
Proof.
  eexists _, _. split; [reflexivity|]. split; [apply lookup_insert_eq|].
  apply extends_alloc.
Qed.

Lemma dap_scatter_run (w : World) (l : loc) (t r : Tensor) (d : Z) :
  heap w !! l = Some t -> dap.scatter (dap_ctx w) t d = ok r ->
  exists l' w', dap_scatter l d w = (inr l', w') /\
                heap w' !! l' = Some r /\ extends w w'.
Proof.
  intros Hl Hr. unfold dap_scatter.
  rewrite (bindM_run dap_context _ w w (dap_ctx w) eq_refl).
  rewrite (bindM_run _ _ _ _ _ (deref_run _ _ _ Hl)).
  rewrite Hr. rewrite (bindM_run (liftR (ok r)) _ w w r eq_refl).
  apply alloc_run.
Qed.

Lemma dap_row_to_col_run (w : World) (l : loc) (t : Tensor) :
  heap w !! l = Some t ->
  exists l' w', dap_row_to_col l w = (inr l', w') /\
                heap w' !! l' = Some (dap.row_to_col (dap_ctx w) t) /\
                extends w w'.
Proof.
  intros Hl. unfold dap_row_to_col.
  rewrite (bindM_run dap_context _ w w (dap_ctx w) eq_refl).
  rewrite (bindM_run _ _ _ _ _ (deref_run _ _ _ Hl)).
  apply alloc_run.
Qed.

Lemma call_msa_att_row_run (self : EvoformerBlock.t) (w : World)
    (m z mask : loc) (tm tz tmask : Tensor) :
  heap w !! m = Some tm -> heap w !! z = Some tz ->
  heap w !! mask = Some tmask ->
  exists l w', EvoformerBlock.call_msa_att_row self m z mask w = (inr l, w') /\
               heap w' !! l = Some (EvoformerBlock.msa_att_row self tm tz tmask) /\
               extends w w'.
Proof.
  intros Hm Hz Hmask. unfold EvoformerBlock.call_msa_att_row.
  rewrite (bindM_run _ _ _ _ _ (deref_run _ _ _ Hm)).
  rewrite (bindM_run _ _ _ _ _ (deref_run _ _ _ Hz)).
  rewrite (bindM_run _ _ _ _ _ (deref_run _ _ _ Hmask)).
  apply alloc_run.
Qed.

Lemma call_msa_att_col_run (self : EvoformerBlock.t) (w : World)
    (m mask : loc) (tm tmask : Tensor) :
  heap w !! m = Some tm -> heap w !! mask = Some tmask ->
  exists l w', EvoformerBlock.call_msa_att_col self m mask w = (inr l, w') /\
               heap w' !! l = Some (EvoformerBlock.msa_att_col self tm tmask) /\
               extends w w'.
Proof.
  intros Hm Hmask. unfold EvoformerBlock.call_msa_att_col.
  rewrite (bindM_run _ _ _ _ _ (deref_run _ _ _ Hm)).
  rewrite (bindM_run _ _ _ _ _ (deref_run _ _ _ Hmask)).
  apply alloc_run.
Qed.

Lemma call_core_run (self : EvoformerBlock.t) (w : World)
    (m z msa_mask pair_mask : loc) (tm tz tmsa tpair : Tensor) :
  heap w !! m = Some tm -> heap w !! z = Some tz ->
  heap w !! msa_mask = Some tmsa -> heap w !! pair_mask = Some tpair ->
  exists m' z' w',
    EvoformerBlock.call_core self m z msa_mask pair_mask w = (inr (m', z'), w') /\
    heap w' !! m' = Some (EvoformerBlock.core self tm tz tmsa tpair).1 /\
    heap w' !! z' = Some (EvoformerBlock.core self tm tz tmsa tpair).2 /\
    extends w w'.
Proof.
  intros Hm Hz Hmsa Hpair. unfold EvoformerBlock.call_core.
  rewrite (bindM_run _ _ _ _ _ (deref_run _ _ _ Hm)).
  rewrite (bindM_run _ _ _ _ _ (deref_run _ _ _ Hz)).
  rewrite (bindM_run _ _ _ _ _ (deref_run _ _ _ Hmsa)).
  rewrite (bindM_run _ _ _ _ _ (deref_run _ _ _ Hpair)).
  destruct (EvoformerBlock.core self tm tz tmsa tpair) as [tm' tz'].
  destruct (alloc_run w tm') as (m' & w1 & E1 & Hm' & Hext1).
  rewrite (bindM_run _ _ _ _ _ E1).
  destruct (alloc_run w1 tz') as (z' & w2 & E2 & Hz' & Hext2).
  rewrite (bindM_run _ _ _ _ _ E2).
  exists m', z', w2. split; [reflexivity|].
  split; [apply Hext2; assumption|]. split; [assumption|].
  eapply extends_trans; eassumption.
Qed.

Lemma Dropout_forward_sum (self : Dropout.t) (x y : loc) (w : World)
    (tx ty : Tensor) :
  heap w !! x = Some tx -> heap w !! y = Some ty -> shape ty = shape tx ->
  0 <= Dropout.p self <= 1 ->
  Forall (valid_axis (length (shape tx))) (Dropout.share_dim self) ->
  exists out w' tout,
    Dropout.forward self x y None w = (inr out, w') /\
    heap w' !! out = Some tout /\
    is_dropout_sum self tx ty tout /\ extends w w'.
Proof.
  intros Hx Hy Hsh Hp Hds.
  destruct (Dropout_forward_run self x y None w tx ty Hx Hy Hsh Hp Hds I)
    as (out & w' & tout & tmask & sm & E & Hout & Hshape & Hsm & Hshm & Hval & Hdata).
  exists out, w', tout. split; [assumption|]. split; [assumption|].
  split.
  { split; [assumption|]. exists tmask, sm. auto. }
  split.
  - intros l t Hl.
    pose proof (keeps_Dropout_forward l t self x y None w Hl) as [Hk _].
    rewrite E in Hk. exact Hk.
  - pose proof (env_stable_Dropout_forward self x y None w) as (_ & _ & Hc & _).
    rewrite E in Hc. exact Hc.
Qed.

End Runs.

Section BlockRun.

(** The data flow of [EvoformerBlock.forward]. *)
Lemma block_forward_run (self : EvoformerBlock.t)
    (m z msa_mask pair_mask : loc) (w : World)
    (tm tz tmsa tpair row col : Tensor) :
  heap w !! m = Some tm -> heap w !! z = Some tz ->
  heap w !! msa_mask = Some tmsa -> heap w !! pair_mask = Some tpair ->
  block_masks (dap_ctx w) tmsa row col ->
  shape tm = shape (EvoformerBlock.msa_att_row self tm tz row) ->
  0 <= Dropout.p (EvoformerBlock.msa_dropout_rowwise self) <= 1 ->
  Forall (valid_axis (length (shape (EvoformerBlock.msa_att_row self tm tz row))))
    (Dropout.share_dim (EvoformerBlock.msa_dropout_rowwise self)) ->
  exists m' z' w' t1,
    EvoformerBlock.forward self m z msa_mask pair_mask w = (inr (m', z'), w') /\
    is_dropout_sum (EvoformerBlock.msa_dropout_rowwise self)
      (EvoformerBlock.msa_att_row self tm tz row) tm t1 /\
    heap w' !! m' =
      Some (EvoformerBlock.core self
              (EvoformerBlock.msa_att_col self
                 (block_relayout (dap_ctx w) t1) col) tz tmsa tpair).1 /\
    heap w' !! z' =
      Some (EvoformerBlock.core self
              (EvoformerBlock.msa_att_col self
                 (block_relayout (dap_ctx w) t1) col) tz tmsa tpair).2 /\
    extends w w'.
Proof.
  intros Hm Hz Hmsa Hpair Hmasks Hshape Hp Hds.
  unfold EvoformerBlock.forward.
  rewrite (bindM_run dap_is_enabled _ w w (dap.is_enabled (dap_ctx w)) eq_refl).
  unfold block_masks, block_relayout in *.
  destruct (dap.is_enabled (dap_ctx w)) eqn:Hen.
  - destruct Hmasks as [Hrow Hcol].
    destruct (dap_scatter_run w msa_mask tmsa row 1 Hmsa Hrow)
      as (lrow & w1 & E1 & Hlrow & X1).
    assert (Hc1 : dap_ctx w1 = dap_ctx w) by apply X1.
    destruct (dap_scatter_run w1 msa_mask tmsa col 2) as (lcol & w2 & E2 & Hlcol & X2).
    { apply X1; assumption. } { rewrite Hc1. assumption. }
    pose proof (extends_trans _ _ _ X1 X2) as X02.
    destruct (call_msa_att_row_run self w2 m z lrow tm tz row)
      as (latt & w3 & E3 & Hlatt & X3).
    { apply X02; assumption. } { apply X02; assumption. } { apply X2; assumption. }
    pose proof (extends_trans _ _ _ X02 X3) as X03.
    destruct (Dropout_forward_sum (EvoformerBlock.msa_dropout_rowwise self)
                latt m w3 _ tm Hlatt) as (l1 & w4 & t1 & E4 & Hl1 & Hsum & X4);
      [apply X03; assumption|assumption|assumption|assumption|].
    pose proof (extends_trans _ _ _ X03 X4) as X04.
    destruct (dap_row_to_col_run w4 l1 t1 Hl1) as (l1' & w5 & E5 & Hl1' & X5).
    pose proof (extends_trans _ _ _ X04 X5) as X05.
    destruct (call_msa_att_col_run self w5 l1' lcol _ col Hl1')
      as (l2 & w6 & E6 & Hl2 & X6).
    { apply X5, X4, X3. assumption. }
    pose proof (extends_trans _ _ _ X05 X6) as X06.
    destruct (call_core_run self w6 l2 z msa_mask pair_mask _ tz tmsa tpair Hl2)
      as (m' & z' & w7 & E7 & Hm' & Hz' & X7);
      [apply X06; assumption|apply X06; assumption|apply X06; assumption|].
    assert (Hc4 : dap_ctx w4 = dap_ctx w) by apply X04.
    rewrite Hc4 in *.
    exists m', z', w7, t1. split.
    + set (k := fun mm : loc =>
                  do '(m0, z0) <- EvoformerBlock.call_core self mm z msa_mask pair_mask;
                  retM (m0, z0)).
      change (bindM
                (do msa_mask_row <- dap_scatter msa_mask 1;
                 do msa_mask_col <- dap_scatter msa_mask 2;
                 do att <- EvoformerBlock.call_msa_att_row self m z msa_mask_row;
                 do m0 <- Dropout.forward (EvoformerBlock.msa_dropout_rowwise self)
                           att m None;
                 do m1 <- dap_row_to_col m0;
                 EvoformerBlock.call_msa_att_col self m1 msa_mask_col) k w =
              (inr (m', z'), w7)).
      unfold bindM at 1.
      rewrite (bindM_run _ _ _ _ _ E1), (bindM_run _ _ _ _ _ E2),
        (bindM_run _ _ _ _ _ E3), (bindM_run _ _ _ _ _ E4),
        (bindM_run _ _ _ _ _ E5), E6.
      unfold k. rewrite (bindM_run _ _ _ _ _ E7). reflexivity.
    + split; [assumption|]. split; [assumption|]. split; [assumption|].
      eapply extends_trans; eassumption.
  - destruct Hmasks as [-> ->].
    destruct (call_msa_att_row_run self w m z msa_mask tm tz tmsa Hm Hz Hmsa)
      as (latt & w3 & E3 & Hlatt & X3).
    destruct (Dropout_forward_sum (EvoformerBlock.msa_dropout_rowwise self)
                latt m w3 _ tm Hlatt) as (l1 & w4 & t1 & E4 & Hl1 & Hsum & X4);
      [apply X3; assumption|assumption|assumption|assumption|].
    pose proof (extends_trans _ _ _ X3 X4) as X04.
    destruct (call_msa_att_col_run self w4 l1 msa_mask _ tmsa Hl1)
      as (l2 & w6 & E6 & Hl2 & X6).
    { apply X04. assumption. }
    pose proof (extends_trans _ _ _ X04 X6) as X06.
    destruct (call_core_run self w6 l2 z msa_mask pair_mask _ tz tmsa tpair Hl2)
      as (m' & z' & w7 & E7 & Hm' & Hz' & X7);
      [apply X06; assumption|apply X06; assumption|apply X06; assumption|].
    exists m', z', w7, t1. split.
    + set (k := fun mm : loc =>
                  do '(m0, z0) <- EvoformerBlock.call_core self mm z msa_mask pair_mask;
                  retM (m0, z0)).
      change (bindM
                (do att <- EvoformerBlock.call_msa_att_row self m z msa_mask;
                 do m0 <- Dropout.forward (EvoformerBlock.msa_dropout_rowwise self)
                           att m None;
                 EvoformerBlock.call_msa_att_col self m0 msa_mask) k w =
              (inr (m', z'), w7)).
      unfold bindM at 1.
      rewrite (bindM_run _ _ _ _ _ E3), (bindM_run _ _ _ _ _ E4), E6.
      unfold k. rewrite (bindM_run _ _ _ _ _ E7). reflexivity.
    + split; [assumption|]. split; [assumption|]. split; [assumption|].
      eapply extends_trans; eassumption.
Qed.

End BlockRun.

(** ** Claims about the Evoformer block and stack *)

Section EvoformerClaims.

Lemma rowwise_dropout_sum (p0 : R) (ip tr : bool) (B S N C : nat)
    (tx ty tout : Tensor) :
  shape tx = [B; S; N; C] ->
  is_dropout_sum (Dropout.mk p0 [(-3)%Z] ip tr) tx ty tout ->
  is_rowwise_dropout_sum tr p0 B S N C tx ty tout.
Proof.
  intros Hshx [Hshape (tmask & sm & Hsm & _ & Hval & Hdata)].
  rewrite Hshx in Hsm. cbn in Hsm. injection Hsm as <-.
  split; [congruence|].
  exists (fun b j c => data tmask (bcast_index [B; 1; N; C]%nat [b; 0; j; c]%nat)).
  split.
  - intros b j c. apply (Hval _).
  - intros b i j c Hb Hi Hj Hc.
    rewrite Hdata by (rewrite Hshx; repeat constructor; assumption).
    reflexivity.
Qed.

Lemma block_init_inv row_att col_att core_fn (p0 : R) (self : EvoformerBlock.t) :
  EvoformerBlock.__init__ row_att col_att core_fn p0 = ok self ->
  0 <= p0 <= 1 /\
  self = EvoformerBlock.mk row_att col_att (Dropout.mk p0 [(-3)%Z] false true)
           core_fn.
Proof.
  unfold EvoformerBlock.__init__, DropoutRowwise.__init__, Dropout.__init__.
  destruct (Rle_dec 0 p0); [|discriminate].
  destruct (Rle_dec p0 1); [|discriminate].
  intros [= <-]. split; [lra|reflexivity].
Qed.

(** C5.  [EvoformerBlock.forward] of a block built by [__init__], in either
    mode, on an MSA representation of rank 4: the row attention of [m]
    biased by [z] is added into [m] through row-wise shared-mask dropout;
    column attention is applied to that sum (after the layout change, when
    the parallel service is active) and its result is the new [m], with no
    dropout; the core gets that [m], the input [z] and the two masks, and its
    two results are returned. *)
Theorem evoformer_block_forward_order
    (row_att : Tensor -> Tensor -> Tensor -> Tensor)
    (col_att : Tensor -> Tensor -> Tensor)
    (core_fn : Tensor -> Tensor -> Tensor -> Tensor -> Tensor * Tensor)
    (p0 : R) (self0 : EvoformerBlock.t) (mode : bool)
    (m z msa_mask pair_mask : loc) (w : World)
    (tm tz tmsa tpair row col : Tensor) (B S N C : nat) :
  EvoformerBlock.__init__ row_att col_att core_fn p0 = ok self0 ->
  heap w !! m = Some tm -> heap w !! z = Some tz ->
  heap w !! msa_mask = Some tmsa -> heap w !! pair_mask = Some tpair ->
  block_masks (dap_ctx w) tmsa row col ->
  shape tm = [B; S; N; C] ->
  shape (row_att tm tz row) = shape tm ->
  exists m' z' w' t1,
    EvoformerBlock.forward (EvoformerBlock.train mode self0)
      m z msa_mask pair_mask w = (inr (m', z'), w') /\
    is_rowwise_dropout_sum mode p0 B S N C (row_att tm tz row) tm t1 /\
    heap w' !! m' =
      Some (core_fn (col_att (block_relayout (dap_ctx w) t1) col)
              tz tmsa tpair).1 /\
    heap w' !! z' =
      Some (core_fn (col_att (block_relayout (dap_ctx w) t1) col)
              tz tmsa tpair).2.
Proof.
  intros Hinit Hm Hz Hmsa Hpair Hmasks Hshm Hshatt.
  destruct (block_init_inv _ _ _ _ _ Hinit) as [Hp ->].
  destruct (block_forward_run
              (EvoformerBlock.train mode
                 (EvoformerBlock.mk row_att col_att
                    (Dropout.mk p0 [(-3)%Z] false true) core_fn))
              m z msa_mask pair_mask w tm tz tmsa tpair row col
              Hm Hz Hmsa Hpair Hmasks)
    as (m' & z' & w' & t1 & E & Hsum & Hm' & Hz' & _).
  { cbn. congruence. }
  { cbn. exact Hp. }
  { cbn. rewrite Hshatt, Hshm. repeat constructor; cbn; lia. }
  exists m', z', w', t1. split; [exact E|].
  split; [|split; assumption].
  apply (rowwise_dropout_sum p0 false mode); [congruence|exact Hsum].
Qed.

Import DropoutExample EvoformerExample.

Lemma example_block_init :
  EvoformerBlock.__init__ (fun m _ _ => m) (fun m _ => m)
    (fun m z _ _ => (m, z)) (1 / 2) =
  ok (EvoformerBlock.mk (fun m _ _ => m) (fun m _ => m) rowwise
        (fun m z _ _ => (m, z))).
Proof.
  unfold EvoformerBlock.__init__. rewrite example_rowwise_init. reflexivity.
Defined.

Lemma evoformer_block_forward_order_witness :
  exists m' z' w' t1,
    EvoformerBlock.forward block m z msa_mask pair_mask world =
      (inr (m', z'), w') /\
    is_rowwise_dropout_sum false (1 / 2) 1 2 2 1 tm tm t1 /\
    heap w' !! m' = Some t1 /\ heap w' !! z' = Some tz.
Proof.
  exact (evoformer_block_forward_order
           (fun m _ _ => m) (fun m _ => m) (fun m z _ _ => (m, z)) (1 / 2)
           _ false m z msa_mask pair_mask world tm tz tmsa tpair tmsa tmsa
           1 2 2 1 example_block_init eq_refl eq_refl eq_refl eq_refl
           (conj eq_refl eq_refl) eq_refl eq_refl).
Defined.

(** C3 (as stated) fails: under [torch.no_grad()] the recomputation strategy
    stops at its assertion while the direct strategy returns. *)
Lemma evoformer_stack_checkpointing_needs_grad :
  grad_enabled world_no_grad = false /\
  EvoformerStack.forward stack m z msa_mask pair_mask true world_no_grad =
    (inl (AssertionError []), world_no_grad) /\
  exists r w',
    EvoformerStack.forward stack m z msa_mask pair_mask false world_no_grad =
      (inr r, w').
Proof.
  split; [reflexivity|]. split; [reflexivity|].
  destruct (block_forward_run block m z msa_mask pair_mask world_no_grad
              tm tz tmsa tpair tmsa tmsa)
    as (m' & z' & w' & t1 & E & Hsum & Hm' & Hz' & _ & Hctx);
    try reflexivity.
  { split; reflexivity. }
  { cbn. lra. }
  { repeat constructor; cbn; lia. }
  destruct Hsum as [Hsh1 _]. cbn in Hm', Hsh1.
  unfold EvoformerStack.forward, EvoformerStack._forward_blocks.
  assert (Eblocks :
    (do '(m0, z0) <- EvoformerStack.dap_both dap_scatter m z;
     do '(m1, z1) <-
       EvoformerStack.for_blocks
         (fun block m z => EvoformerBlock.forward block m z msa_mask pair_mask)
         (EvoformerStack.blocks stack) m0 z0;
     do '(m2, z2) <- EvoformerStack.dap_both dap_gather m1 z1;
     retM (m2, z2)) world_no_grad = (inr (m', z'), w')).
  { rewrite (bindM_run (EvoformerStack.dap_both dap_scatter m z) _
               world_no_grad world_no_grad (m, z) eq_refl).
    cbn [EvoformerStack.blocks stack EvoformerStack.for_blocks].
    assert (Eloop :
      (do '(m0, z0) <- EvoformerBlock.forward block m z msa_mask pair_mask;
       retM (m0, z0)) world_no_grad = (inr (m', z'), w')).
    { rewrite (bindM_run _ _ _ _ _ E). reflexivity. }
    rewrite (bindM_run _ _ _ _ _ Eloop).
    assert (Hen : dap.is_enabled (dap_ctx w') = false).
    { rewrite Hctx. reflexivity. }
    assert (Egather :
      EvoformerStack.dap_both dap_gather m' z' w' = (inr (m', z'), w')).
    { unfold EvoformerStack.dap_both.
      rewrite (bindM_run dap_is_enabled _ w' w' _ eq_refl), Hen.
      reflexivity. }
    rewrite (bindM_run _ _ _ _ _ Egather). reflexivity. }
  rewrite (bindM_run _ _ _ _ _ Eblocks).
  rewrite (bindM_run _ _ _ _ _ (deref_run _ _ _ Hm')).
  unfold select_first_row. rewrite Hsh1. cbn.
  eexists _, _. reflexivity.
Qed.

Lemma grad_indep_stack_forward_direct (self : EvoformerStack.t)
    (m z msa_mask pair_mask : loc) :
  grad_indep (EvoformerStack.forward self m z msa_mask pair_mask false).
Proof.
  unfold EvoformerStack.forward.
  pose proof grad_indep_forward_blocks.
  grad_indep_tac.
Qed.

(** C3 (amended).  With gradient recording enabled, [EvoformerStack.forward]
    with [gradient_checkpointing=True] has the same outcome as with
    [gradient_checkpointing=False] from the same inputs and the same state of
    the random generator: the same exception, or the same [(m, z, s)], and
    the same final state. *)
Theorem evoformer_stack_checkpointing_same (self : EvoformerStack.t)
    (m z msa_mask pair_mask : loc) (w : World) :
  grad_enabled w = true ->
  EvoformerStack.forward self m z msa_mask pair_mask true w =
  EvoformerStack.forward self m z msa_mask pair_mask false w.
Proof.
  intros Hgrad. unfold EvoformerStack.forward.
  apply bindM_cong.
  rewrite (bindM_run torch_is_grad_enabled _ w w (grad_enabled w) eq_refl).
  rewrite Hgrad.
  rewrite (bindM_run (py_assert true) _ w w tt eq_refl).
  apply forward_blocks_checkpointed.
Qed.

Lemma evoformer_stack_checkpointing_same_witness :
  EvoformerStack.forward stack m z msa_mask pair_mask true world =
  EvoformerStack.forward stack m z msa_mask pair_mask false world.
Proof.
  exact (evoformer_stack_checkpointing_same stack m z msa_mask pair_mask
           world eq_refl).
Defined.

(** C10.  With [gradient_checkpointing=True] and gradient recording
    disabled, [EvoformerStack.forward] fails on its assertion before it
    touches anything; with [gradient_checkpointing=False] the autograd mode
    is neither read nor changed. *)
Theorem evoformer_stack_grad_precondition (self : EvoformerStack.t)
    (m z msa_mask pair_mask : loc) (w : World) :
  EvoformerStack.forward self m z msa_mask pair_mask true
    (set_grad_enabled false w) =
    (inl (AssertionError []), set_grad_enabled false w) /\
  forall b,
    EvoformerStack.forward self m z msa_mask pair_mask false
      (set_grad_enabled b w) =
    (let '(r, w') := EvoformerStack.forward self m z msa_mask pair_mask false w
     in (r, set_grad_enabled b w')).
Proof.
  split.
  - reflexivity.
  - intros b. apply grad_indep_stack_forward_direct.
Qed.

End EvoformerClaims.

(** ** Further properties of shared-mask dropout *)

Section DropoutExact.

Lemma F_dropout_exact (input : loc) (p : R) (tr ip : bool) (w : World)
    (sh : list nat) :
  0 <= p <= 1 ->
  heap w !! input = Some (mkTensor sh (fun _ => 1)) ->
  exists m' t' w',
    F_dropout input p tr ip w = (inr m', w') /\
    heap w' !! m' = Some t' /\
    shape t' = sh /\
    (forall idx, data t' idx = dropout_mask_entry tr p (rng w (rng_pos w)) idx) /\
    rng_pos w' = (rng_pos w + dropout_draws tr p)%nat.
Proof.
  intros [Hp0 Hp1] Hin. unfold F_dropout, dropout_mask_entry, dropout_draws.
  destruct (Rlt_dec p 0); [lra|]. destruct (Rlt_dec 1 p); [lra|].
  destruct tr; cbn [negb].
  2:{ exists input, (mkTensor sh (fun _ => 1)), w. cbn.
      repeat split; try assumption. lia. }
  destruct (Req_dec_T p 0) as [->|Hne0].
  { exists input, (mkTensor sh (fun _ => 1)), w. cbn.
    repeat split; try assumption. lia. }
  rewrite (bindM_run _ _ _ _ _ (deref_run _ _ _ Hin)).
  destruct (Req_dec_T p 1) as [->|Hne1].
  - unfold bindM at 1. cbn [retM].
    destruct ip; cbn.
    + eexists _, _, _. split; [reflexivity|]. split; [apply lookup_insert_eq|].
      split; [reflexivity|]. split; [intros idx; cbn; ring|cbn; lia].
    + eexists _, _, _. split; [reflexivity|]. split; [apply lookup_insert_eq|].
      split; [reflexivity|]. split; [intros idx; cbn; ring|cbn; lia].
  - unfold bindM at 1. cbn [bernoulli_draw bindM retM].
    destruct ip; cbn.
    + eexists _, _, _. split; [reflexivity|]. split; [apply lookup_insert_eq|].
      split; [reflexivity|]. split; [intros idx; cbn; ring|cbn; lia].
    + eexists _, _, _. split; [reflexivity|]. split; [apply lookup_insert_eq|].
      split; [reflexivity|]. split; [intros idx; cbn; ring|cbn; lia].
Qed.

Lemma scatter_exact (ctx : dap.Context) (t : Tensor) (d : Z) (k : nat)
    (sh : list nat) :
  (0 < dap.size ctx)%nat ->
  py_index (length sh) d = ok k ->
  shape t = <[k := ((sh !!! k) * dap.size ctx)%nat]> sh ->
  exists t', dap.scatter ctx t d = ok t' /\ shape t' = sh /\
             forall idx,
               data t' idx =
               data t (alter (fun i => (i + dap.rank ctx * (sh !!! k))%nat) k idx).
Proof.
  intros Hn Hk Hsh. unfold dap.scatter.
  rewrite Hsh, length_insert, Hk. cbn [bindR ok].
  pose proof (py_index_bound _ _ _ Hk) as Hlt.
  rewrite list_lookup_total_insert_eq by assumption.
  rewrite Nat.div_mul by lia.
  eexists. split; [reflexivity|]. cbn. split.
  - rewrite list_insert_insert_eq. apply list_insert_id.
    apply list_lookup_lookup_total_lt. assumption.
  - intros idx. reflexivity.
Qed.

Lemma Dropout_forward_tail_exact (x y mask : loc) (w1 : World)
    (tx ty tmask : Tensor) :
  heap w1 !! x = Some tx -> heap w1 !! mask = Some tmask ->
  heap w1 !! y = Some ty -> shape ty = shape tx ->
  collapsed (shape tmask) (shape tx) ->
  exists tout,
    (do x0 <- Dropout._mul_add x mask y; retM x0) w1 =
    (inr (fresh (dom (heap w1))),
     set_heap (<[fresh (dom (heap w1)) := tout]> (heap w1)) w1) /\
    shape tout = shape tx /\
    forall idx, valid_index (shape tx) idx ->
      data tout idx =
      data ty idx + data tx idx * data tmask (bcast_index (shape tmask) idx).
Proof.
  intros Hx1 Hm1 Hy1 Hsh Hcol.
  assert (Hprod : tensor_mul tx tmask =
                  ok (mkTensor (shape tx)
                        (fun idx => bcast_get tx idx * bcast_get tmask idx))).
  { unfold tensor_mul. rewrite (broadcast_shapes_collapsed _ _ Hcol).
    reflexivity. }
  assert (Hres : tensor_add ty
                   (mkTensor (shape tx)
                      (fun idx => bcast_get tx idx * bcast_get tmask idx)) =
                 ok (mkTensor (shape tx)
                       (fun idx =>
                          bcast_get ty idx +
                          bcast_get (mkTensor (shape tx)
                            (fun idx => bcast_get tx idx * bcast_get tmask idx))
                            idx))).
  { unfold tensor_add. cbn [shape]. rewrite Hsh.
    rewrite (broadcast_shapes_collapsed _ _ (collapsed_refl _)). reflexivity. }
  rewrite (bindM_run _ _ _ _ _
             (mul_add_run x mask y w1 _ _ _ _ _ Hx1 Hm1 Hy1 Hprod Hres)).
  eexists. split; [reflexivity|]. split; [reflexivity|].
  intros idx Hidx. cbn [data]. unfold bcast_get. cbn [shape data].
  rewrite Hsh, !(bcast_index_valid _ _ Hidx). reflexivity.
Qed.

Lemma Dropout_forward_exact (self : Dropout.t) (x y : loc) (dd : option Z)
    (w : World) (tx ty : Tensor) :
  heap w !! x = Some tx -> heap w !! y = Some ty -> shape ty = shape tx ->
  0 <= Dropout.p self <= 1 ->
  Forall (valid_axis (length (shape tx))) (Dropout.share_dim self) ->
  dap_dim_ok w (length (shape tx)) dd ->
  exists out w' tout sm k,
    Dropout.forward self x y dd w = (inr out, w') /\
    heap w' !! out = Some tout /\
    shape tout = shape tx /\
    Dropout.set_shared (Dropout.share_dim self) (shape tx) = ok sm /\
    sharded_axis (length (shape tx)) dd k /\
    rng_pos w' =
      (rng_pos w + dropout_draws (Dropout.training self) (Dropout.p self))%nat /\
    forall idx, valid_index (shape tx) idx ->
      data tout idx =
      data ty idx +
      data tx idx *
      dropout_mask_entry (Dropout.training self) (Dropout.p self)
        (rng w (rng_pos w)) (mask_index (dap_ctx w) sm k idx).
Proof.
  intros Hx Hy Hsh Hp Hds Hdd.
  destruct (set_shared_ok _ _ _ (collapsed_refl (shape tx)) Hds)
    as (sm & Hsm & Hcol).
  unfold Dropout.forward.
  rewrite (bindM_run _ _ _ _ _ (deref_run _ _ _ Hx)). cbv zeta.
  rewrite Hsm. rewrite (bindM_run (liftR (ok sm)) _ w w sm eq_refl).
  destruct dd as [d|].
  - destruct Hdd as [Hd Hn].
    pose proof (collapsed_length _ _ Hcol) as Hlen.
    rewrite <- Hlen in Hd.
    destruct (py_index_ok _ _ Hd) as (k & Hk & Hklt).
    set (sh2 := <[k := ((sm !!! k) * dap.size (dap_ctx w))%nat]> sm).
    assert (Esh : (do k <- liftR (py_index (length sm) d);
                   do n <- dap_size;
                   retM (<[k := ((sm !!! k) * n)%nat]> sm)) w = (inr sh2, w))
      by (rewrite Hk; reflexivity).
    rewrite (bindM_run _ _ _ _ _ Esh).
    set (m0 := fresh (dom (heap w))).
    set (w0 := set_heap (<[m0 := mkTensor sh2 (fun _ => 1)]> (heap w)) w).
    rewrite (bindM_run (new_ones x sh2) _ w w0 m0 eq_refl).
    assert (Hm0 : heap w0 !! m0 = Some (mkTensor sh2 (fun _ => 1)))
      by apply lookup_insert_eq.
    assert (Hx0 : heap w0 !! x = Some tx).
    { cbn. rewrite lookup_insert_ne by (symmetry; eapply fresh_ne; eassumption).
      assumption. }
    assert (Hy0 : heap w0 !! y = Some ty).
    { cbn. rewrite lookup_insert_ne by (symmetry; eapply fresh_ne; eassumption).
      assumption. }
    destruct (F_dropout_exact m0 (Dropout.p self) (Dropout.training self)
                (Dropout.inplace self) w0 sh2 Hp Hm0)
      as (m1 & t1 & w1 & EF & Hm1 & Hsh1 & Hval1 & Hpos1).
    pose proof (keeps_F_dropout x tx m0 (Dropout.p self)
                  (Dropout.training self) (Dropout.inplace self)
                  (not_eq_sym (fresh_ne _ _ _ Hx)) w0 Hx0) as [Hx1 _].
    pose proof (keeps_F_dropout y ty m0 (Dropout.p self)
                  (Dropout.training self) (Dropout.inplace self)
                  (not_eq_sym (fresh_ne _ _ _ Hy)) w0 Hy0) as [Hy1 _].
    pose proof (env_stable_F_dropout m0 (Dropout.p self)
                  (Dropout.training self) (Dropout.inplace self) w0)
      as (_ & _ & Hctx & _).
    rewrite EF in Hx1, Hy1, Hctx. cbn [fst snd] in Hx1, Hy1, Hctx.
    rewrite (bindM_run _ _ _ _ _ EF).
    assert (Hn1 : (0 < dap.size (dap_ctx w1))%nat) by (rewrite Hctx; exact Hn).
    destruct (scatter_exact (dap_ctx w1) t1 d k sm Hn1 Hk) as (t2 & E2 & Hsh2 & Hre).
    { rewrite Hsh1, Hctx. reflexivity. }
    set (m2 := fresh (dom (heap w1))).
    set (w2 := set_heap (<[m2 := t2]> (heap w1)) w1).
    assert (Esc : dap_scatter m1 d w1 = (inr m2, w2)).
    { unfold dap_scatter.
      rewrite (bindM_run dap_context _ w1 w1 (dap_ctx w1) eq_refl).
      rewrite (bindM_run _ _ _ _ _ (deref_run _ _ _ Hm1)).
      rewrite E2. reflexivity. }
    rewrite (bindM_run _ _ _ _ _ Esc).
    assert (Hx2 : heap w2 !! x = Some tx).
    { cbn. rewrite lookup_insert_ne by (symmetry; eapply fresh_ne; eassumption).
      assumption. }
    assert (Hy2 : heap w2 !! y = Some ty).
    { cbn. rewrite lookup_insert_ne by (symmetry; eapply fresh_ne; eassumption).
      assumption. }
    assert (Hm2 : heap w2 !! m2 = Some t2) by apply lookup_insert_eq.
    rewrite <- Hsh2 in Hcol.
    destruct (Dropout_forward_tail_exact x y m2 w2 tx ty t2 Hx2 Hm2 Hy2 Hsh Hcol)
      as (tout & E3 & Hshout & Hdata).
    rewrite E3. eexists (fresh (dom (heap w2))), _, tout, sm, (Some k).
    split; [reflexivity|]. split; [apply lookup_insert_eq|].
    split; [assumption|]. split; [reflexivity|].
    split; [exists k; rewrite <- Hlen; split; [assumption|reflexivity]|].
    split; [cbn; exact Hpos1|].
    intros idx Hidx. rewrite (Hdata idx Hidx), Hsh2, Hre, Hval1, Hctx.
    reflexivity.
  - rewrite (bindM_run (retM sm) _ w w sm eq_refl).
    set (m0 := fresh (dom (heap w))).
    set (w0 := set_heap (<[m0 := mkTensor sm (fun _ => 1)]> (heap w)) w).
    rewrite (bindM_run (new_ones x sm) _ w w0 m0 eq_refl).
    assert (Hm0 : heap w0 !! m0 = Some (mkTensor sm (fun _ => 1)))
      by apply lookup_insert_eq.
    assert (Hx0 : heap w0 !! x = Some tx).
    { cbn. rewrite lookup_insert_ne by (symmetry; eapply fresh_ne; eassumption).
      assumption. }
    assert (Hy0 : heap w0 !! y = Some ty).
    { cbn. rewrite lookup_insert_ne by (symmetry; eapply fresh_ne; eassumption).
      assumption. }
    destruct (F_dropout_exact m0 (Dropout.p self) (Dropout.training self)
                (Dropout.inplace self) w0 sm Hp Hm0)
      as (m1 & t1 & w1 & EF & Hm1 & Hsh1 & Hval1 & Hpos1).
    pose proof (keeps_F_dropout x tx m0 (Dropout.p self)
                  (Dropout.training self) (Dropout.inplace self)
                  (not_eq_sym (fresh_ne _ _ _ Hx)) w0 Hx0) as [Hx1 _].
    pose proof (keeps_F_dropout y ty m0 (Dropout.p self)
                  (Dropout.training self) (Dropout.inplace self)
                  (not_eq_sym (fresh_ne _ _ _ Hy)) w0 Hy0) as [Hy1 _].
    rewrite EF in Hx1, Hy1. cbn [fst snd] in Hx1, Hy1.
    rewrite (bindM_run _ _ _ _ _ EF).
    rewrite (bindM_run (retM m1) _ w1 w1 m1 eq_refl).
    rewrite <- Hsh1 in Hcol.
    destruct (Dropout_forward_tail_exact x y m1 w1 tx ty t1 Hx1 Hm1 Hy1 Hsh Hcol)
      as (tout & E3 & Hshout & Hdata).
    rewrite E3. eexists (fresh (dom (heap w1))), _, tout, sm, None.
    split; [reflexivity|]. split; [apply lookup_insert_eq|].
    split; [assumption|]. split; [reflexivity|].
    split; [reflexivity|].
    split; [cbn; exact Hpos1|].
    intros idx Hidx. rewrite (Hdata idx Hidx), Hsh1, Hval1.
    reflexivity.
Qed.

End DropoutExact.

Section RngKept.

Lemma rng_kept_ret {A} (x : A) : rng_kept (retM x).
Proof. intros w. reflexivity. Qed.

Lemma rng_kept_raise {A} (e : exn) : rng_kept (@raiseM A e).
Proof. intros w. reflexivity. Qed.

Lemma rng_kept_liftR {A} (r : Result A) : rng_kept (liftR r).
Proof. intros w. reflexivity. Qed.

Lemma rng_kept_read {A} (f : World -> A) : rng_kept (fun w => (inr (f w), w)).
Proof. intros w. reflexivity. Qed.

Lemma rng_kept_bind {A B} (m : M A) (k : A -> M B) :
  rng_kept m -> (forall x, rng_kept (k x)) -> rng_kept (bindM m k).
Proof.
  intros Hm Hk w. unfold bindM. specialize (Hm w).
  destruct (m w) as [[e|x] w1]; cbn in *; [assumption|].
  rewrite (Hk x w1). assumption.
Qed.

Lemma rng_kept_deref (l : loc) : rng_kept (deref l).
Proof. intros w. unfold deref. destruct (heap w !! l); reflexivity. Qed.

Lemma rng_kept_alloc (t : Tensor) : rng_kept (alloc t).
Proof. intros w. reflexivity. Qed.

Lemma rng_kept_store (l : loc) (t : Tensor) : rng_kept (store l t).
Proof. intros w. reflexivity. Qed.

End RngKept.

Create HintDb rng_kept.
#[export] Hint Resolve rng_kept_ret rng_kept_raise rng_kept_liftR
  rng_kept_read rng_kept_deref rng_kept_alloc rng_kept_store : rng_kept.

Ltac rng_kept_tac :=
  repeat first
    [ progress intros
    | solve [auto with rng_kept]
    | apply rng_kept_bind
    | match goal with
      | |- rng_kept (if ?b then _ else _) => destruct b
      | |- rng_kept (match ?o with Some _ => _ | None => _ end) => destruct o
      | |- rng_kept (match ?x with (_, _) => _ end) => destruct x
      end ].

Section DropoutExtras.
Import DropoutExample.

Lemma rng_kept_dap_scatter (t : loc) (d : Z) : rng_kept (dap_scatter t d).
Proof. unfold dap_scatter, dap_context. rng_kept_tac. Qed.

Lemma rng_kept_mul_add (x m y : loc) : rng_kept (Dropout._mul_add x m y).
Proof.
  unfold Dropout._mul_add, Dropout._mul_add_jit, Dropout._mul_add_eager,
    inductor_is_enabled_on_hopper, inductor_is_enabled_on_ampere, dap_size.
  rng_kept_tac.
Qed.

Lemma rng_kept_F_dropout (input : loc) (p : R) (tr ip : bool) :
  ~ (tr = true /\ 0 < p < 1) -> rng_kept (F_dropout input p tr ip).
Proof.
  intros Hno. unfold F_dropout.
  destruct (Rlt_dec p 0); [apply rng_kept_raise|].
  destruct (Rlt_dec 1 p); [apply rng_kept_raise|].
  destruct tr; cbn [negb]; [|apply rng_kept_ret].
  destruct (Req_dec_T p 0); [apply rng_kept_ret|].
  destruct (Req_dec_T p 1); [|exfalso; apply Hno; split; [reflexivity|lra]].
  rng_kept_tac.
Qed.

Lemma set_shared_length (ds : list Z) (sh sm : list nat) :
  Dropout.set_shared ds sh = ok sm -> length sm = length sh.
Proof.
  revert sh. induction ds as [|d ds IH]; intros sh; cbn.
  - intros [= <-]. reflexivity.
  - destruct (py_index (length sh) d) as [e|k]; cbn; [discriminate|].
    intros H. rewrite (IH _ H). apply length_insert.
Qed.

Lemma set_shared_error (ds : list Z) (sh : list nat) (e : exn) :
  Dropout.set_shared ds sh = inl e -> e = IndexError.
Proof.
  revert sh. induction ds as [|d ds IH]; intros sh; cbn.
  - discriminate.
  - unfold py_index.
    destruct ((0 <=? d) && (d <? Z.of_nat (length sh)))%Z; cbn; [apply IH|].
    destruct ((- Z.of_nat (length sh) <=? d) && (d <? 0))%Z; cbn; [apply IH|].
    intros [= <-]. reflexivity.
Qed.

Lemma set_shared_invalid (ds : list Z) (sh : list nat) :
  Exists (fun d => ~ valid_axis (length sh) d) ds ->
  Dropout.set_shared ds sh = raise IndexError.
Proof.
  revert sh. induction ds as [|d ds IH]; intros sh H.
  - inversion H.
  - cbn. destruct (py_index (length sh) d) as [e|k] eqn:E; cbn.
    + unfold py_index in E.
      destruct ((0 <=? d) && (d <? Z.of_nat (length sh)))%Z; [discriminate|].
      destruct ((- Z.of_nat (length sh) <=? d) && (d <? 0))%Z; [discriminate|].
      injection E as <-. reflexivity.
    + apply IH. rewrite length_insert. inversion H as [? ? Hd|? ? Hr]; subst.
      * rewrite (py_index_invalid _ _ Hd) in E. discriminate.
      * exact Hr.
Qed.

Lemma set_shared_keeps_one (ds : list Z) (sh sm : list nat) (k : nat) :
  Dropout.set_shared ds sh = ok sm -> sh !! k = Some 1%nat ->
  sm !! k = Some 1%nat.
Proof.
  revert sh. induction ds as [|d ds IH]; intros sh; cbn.
  - intros [= <-]. trivial.
  - destruct (py_index (length sh) d) as [e|k0]; cbn; [discriminate|].
    intros H Hk. apply (IH _ H).
    destruct (decide (k0 = k)) as [->|Hne].
    + rewrite list_lookup_insert_eq; [reflexivity|].
      apply lookup_lt_is_Some. eauto.
    + rewrite list_lookup_insert_ne by assumption. assumption.
Qed.

Lemma set_shared_one (ds : list Z) (sh sm : list nat) (d : Z) (k : nat) :
  Dropout.set_shared ds sh = ok sm -> d ∈ ds ->
  py_index (length sh) d = ok k -> sm !! k = Some 1%nat.
Proof.
  revert sh. induction ds as [|d0 ds IH]; intros sh; cbn.
  - intros _ Hin. inversion Hin.
  - destruct (py_index (length sh) d0) as [e|k0] eqn:E0; cbn; [discriminate|].
    intros H Hin Hk. apply elem_of_cons in Hin as [->|Hin].
    + rewrite Hk in E0. injection E0 as <-.
      apply (set_shared_keeps_one _ _ _ _ H).
      apply list_lookup_insert_eq. eapply py_index_bound; eassumption.
    + apply (IH _ H Hin). rewrite length_insert. assumption.
Qed.

Lemma bcast_index_shared (sm idx idx' : list nat) :
  length idx = length sm -> length idx' = length sm ->
  (forall k, idx !! k <> idx' !! k -> sm !! k = Some 1%nat) ->
  bcast_index sm idx = bcast_index sm idx'.
Proof.
  intros Hl Hl' H. unfold bcast_index. rewrite Hl, Hl', Nat.sub_diag, !drop_0.
  apply list_eq. intros k. rewrite !lookup_zip_with.
  destruct (sm !! k) as [dk|] eqn:Ek; [|reflexivity].
  destruct (decide (idx !! k = idx' !! k)) as [->|Hne]; [reflexivity|].
  specialize (H k Hne). rewrite Ek in H. injection H as ->.
  assert (Hk : (k < length sm)%nat) by (apply lookup_lt_is_Some; eauto).
  destruct (lookup_lt_is_Some_2 idx k) as [i Ei]; [lia|].
  destruct (lookup_lt_is_Some_2 idx' k) as [i' Ei']; [lia|].
  rewrite Ei, Ei'. reflexivity.
Qed.

(** X1.  With [p = 0], in either mode, [Dropout.forward] on inputs of one
    shape returns a new tensor equal to [add_output_to + x] and leaves the
    random generator where it was. *)
Theorem dropout_p_zero_is_add (self : Dropout.t) (x y : loc) (dd : option Z)
    (w : World) (tx ty : Tensor) :
  Dropout.p self = 0 ->
  heap w !! x = Some tx -> heap w !! y = Some ty -> shape ty = shape tx ->
  Forall (valid_axis (length (shape tx))) (Dropout.share_dim self) ->
  dap_dim_ok w (length (shape tx)) dd ->
  exists out w' tout,
    Dropout.forward self x y dd w = (inr out, w') /\
    heap w' !! out = Some tout /\
    shape tout = shape tx /\
    rng_pos w' = rng_pos w /\
    forall idx, valid_index (shape tx) idx ->
      data tout idx = data ty idx + data tx idx.
Proof.
  intros Hp0 Hx Hy Hsh Hds Hdd.
  destruct (Dropout_forward_exact self x y dd w tx ty Hx Hy Hsh) as
    (out & w' & tout & sm & k & E & Hout & Hshape & _ & _ & Hpos & Hdata);
    [rewrite Hp0; lra|assumption|assumption|].
  exists out, w', tout. repeat (split; [assumption|]).
  rewrite Hp0 in Hpos, Hdata. split.
  - rewrite Hpos. unfold dropout_draws.
    destruct (negb (Dropout.training self)); [lia|].
    destruct (Req_dec_T 0 0); [lia|contradiction].
  - intros idx Hidx. rewrite (Hdata idx Hidx). unfold dropout_mask_entry.
    destruct (negb (Dropout.training self)); [ring|].
    destruct (Req_dec_T 0 0); [ring|contradiction].
Qed.

Lemma dropout_p_zero_is_add_witness :
  exists out w' tout,
    Dropout.forward (Dropout.mk 0 [(-3)%Z] false true) x y None world =
    (inr out, w') /\
    heap w' !! out = Some tout /\
    shape tout = shape tx /\
    rng_pos w' = rng_pos world /\
    forall idx, valid_index (shape tx) idx ->
      data tout idx = data ty idx + data tx idx.
Proof.
  apply (dropout_p_zero_is_add (Dropout.mk 0 [(-3)%Z] false true)
           x y None world tx ty).
  - reflexivity.
  - reflexivity.
  - reflexivity.
  - reflexivity.
  - repeat constructor; cbn; lia.
  - exact I.
Defined.

(** X2.  In training mode with [p = 1] every entry is dropped:
    [Dropout.forward] returns a new tensor equal to [add_output_to], whatever
    [x] holds, and leaves the random generator where it was. *)
Theorem dropout_p_one_drops_all (self : Dropout.t) (x y : loc)
    (dd : option Z) (w : World) (tx ty : Tensor) :
  Dropout.training self = true -> Dropout.p self = 1 ->
  heap w !! x = Some tx -> heap w !! y = Some ty -> shape ty = shape tx ->
  Forall (valid_axis (length (shape tx))) (Dropout.share_dim self) ->
  dap_dim_ok w (length (shape tx)) dd ->
  exists out w' tout,
    Dropout.forward self x y dd w = (inr out, w') /\
    heap w' !! out = Some tout /\
    shape tout = shape tx /\
    rng_pos w' = rng_pos w /\
    forall idx, valid_index (shape tx) idx -> data tout idx = data ty idx.
Proof.
  intros Htr Hp1 Hx Hy Hsh Hds Hdd.
  destruct (Dropout_forward_exact self x y dd w tx ty Hx Hy Hsh) as
    (out & w' & tout & sm & k & E & Hout & Hshape & _ & _ & Hpos & Hdata);
    [rewrite Hp1; lra|assumption|assumption|].
  exists out, w', tout. repeat (split; [assumption|]).
  rewrite Hp1, Htr in Hpos, Hdata. split.
  - rewrite Hpos. unfold dropout_draws. cbn [negb].
    destruct (Req_dec_T 1 0); [lia|].
    destruct (Req_dec_T 1 1); [lia|contradiction].
  - intros idx Hidx. rewrite (Hdata idx Hidx). unfold dropout_mask_entry.
    cbn [negb]. destruct (Req_dec_T 1 0); [lra|].
    destruct (Req_dec_T 1 1); [ring|contradiction].
Qed.

Lemma dropout_p_one_drops_all_witness :
  exists out w' tout,
    Dropout.forward (Dropout.mk 1 [(-3)%Z] false true) x y None world =
    (inr out, w') /\
    heap w' !! out = Some tout /\
    shape tout = shape tx /\
    rng_pos w' = rng_pos world /\
    forall idx, valid_index (shape tx) idx -> data tout idx = data ty idx.
Proof.
  apply (dropout_p_one_drops_all (Dropout.mk 1 [(-3)%Z] false true)
           x y None world tx ty).
  - reflexivity.
  - reflexivity.
  - reflexivity.
  - reflexivity.
  - reflexivity.
  - repeat constructor; cbn; lia.
  - exact I.
Defined.

(** X3.  When a configured shared axis, or the sharded axis passed to the
    call, is not an axis of [x], [Dropout.forward] raises [IndexError] in
    either mode and for every [p], before it has created a tensor or touched
    the generator: the process state is the one before the call. *)
Theorem dropout_bad_axis_raises (self : Dropout.t) (x y : loc)
    (dd : option Z) (w : World) (tx : Tensor) :
  heap w !! x = Some tx ->
  Exists (fun d => ~ valid_axis (length (shape tx)) d) (Dropout.share_dim self)
  \/ (exists d, dd = Some d /\ ~ valid_axis (length (shape tx)) d) ->
  Dropout.forward self x y dd w = (inl IndexError, w).
Proof.
  intros Hx Hbad. unfold Dropout.forward.
  rewrite (bindM_run _ _ _ _ _ (deref_run _ _ _ Hx)). cbv zeta.
  destruct (Dropout.set_shared (Dropout.share_dim self) (shape tx))
    as [e|sm] eqn:Esm.
  - rewrite (set_shared_error _ _ _ Esm). reflexivity.
  - destruct Hbad as [Hbad|(d & -> & Hd)].
    + rewrite (set_shared_invalid _ _ Hbad) in Esm. discriminate.
    + rewrite (bindM_run (liftR (ok sm)) _ w w sm eq_refl).
      rewrite (set_shared_length _ _ _ Esm), (py_index_invalid _ _ Hd).
      reflexivity.
Qed.

Lemma dropout_bad_axis_raises_witness :
  Dropout.forward rowwise x y None world2 = (inl IndexError, world2).
Proof.
  apply (dropout_bad_axis_raises rowwise x y None world2 tx2).
  - reflexivity.
  - left. constructor. unfold valid_axis. cbn. lia.
Defined.

(** X4.  The mask of [Dropout.forward] is shared along every configured
    axis: the result is [add_output_to + x * mask], and two entries of [x]
    whose indices differ only along shared axes are multiplied by the same
    mask entry.  [DropoutColumnwise] shares axis -2 in this way. *)
Theorem dropout_mask_shared_axes (self : Dropout.t) (x y : loc)
    (dd : option Z) (w : World) (tx ty : Tensor) :
  heap w !! x = Some tx -> heap w !! y = Some ty -> shape ty = shape tx ->
  0 <= Dropout.p self <= 1 ->
  Forall (valid_axis (length (shape tx))) (Dropout.share_dim self) ->
  dap_dim_ok w (length (shape tx)) dd ->
  exists out w' tout (mask : list nat -> R),
    Dropout.forward self x y dd w = (inr out, w') /\
    heap w' !! out = Some tout /\
    (forall idx, valid_index (shape tx) idx ->
       data tout idx = data ty idx + data tx idx * mask idx) /\
    forall idx idx',
      valid_index (shape tx) idx -> valid_index (shape tx) idx' ->
      (forall k, idx !! k <> idx' !! k ->
         exists d, d ∈ Dropout.share_dim self /\
                   py_index (length (shape tx)) d = ok k) ->
      mask idx = mask idx'.
Proof.
  intros Hx Hy Hsh Hp Hds Hdd.
  destruct (Dropout_forward_exact self x y dd w tx ty Hx Hy Hsh Hp Hds Hdd) as
    (out & w' & tout & sm & k & E & Hout & Hshape & Hsm & _ & _ & Hdata).
  exists out, w', tout,
    (fun idx => dropout_mask_entry (Dropout.training self) (Dropout.p self)
                  (rng w (rng_pos w)) (mask_index (dap_ctx w) sm k idx)).
  repeat (split; [assumption|]).
  intros idx idx' Hidx Hidx' Hdiff.
  assert (Hb : bcast_index sm idx = bcast_index sm idx').
  { apply bcast_index_shared.
    - rewrite (Forall2_length _ _ _ Hidx). symmetry.
      eapply set_shared_length; eassumption.
    - rewrite (Forall2_length _ _ _ Hidx'). symmetry.
      eapply set_shared_length; eassumption.
    - intros k0 Hk0. destruct (Hdiff k0 Hk0) as (d & Hin & Hd).
      eapply set_shared_one; eassumption. }
  unfold mask_index. rewrite Hb. reflexivity.
Qed.

Lemma dropout_mask_shared_axes_witness :
  exists out w' tout (mask : list nat -> R),
    Dropout.forward (Dropout.mk (1 / 2) [(-2)%Z] false true) x y None world =
    (inr out, w') /\
    heap w' !! out = Some tout /\
    (forall idx, valid_index (shape tx) idx ->
       data tout idx = data ty idx + data tx idx * mask idx) /\
    forall idx idx',
      valid_index (shape tx) idx -> valid_index (shape tx) idx' ->
      (forall k, idx !! k <> idx' !! k ->
         exists d, d ∈ [(-2)%Z] /\ py_index (length (shape tx)) d = ok k) ->
      mask idx = mask idx'.
Proof.
  apply (dropout_mask_shared_axes (Dropout.mk (1 / 2) [(-2)%Z] false true)
           x y None world tx ty).
  - reflexivity.
  - reflexivity.
  - reflexivity.
  - cbn. lra.
  - repeat constructor; cbn; lia.
  - exact I.
Defined.

(** X5.  [Dropout.forward] takes samples from the random generator only in
    training mode with [0 < p < 1]: in inference mode, and for every other
    [p], the generator is where it was after the call, whatever the arguments
    and the outcome. *)
Theorem dropout_generator_untouched (self : Dropout.t) (x y : loc)
    (dd : option Z) (w : World) :
  ~ (Dropout.training self = true /\ 0 < Dropout.p self < 1) ->
  rng_pos (Dropout.forward self x y dd w).2 = rng_pos w.
Proof.
  intros Hno. revert w. change (rng_kept (Dropout.forward self x y dd)).
  unfold Dropout.forward, new_ones, dap_size.
  apply rng_kept_bind; [apply rng_kept_deref|]. intros tx.
  apply rng_kept_bind; [apply rng_kept_liftR|]. intros sm.
  apply rng_kept_bind.
  { destruct dd; rng_kept_tac. }
  intros sh. apply rng_kept_bind; [apply rng_kept_alloc|]. intros mask.
  apply rng_kept_bind; [apply rng_kept_F_dropout; assumption|]. intros mask'.
  apply rng_kept_bind.
  { destruct dd; [apply rng_kept_dap_scatter|apply rng_kept_ret]. }
  intros mask''. apply rng_kept_bind; [apply rng_kept_mul_add|].
  intros out. apply rng_kept_ret.
Qed.

Lemma dropout_generator_untouched_witness :
  rng_pos (Dropout.forward (Dropout.eval rowwise) x y None world).2 =
  rng_pos world.
Proof.
  apply (dropout_generator_untouched (Dropout.eval rowwise) x y None world).
  cbn. intros [H _]. discriminate H.
Defined.

(** X6.  In training mode with [0 < p < 1] and a sharded axis
    [dap_scattered_dim] of [x], the mask is drawn once for the whole parallel
    group and each worker uses its own slice: the entry [idx] of the result
    is [add_output_to + x * sample / (1 - p)], where the sample is read from
    the generator's tensor at [idx] with the shared axes pinned to 0 and the
    index along the sharded axis shifted by [rank] times the local length. *)
Theorem dropout_sharded_mask_slice (self : Dropout.t) (x y : loc) (d : Z)
    (w : World) (tx ty : Tensor) :
  Dropout.training self = true -> 0 < Dropout.p self < 1 ->
  heap w !! x = Some tx -> heap w !! y = Some ty -> shape ty = shape tx ->
  Forall (valid_axis (length (shape tx))) (Dropout.share_dim self) ->
  valid_axis (length (shape tx)) d -> (0 < dap.size (dap_ctx w))%nat ->
  exists out w' tout sm k,
    Dropout.forward self x y (Some d) w = (inr out, w') /\
    heap w' !! out = Some tout /\
    Dropout.set_shared (Dropout.share_dim self) (shape tx) = ok sm /\
    py_index (length (shape tx)) d = ok k /\
    forall idx, valid_index (shape tx) idx ->
      data tout idx =
      data ty idx +
      data tx idx *
      ((if rng w (rng_pos w)
            (alter (fun i => (i + dap.rank (dap_ctx w) * (sm !!! k))%nat) k
               (bcast_index sm idx))
        then 1 else 0) / (1 - Dropout.p self)).
Proof.
  intros Htr Hp Hx Hy Hsh Hds Hd Hn.
  destruct (Dropout_forward_exact self x y (Some d) w tx ty Hx Hy Hsh) as
    (out & w' & tout & sm & k & E & Hout & Hshape & Hsm & Hk & _ & Hdata);
    [lra|assumption|split; assumption|].
  destruct Hk as (k0 & Hk0 & ->).
  exists out, w', tout, sm, k0. repeat (split; [assumption|]).
  intros idx Hidx. rewrite (Hdata idx Hidx).
  unfold dropout_mask_entry, mask_index. rewrite Htr. cbn [negb].
  destruct (Req_dec_T (Dropout.p self) 0); [lra|].
  destruct (Req_dec_T (Dropout.p self) 1); [lra|]. reflexivity.
Qed.

Lemma dropout_sharded_mask_slice_witness :
  exists out w' tout sm k,
    Dropout.forward rowwise x y (Some 2%Z) DropoutShardExample.world =
    (inr out, w') /\
    heap w' !! out = Some tout /\
    Dropout.set_shared (Dropout.share_dim rowwise) (shape tx) = ok sm /\
    py_index (length (shape tx)) 2 = ok k /\
    forall idx, valid_index (shape tx) idx ->
      data tout idx =
      data ty idx +
      data tx idx *
      ((if rng DropoutShardExample.world (rng_pos DropoutShardExample.world)
            (alter
               (fun i =>
                  (i + dap.rank (dap_ctx DropoutShardExample.world)
                       * (sm !!! k))%nat) k
               (bcast_index sm idx))
        then 1 else 0) / (1 - Dropout.p rowwise)).
Proof.
  apply (dropout_sharded_mask_slice rowwise x y 2%Z DropoutShardExample.world
           tx ty).
  - reflexivity.
  - cbn. lra.
  - reflexivity.
  - reflexivity.
  - reflexivity.
  - repeat constructor; cbn; lia.
  - unfold valid_axis. cbn. lia.
  - cbn. lia.
Defined.

End DropoutExtras.

(** ** Object identity of the results *)

Section ReturnsNew.

Lemma heap_grows_ret {A} (x : A) : heap_grows (retM x).
Proof. intros w. reflexivity. Qed.

Lemma heap_grows_raise {A} (e : exn) : heap_grows (@raiseM A e).
Proof. intros w. reflexivity. Qed.

Lemma heap_grows_liftR {A} (r : Result A) : heap_grows (liftR r).
Proof. intros w. reflexivity. Qed.

Lemma heap_grows_read {A} (f : World -> A) :
  heap_grows (fun w => (inr (f w), w)).
Proof. intros w. reflexivity. Qed.

Lemma heap_grows_bind {A B} (m : M A) (k : A -> M B) :
  heap_grows m -> (forall x, heap_grows (k x)) -> heap_grows (bindM m k).
Proof.
  intros Hm Hk w. unfold bindM. specialize (Hm w).
  destruct (m w) as [[e|x] w1]; cbn in *; [assumption|].
  etransitivity; [exact Hm|apply Hk].
Qed.

Lemma heap_grows_deref (l : loc) : heap_grows (deref l).
Proof. intros w. unfold deref. destruct (heap w !! l); reflexivity. Qed.

Lemma heap_grows_store (l : loc) (t : Tensor) : heap_grows (store l t).
Proof.
  intros w. cbn. rewrite dom_insert. apply union_subseteq_r.
Qed.

Lemma heap_grows_alloc (t : Tensor) : heap_grows (alloc t).
Proof.
  intros w. cbn. rewrite dom_insert. apply union_subseteq_r.
Qed.

Lemma heap_grows_bernoulli_draw : heap_grows bernoulli_draw.
Proof. intros w. reflexivity. Qed.

Lemma heap_grows_F_dropout (input : loc) (p : R) (tr ip : bool) :
  heap_grows (F_dropout input p tr ip).
Proof.
  unfold F_dropout.
  destruct (Rlt_dec p 0); [apply heap_grows_raise|].
  destruct (Rlt_dec 1 p); [apply heap_grows_raise|].
  destruct (negb tr); [apply heap_grows_ret|].
  destruct (Req_dec_T p 0); [apply heap_grows_ret|].
  apply heap_grows_bind; [apply heap_grows_deref|]. intros t.
  apply heap_grows_bind.
  { destruct (Req_dec_T p 1); [apply heap_grows_ret|].
    apply heap_grows_bind; [apply heap_grows_bernoulli_draw|].
    intros sample. apply heap_grows_ret. }
  intros out. destruct ip.
  - apply heap_grows_bind; [apply heap_grows_store|]. intros _.
    apply heap_grows_ret.
  - apply heap_grows_alloc.
Qed.

Lemma heap_grows_dap_scatter (t : loc) (d : Z) : heap_grows (dap_scatter t d).
Proof.
  unfold dap_scatter, dap_context.
  apply heap_grows_bind; [apply heap_grows_read|]. intros ctx.
  apply heap_grows_bind; [apply heap_grows_deref|]. intros ts.
  apply heap_grows_bind; [apply heap_grows_liftR|]. intros r.
  apply heap_grows_alloc.
Qed.

Lemma returns_new_alloc (t : Tensor) : returns_new (alloc t).
Proof.
  intros w l w' E. unfold alloc in E. injection E as <- _.
  apply not_elem_of_dom. apply is_fresh.
Qed.

Lemma returns_new_bind {A} (m : M A) (k : A -> M loc) :
  heap_grows m -> (forall x, returns_new (k x)) -> returns_new (bindM m k).
Proof.
  intros Hm Hk w l w' E. unfold bindM in E. specialize (Hm w).
  destruct (m w) as [[e|x] w1]; [discriminate|]. cbn in Hm.
  apply not_elem_of_dom. intros Hin.
  apply Hm in Hin. apply (not_elem_of_dom (heap w1) l); [|exact Hin].
  exact (Hk x w1 l w' E).
Qed.

Lemma returns_new_then_ret (m : M loc) :
  returns_new m -> returns_new (do x <- m; retM x).
Proof.
  intros Hm w l w' E. unfold bindM, retM in E.
  destruct (m w) as [[e|x] w1] eqn:Em; [discriminate|].
  injection E as <- <-. exact (Hm w x w1 Em).
Qed.

Lemma returns_new_mul_add_eager (x mask y : loc) :
  returns_new (Dropout._mul_add_eager x mask y).
Proof.
  unfold Dropout._mul_add_eager.
  apply returns_new_bind; [apply heap_grows_deref|]. intros tx.
  apply returns_new_bind; [apply heap_grows_deref|]. intros tmask.
  apply returns_new_bind; [apply heap_grows_deref|]. intros ty.
  apply returns_new_bind; [apply heap_grows_liftR|]. intros prod.
  apply returns_new_bind; [apply heap_grows_liftR|]. intros res.
  apply returns_new_alloc.
Qed.

Lemma returns_new_mul_add (x mask y : loc) :
  returns_new (Dropout._mul_add x mask y).
Proof.
  unfold Dropout._mul_add, Dropout._mul_add_jit,
    inductor_is_enabled_on_hopper, inductor_is_enabled_on_ampere, dap_size.
  apply returns_new_bind; [apply heap_grows_read|]. intros hopper.
  destruct hopper; [apply returns_new_mul_add_eager|].
  apply returns_new_bind; [apply heap_grows_read|]. intros ampere.
  apply returns_new_bind; [apply heap_grows_read|]. intros n.
  destruct (ampere && (n <=? 1)%nat); apply returns_new_mul_add_eager.
Qed.

Lemma returns_new_Dropout_forward (self : Dropout.t) (x y : loc)
    (dd : option Z) :
  returns_new (Dropout.forward self x y dd).
Proof.
  unfold Dropout.forward, new_ones, dap_size.
  apply returns_new_bind; [apply heap_grows_deref|]. intros tx.
  apply returns_new_bind; [apply heap_grows_liftR|]. intros sm.
  apply returns_new_bind.
  { destruct dd; [|apply heap_grows_ret].
    apply heap_grows_bind; [apply heap_grows_liftR|]. intros k.
    apply heap_grows_bind; [apply heap_grows_read|]. intros n.
    apply heap_grows_ret. }
  intros sh. apply returns_new_bind; [apply heap_grows_alloc|]. intros mask.
  apply returns_new_bind; [apply heap_grows_F_dropout|]. intros mask'.
  apply returns_new_bind.
  { destruct dd; [apply heap_grows_dap_scatter|apply heap_grows_ret]. }
  intros mask''. apply returns_new_then_ret. apply returns_new_mul_add.
Qed.

Import DropoutExample.

(** X18.  Whenever [Dropout.forward] returns, in either mode and for any
    [p], [inplace] and arguments, the tensor it returns is a new object: no
    tensor object had its identity before the call, so it is not [x] and it
    is none of the tensors that existed before the call. *)
Theorem dropout_result_is_new_object (self : Dropout.t) (x y : loc)
    (dd : option Z) (w w' : World) (out : loc) :
  Dropout.forward self x y dd w = (inr out, w') ->
  heap w !! out = None /\
  out <> x /\
  forall l t, heap w !! l = Some t -> out <> l.
Proof.
  intros E.
  assert (Hnew : heap w !! out = None)
    by exact (returns_new_Dropout_forward self x y dd w out w' E).
  split; [exact Hnew|]. split.
  - intros ->. unfold Dropout.forward, bindM, deref in E.
    rewrite Hnew in E. discriminate.
  - intros l t Hl ->. rewrite Hl in Hnew. discriminate.
Qed.

Lemma dropout_result_is_new_object_witness :
  exists out w',
    Dropout.forward rowwise x y None world = (inr out, w') /\
    heap world !! out = None /\
    out <> x /\
    forall l t, heap world !! l = Some t -> out <> l.
Proof.
  destruct (Dropout_forward_run rowwise x y None world tx ty)
    as (out & w' & tout & tmask & sm & E & _).
  - reflexivity.
  - reflexivity.
  - reflexivity.
  - cbn. lra.
  - repeat constructor; cbn; lia.
  - exact I.
  - exists out, w'. split; [exact E|].
    exact (dropout_result_is_new_object rowwise x y None world w' out E).
Defined.

End ReturnsNew.

(** ** Further properties of Invariant Point Attention *)

Section BigSumPerm.




Lemma softmax_shift (n : nat) (x : nat -> R) (c : R) (j : nat) :
  softmax n (fun j' => x j' + c) j = softmax n x j.
Proof.
  unfold softmax.
  rewrite (big_sum_ext n _ (fun j' => exp (x j') * exp c))
    by (intros; apply exp_plus).
  rewrite big_sum_scal_r, exp_plus.
  destruct n as [|n].
  - cbn. unfold Rdiv. rewrite Rmult_0_l, Rinv_0. ring.
  - pose proof (big_sum_exp_pos (S n) x ltac:(lia)).
    pose proof (exp_pos c). field. lra.
Qed.

End BigSumPerm.

Section IPAExtras.
Import Rigid InvariantPointAttention IPAExample.

Lemma logit_spec_ext (q k b q' k' b' : T4) (qp kp qp' kp' : P4)
    (C : nat) (hw : nat -> R) (P : nat) (bt bt' h i i' j j' : nat) :
  (forall c, q' bt' i' h c = q bt i h c) ->
  (forall c, k' bt' j' h c = k bt j h c) ->
  b' bt' i' j' h = b bt i j h ->
  (forall p, qp' bt' i' h p = qp bt i h p) ->
  (forall p, kp' bt' j' h p = kp bt j h p) ->
  logit_spec q' k' b' qp' kp' C hw P bt' h i' j' =
  logit_spec q k b qp kp C hw P bt h i j.
Proof.
  intros Hq Hk Hb Hqp Hkp. unfold logit_spec. rewrite Hb.
  rewrite (big_sum_ext C (fun c => q' bt' i' h c * k' bt' j' h c)
             (fun c => q bt i h c * k bt j h c))
    by (intros c _; rewrite Hq, Hk; reflexivity).
  rewrite (big_sum_ext P
             (fun p => norm2 (vsub (qp' bt' i' h p) (kp' bt' j' h p)))
             (fun p => norm2 (vsub (qp bt i h p) (kp bt j h p))))
    by (intros p _; rewrite Hqp, Hkp; reflexivity).
  reflexivity.
Qed.

Lemma forward_output_reindexed (self : InvariantPointAttention.t) (ind : bool)
    (N : nat) (a a' v v' : T4) (v_pts v_pts' : P4) (z z' : T4)
    (r r' : Frames) (bt bt' : nat) (pi : nat -> nat) (i : nat) :
  (forall f : nat -> R, big_sum N (fun j => f (pi j)) = big_sum N f) ->
  (forall h j, (j < N)%nat -> a' bt' h i j = a bt h (pi i) (pi j)) ->
  (forall j h c, (j < N)%nat -> v' bt' j h c = v bt (pi j) h c) ->
  (forall j h p, (j < N)%nat -> v_pts' bt' j h p = v_pts bt (pi j) h p) ->
  (forall j c, (j < N)%nat -> z' bt' i j c = z bt (pi i) (pi j) c) ->
  r' bt' i = r bt (pi i) ->
  forall c,
    forward_output self ind N a' v' v_pts' z' r' bt' i c =
    forward_output self ind N a v v_pts z r bt (pi i) c.
Proof.
  intros Hperm Ha Hv Hvp Hz Hr c.
  assert (Hsum : forall (g' g : nat -> R) h,
             (forall j, (j < N)%nat -> g' j = g (pi j)) ->
             big_sum N (fun j => a' bt' h i j * g' j) =
             big_sum N (fun j => a bt h (pi i) j * g j)).
  { intros g' g h Hg.
    rewrite <- (Hperm (fun j => a bt h (pi i) j * g j)).
    apply big_sum_ext. intros j Hj. rewrite Ha, Hg by assumption.
    reflexivity. }
  assert (Ho : forall h c0,
             big_sum N (fun j => a' bt' h i j * v' bt' j h c0) =
             big_sum N (fun j => a bt h (pi i) j * v bt j h c0)).
  { intros h c0. apply (Hsum (fun j => v' bt' j h c0) (fun j => v bt j h c0)).
    intros j Hj. apply Hv. assumption. }
  assert (Hpair : forall h c0,
             big_sum N (fun j => a' bt' h i j * z' bt' i j c0) =
             big_sum N (fun j => a bt h (pi i) j * z bt (pi i) j c0)).
  { intros h c0.
    apply (Hsum (fun j => z' bt' i j c0) (fun j => z bt (pi i) j c0)).
    intros j Hj. apply Hz. assumption. }
  assert (Hpt : forall h p,
    mkvec3 (big_sum N (fun j => a' bt' h i j * vx (v_pts' bt' j h p)))
           (big_sum N (fun j => a' bt' h i j * vy (v_pts' bt' j h p)))
           (big_sum N (fun j => a' bt' h i j * vz (v_pts' bt' j h p))) =
    mkvec3 (big_sum N (fun j => a bt h (pi i) j * vx (v_pts bt j h p)))
           (big_sum N (fun j => a bt h (pi i) j * vy (v_pts bt j h p)))
           (big_sum N (fun j => a bt h (pi i) j * vz (v_pts bt j h p)))).
  { intros h p. f_equal.
    - apply (Hsum (fun j => vx (v_pts' bt' j h p)) (fun j => vx (v_pts bt j h p))).
      intros j Hj. rewrite Hvp by assumption. reflexivity.
    - apply (Hsum (fun j => vy (v_pts' bt' j h p)) (fun j => vy (v_pts bt j h p))).
      intros j Hj. rewrite Hvp by assumption. reflexivity.
    - apply (Hsum (fun j => vz (v_pts' bt' j h p)) (fun j => vz (v_pts bt j h p))).
      intros j Hj. rewrite Hvp by assumption. reflexivity. }
  unfold forward_output, Linear_forward, F_linear.
  f_equal. apply big_sum_ext. intros n _. f_equal.
  unfold cat2, _forward_o_pt_norm_jit, _forward_o_pt_norm_eager.
  rewrite Hr.
  repeat match goal with
         | |- context [(?x <? ?y)%nat] => destruct (x <? y)%nat
         end;
    try rewrite Hpt; try rewrite Ho; try rewrite Hpair; try reflexivity.
  all: destruct ind; cbv beta; rewrite ?Hr, ?Hpt; reflexivity.
Qed.

Lemma forward_reindexed (self : InvariantPointAttention.t)
    (fp16 ind : bool) (N : nat) (s s' : T3) (z z' : T4) (r r' : Frames)
    (mask mask' : T2) (bt bt' : nat) (pi : nat -> nat) :
  (forall f : nat -> R, big_sum N (fun j => f (pi j)) = big_sum N f) ->
  (forall i c, (i < N)%nat -> s' bt' i c = s bt (pi i) c) ->
  (forall i j c, (i < N)%nat -> (j < N)%nat ->
     z' bt' i j c = z bt (pi i) (pi j) c) ->
  (forall i, (i < N)%nat -> r' bt' i = r bt (pi i)) ->
  (forall i, (i < N)%nat -> mask' bt' i = mask bt (pi i)) ->
  result_rel
    (fun u' u => forall i c, (i < N)%nat -> u' bt' i c = u bt (pi i) c)
    (forward self fp16 ind N s' z' r' mask')
    (forward self fp16 ind N s z r mask).
Proof.
  intros Hperm Hs Hz Hr Hm.
  assert (HF : forall i n w b o, (i < N)%nat ->
             F_linear n (s' bt' i) w b o = F_linear n (s bt (pi i)) w b o).
  { intros i n w b o Hi. apply F_linear_ext. intros c. apply Hs. assumption. }
  unfold forward, forward_activations, _forward_linears_on_inputs_eager.
  cbv zeta.
  match goal with
  | |- result_rel _
         (bindR (forward_attention _ _ _ _ ?q' ?b' ?k' ?qp' ?kp' _) _)
         (bindR (forward_attention _ _ _ _ ?q ?b ?k ?qp ?kp _) _) =>
      destruct (forward_attention_char self fp16 ind N q' b' k' qp' kp' mask')
        as (a' & Ha' & E');
      destruct (forward_attention_char self fp16 ind N q b k qp kp mask)
        as (a & Ha & E);
      assert (HL : forall h i j, (i < N)%nat -> (j < N)%nat ->
                 logit_spec q' k' b' qp' kp' (c_hidden self)
                   (head_weights self) (num_qk_points self) bt' h i j =
                 logit_spec q k b qp kp (c_hidden self)
                   (head_weights self) (num_qk_points self) bt h (pi i) (pi j))
  end.
  { intros h i j Hi Hj. apply logit_spec_ext; intros; cbv beta;
      rewrite ?Hr by assumption; rewrite ?HF by assumption; try reflexivity.
    apply F_linear_ext. intros c. apply Hz; assumption. }
  rewrite E', E.
  destruct ((c_hidden self =? 0)%nat || (num_qk_points self =? 0)%nat).
  { reflexivity. }
  cbn [bindR ok raise result_rel].
  intros i c Hi.
  apply forward_output_reindexed; try assumption.
  - intros h j Hj. rewrite Ha', Ha. unfold softmax. f_equal.
    + f_equal. rewrite HL by assumption. unfold mask_bias.
      rewrite !Hm by assumption. reflexivity.
    + match goal with
      | |- _ = big_sum N ?F => rewrite <- (Hperm F)
      end.
      apply big_sum_ext. intros j' Hj'. f_equal.
      rewrite HL by assumption. unfold mask_bias.
      rewrite !Hm by assumption. reflexivity.
  - intros j h c0 Hj. cbv beta. apply HF. assumption.
  - intros j h p Hj. cbv beta. rewrite Hr by assumption.
    rewrite !HF by assumption. reflexivity.
  - intros j c0 Hj. apply Hz; assumption.
  - apply Hr. assumption.
Qed.

(** X7.  For a module with [c_hidden] and [num_qk_points] not 0 and a
    non-empty residue axis, the attention weights are a probability
    distribution over the keys: every weight lies between 0 and 1 and, in
    exact arithmetic, every row sums to 1, whatever the mask. *)
Theorem ipa_attention_rows_are_distributions
    (self : InvariantPointAttention.t) (fp16 ind : bool) (N : nat)
    (q b k : T4) (q_pts k_pts : P4) (mask : T2) :
  c_hidden self <> 0%nat -> num_qk_points self <> 0%nat -> (0 < N)%nat ->
  exists a,
    forward_attention self fp16 ind N q b k q_pts k_pts mask = ok a /\
    forall bt h i,
      big_sum N (a bt h i) = 1 /\
      forall j, (j < N)%nat -> 0 <= a bt h i j <= 1.
Proof.
  intros HC HP HN.
  destruct (forward_attention_char self fp16 ind N q b k q_pts k_pts mask)
    as (a & Ha & E).
  exists a. split.
  { rewrite E. destruct (c_hidden self); [contradiction|].
    destruct (num_qk_points self); [contradiction|]. reflexivity. }
  intros bt h i.
  assert (Hsum : big_sum N (a bt h i) = 1).
  { rewrite (big_sum_ext N (a bt h i) _ (fun j _ => Ha bt h i j)).
    apply softmax_sum. assumption. }
  split; [assumption|]. intros j Hj.
  assert (Hpos : forall j', 0 < a bt h i j')
    by (intros j'; rewrite Ha; apply softmax_pos; assumption).
  split; [left; apply Hpos|]. rewrite <- Hsum.
  apply (big_sum_ge_term N (a bt h i) j); [|assumption].
  intros j' _. left. apply Hpos.
Qed.

Lemma ipa_attention_rows_are_distributions_witness :
  exists a,
    forward_attention ipa false false N_res
      (fun _ _ _ _ => 0) (fun _ _ _ _ => 0) (fun _ _ _ _ => 0)
      (fun _ _ _ _ => mkvec3 0 0 0) (fun _ _ _ _ => mkvec3 0 0 0) mask = ok a /\
    forall bt h i,
      big_sum N_res (a bt h i) = 1 /\
      forall j, (j < N_res)%nat -> 0 <= a bt h i j <= 1.
Proof.
  apply (ipa_attention_rows_are_distributions ipa false false N_res).
  - cbn. lia.
  - cbn. lia.
  - unfold N_res. lia.
Defined.

(** X8.  The row of attention weights of a masked query is the one an
    all-ones mask gives: for a query [i] with mask 0 the bias
    [(mask_i * mask_j - 1) * inf] is the same for every key, and the softmax
    cancels it. *)
Theorem ipa_masked_query_row_unmasked
    (self : InvariantPointAttention.t) (fp16 ind : bool) (N : nat)
    (q b k : T4) (q_pts k_pts : P4) (mask : T2) (bt i : nat) :
  c_hidden self <> 0%nat -> num_qk_points self <> 0%nat ->
  mask bt i = 0 ->
  exists a a1,
    forward_attention self fp16 ind N q b k q_pts k_pts mask = ok a /\
    forward_attention self fp16 ind N q b k q_pts k_pts (fun _ _ => 1) =
      ok a1 /\
    forall h j, a bt h i j = a1 bt h i j.
Proof.
  intros HC HP Hmask.
  destruct (forward_attention_char self fp16 ind N q b k q_pts k_pts mask)
    as (a & Ha & E).
  destruct (forward_attention_char self fp16 ind N q b k q_pts k_pts
              (fun _ _ => 1)) as (a1 & Ha1 & E1).
  exists a, a1.
  assert (Hcfg : (c_hidden self =? 0)%nat || (num_qk_points self =? 0)%nat
                 = false).
  { destruct (c_hidden self); [contradiction|].
    destruct (num_qk_points self); [contradiction|]. reflexivity. }
  rewrite Hcfg in E, E1. split; [assumption|]. split; [assumption|].
  intros h j. rewrite Ha, Ha1.
  set (L := logit_spec q k b q_pts k_pts (c_hidden self) (head_weights self)
              (num_qk_points self) bt h i).
  rewrite (softmax_ext N _ (fun j' => L j' + (- inf self))).
  2:{ intros j'. unfold mask_bias. rewrite Hmask. fold (L j'). ring. }
  rewrite (softmax_ext N (fun j' => _ + mask_bias (fun _ _ => 1) _ _ _ _)
             (fun j' => L j' + 0)).
  2:{ intros j'. unfold mask_bias. fold (L j'). ring. }
  rewrite !softmax_shift. reflexivity.
Qed.

Lemma ipa_masked_query_row_unmasked_witness :
  exists a a1,
    forward_attention ipa false false N_res
      (fun _ _ _ _ => 0) (fun _ _ _ _ => 0) (fun _ _ _ _ => 0)
      (fun _ _ _ _ => mkvec3 0 0 0) (fun _ _ _ _ => mkvec3 0 0 0) mask = ok a /\
    forward_attention ipa false false N_res
      (fun _ _ _ _ => 0) (fun _ _ _ _ => 0) (fun _ _ _ _ => 0)
      (fun _ _ _ _ => mkvec3 0 0 0) (fun _ _ _ _ => mkvec3 0 0 0)
      (fun _ _ => 1) = ok a1 /\
    forall h j, a O h 1%nat j = a1 O h 1%nat j.
Proof.
  apply (ipa_masked_query_row_unmasked ipa false false N_res).
  - cbn. lia.
  - cbn. lia.
  - reflexivity.
Defined.

(** X9.  Elements of the batch do not mix: the rows of [s_update] for the
    batch element [bt] depend only on the entries of [s], [z], [r] and [mask]
    for [bt].  Two calls whose inputs agree on [bt] have the same outcome,
    the same exception or the same [s_update] there. *)
Theorem ipa_forward_batch_local (self : InvariantPointAttention.t)
    (fp16 ind : bool) (N : nat) (s s' : T3) (z z' : T4) (r r' : Frames)
    (mask mask' : T2) (bt : nat) :
  (forall i c, (i < N)%nat -> s' bt i c = s bt i c) ->
  (forall i j c, (i < N)%nat -> (j < N)%nat -> z' bt i j c = z bt i j c) ->
  (forall i, (i < N)%nat -> r' bt i = r bt i) ->
  (forall i, (i < N)%nat -> mask' bt i = mask bt i) ->
  result_rel
    (fun u' u => forall i c, (i < N)%nat -> u' bt i c = u bt i c)
    (forward self fp16 ind N s' z' r' mask')
    (forward self fp16 ind N s z r mask).
Proof.
  intros Hs Hz Hr Hm.
  apply (forward_reindexed self fp16 ind N s s' z z' r r' mask mask' bt bt
           (fun i => i)); try assumption.
  intros f. reflexivity.
Qed.

Lemma ipa_forward_batch_local_witness :
  result_rel
    (fun u' u => forall i c, (i < N_res)%nat -> u' O i c = u O i c)
    (forward ipa false false N_res IPAExample2.s_other_batch z r mask)
    (forward ipa false false N_res s z r mask).
Proof.
  apply (ipa_forward_batch_local ipa false false N_res s
           IPAExample2.s_other_batch z z r r mask mask O).
  - intros i c _. reflexivity.
  - intros i j c _ _. reflexivity.
  - intros i _. reflexivity.
  - intros i _. reflexivity.
Defined.



(** X11.  The bias vector of [linear_b] has no effect on the output: the
    pair bias enters only the attention logits, where the bias of a head is
    the same for every key and the softmax cancels it.  Replacing the vector
    gives the same exception or the same [s_update]. *)
Theorem ipa_linear_b_bias_cancels (self : InvariantPointAttention.t)
    (bias_b : nat -> R) (fp16 ind : bool) (N : nat)
    (s : T3) (z : T4) (r : Frames) (mask : T2) :
  result_rel
    (fun u' u => forall bt i c, u' bt i c = u bt i c)
    (forward (with_linear_b_bias self bias_b) fp16 ind N s z r mask)
    (forward self fp16 ind N s z r mask).
Proof.
  unfold forward, forward_activations, _forward_linears_on_inputs_eager.
  cbv zeta.
  cbn [with_linear_b_bias c_s c_z c_hidden num_heads num_qk_points
       num_v_points inf eps linear_q linear_kv linear_q_points
       linear_kv_points linear_b head_weights linear_out weight bias].
  match goal with
  | |- result_rel _
         (bindR (forward_attention _ _ _ _ ?q ?b' ?k ?qp ?kp _) _)
         (bindR (forward_attention _ _ _ _ _ ?b _ _ _ _) _) =>
      destruct (forward_attention_char (with_linear_b_bias self bias_b)
                  fp16 ind N q b' k qp kp mask) as (a' & Ha' & E');
      destruct (forward_attention_char self fp16 ind N q b k qp kp mask)
        as (a & Ha & E)
  end.
  rewrite E', E.
  cbn [with_linear_b_bias c_hidden num_qk_points].
  destruct ((c_hidden self =? 0)%nat || (num_qk_points self =? 0)%nat).
  { reflexivity. }
  cbn [bindR ok raise result_rel].
  intros bt i c.
  assert (Haa : forall h i j, a' bt h i j = a bt h i j).
  { intros h i0 j. rewrite Ha', Ha.
    cbn [with_linear_b_bias c_hidden num_qk_points head_weights inf].
    rewrite <- (softmax_shift N _
                  (sqrt (1 / 3)
                   * (bias (linear_b self) h - bias_b h)) j).
    apply softmax_ext. intros j'. unfold logit_spec, F_linear.
    replace 0.5 with (1 / 2) by lra. field. }
  match goal with
  | |- forward_output _ _ _ _ ?v ?vp _ _ _ _ _ = _ =>
      transitivity (forward_output self ind N a' v vp z r bt i c);
        [reflexivity|]
  end.
  apply (forward_output_reindexed self ind N a a' _ _ _ _ z z r r bt bt
           (fun i => i)); try reflexivity.
  intros h j _. apply Haa.
Qed.

End IPAExtras.

(** ** Further properties of the Evoformer stack *)

Section StackExtras.
Import EvoformerExample.

Lemma env_stable_block_forward (self : EvoformerBlock.t)
    (m z msa_mask pair_mask : loc) :
  env_stable (EvoformerBlock.forward self m z msa_mask pair_mask).
Proof.
  unfold EvoformerBlock.forward, EvoformerBlock.call_msa_att_row,
    EvoformerBlock.call_msa_att_col, EvoformerBlock.call_core, dap_is_enabled.
  pose proof env_stable_dap_scatter. pose proof env_stable_dap_row_to_col.
  pose proof env_stable_Dropout_forward.
  env_stable_tac.
Qed.

Lemma env_stable_for_blocks {B} (body : B -> loc -> loc -> M (loc * loc))
    (blocks : list B) :
  (forall block m z, env_stable (body block m z)) ->
  forall m z, env_stable (EvoformerStack.for_blocks body blocks m z).
Proof.
  intros Hbody. induction blocks as [|b bs IH]; intros m z; cbn.
  - apply env_stable_ret.
  - apply env_stable_bind; [apply Hbody|]. intros [m' z']. apply IH.
Qed.

Lemma bindM_assoc {A B C} (m : M A) (k : A -> M B) (k' : B -> M C) (w : World) :
  bindM (bindM m k) k' w = bindM m (fun x => bindM (k x) k') w.
Proof.
  unfold bindM. destruct (m w) as [[e|x] w1]; reflexivity.
Qed.

Lemma for_blocks_app {B} (body : B -> loc -> loc -> M (loc * loc))
    (bs1 bs2 : list B) (m z : loc) (w : World) :
  EvoformerStack.for_blocks body (bs1 ++ bs2) m z w =
  (do '(m1, z1) <- EvoformerStack.for_blocks body bs1 m z;
   EvoformerStack.for_blocks body bs2 m1 z1) w.
Proof.
  revert m z w. induction bs1 as [|b bs1 IH]; intros m z w; cbn.
  - reflexivity.
  - rewrite bindM_assoc. apply bindM_ext. intros [m1 z1] w1. apply IH.
Qed.

Lemma dap_both_disabled (f : loc -> Z -> M loc) (m z : loc) (w : World) :
  dap.is_enabled (dap_ctx w) = false ->
  EvoformerStack.dap_both f m z w = (inr (m, z), w).
Proof.
  intros Hen. unfold EvoformerStack.dap_both.
  rewrite (bindM_run dap_is_enabled _ w w _ eq_refl), Hen. reflexivity.
Qed.

Lemma forward_blocks_disabled (self : EvoformerStack.t)
    (m z msa_mask pair_mask : loc) (w : World) :
  dap.is_enabled (dap_ctx w) = false ->
  EvoformerStack._forward_blocks self m z msa_mask pair_mask w =
  EvoformerStack.for_blocks
    (fun block m z => EvoformerBlock.forward block m z msa_mask pair_mask)
    (EvoformerStack.blocks self) m z w.
Proof.
  intros Hen. unfold EvoformerStack._forward_blocks.
  rewrite (bindM_run _ _ _ _ _ (dap_both_disabled dap_scatter m z w Hen)).
  pose proof (env_stable_for_blocks
                (fun block m z =>
                   EvoformerBlock.forward block m z msa_mask pair_mask)
                (EvoformerStack.blocks self)
                (fun b m0 z0 => env_stable_block_forward b m0 z0 _ _)
                m z w) as (_ & _ & Hctx & _).
  unfold bindM.
  destruct (EvoformerStack.for_blocks _ (EvoformerStack.blocks self) m z w)
    as [[e|[m1 z1]] w1]; [reflexivity|].
  cbn [snd] in Hctx.
  rewrite (dap_both_disabled dap_gather m1 z1 w1) by (rewrite Hctx; exact Hen).
  reflexivity.
Qed.

(** X12.  On a single worker (parallel service not active) the blocks of a
    stack compose: running the blocks of [bs1 ++ bs2] has the same outcome,
    the same exception or the same [(m, z)], and reaches the same state as
    running the blocks of [bs1] and then, on their result, the blocks of
    [bs2]. *)
Theorem evoformer_stack_blocks_compose (bs1 bs2 : list EvoformerBlock.t)
    (lin1 lin2 lin : Linear) (m z msa_mask pair_mask : loc) (w : World) :
  dap.is_enabled (dap_ctx w) = false ->
  EvoformerStack._forward_blocks (EvoformerStack.mk (bs1 ++ bs2) lin)
    m z msa_mask pair_mask w =
  (do '(m1, z1) <-
     EvoformerStack._forward_blocks (EvoformerStack.mk bs1 lin1)
       m z msa_mask pair_mask;
   EvoformerStack._forward_blocks (EvoformerStack.mk bs2 lin2)
     m1 z1 msa_mask pair_mask) w.
Proof.
  intros Hen.
  rewrite forward_blocks_disabled by assumption. cbn [EvoformerStack.blocks].
  rewrite for_blocks_app.
  pose proof (env_stable_for_blocks
                (fun block m z =>
                   EvoformerBlock.forward block m z msa_mask pair_mask)
                bs1 (fun b m0 z0 => env_stable_block_forward b m0 z0 _ _)
                m z w) as (_ & _ & Hctx & _).
  rewrite (bindM_cong _ _ _ _
             (forward_blocks_disabled (EvoformerStack.mk bs1 lin1)
                m z msa_mask pair_mask w Hen)).
  cbn [EvoformerStack.blocks]. unfold bindM.
  destruct (EvoformerStack.for_blocks _ bs1 m z w) as [[e|[m1 z1]] w1];
    [reflexivity|].
  cbn [snd] in Hctx.
  rewrite (forward_blocks_disabled (EvoformerStack.mk bs2 lin2))
    by (rewrite Hctx; exact Hen).
  reflexivity.
Qed.

Lemma evoformer_stack_blocks_compose_witness :
  EvoformerStack._forward_blocks
    (EvoformerStack.mk ([block] ++ [block]) (EvoformerStack.linear stack))
    m z msa_mask pair_mask world =
  (do '(m1, z1) <-
     EvoformerStack._forward_blocks stack m z msa_mask pair_mask;
   EvoformerStack._forward_blocks stack m1 z1 msa_mask pair_mask) world.
Proof.
  apply (evoformer_stack_blocks_compose [block] [block]
           (EvoformerStack.linear stack) (EvoformerStack.linear stack)
           (EvoformerStack.linear stack) m z msa_mask pair_mask world).
  reflexivity.
Defined.

Lemma stack_forward_after_blocks (self : EvoformerStack.t)
    (m z msa_mask pair_mask : loc) (gc : bool) (w w1 : World) (m1 z1 : loc) :
  (gc = true -> grad_enabled w = true) ->
  EvoformerStack._forward_blocks self m z msa_mask pair_mask w =
    (inr (m1, z1), w1) ->
  EvoformerStack.forward self m z msa_mask pair_mask gc w =
  (do tm <- deref m1;
   do row <- liftR (select_first_row tm);
   do ts <- liftR (Linear_forward_tensor (EvoformerStack.linear self) row);
   do s <- alloc ts;
   retM (m1, z1, s)) w1.
Proof.
  intros Hgc E. unfold EvoformerStack.forward.
  assert (E' : (if gc
                then do g <- torch_is_grad_enabled;
                     do _ <- py_assert g;
                     EvoformerStack._forward_blocks_with_gradient_checkpointing
                       self m z msa_mask pair_mask
                else EvoformerStack._forward_blocks self m z msa_mask pair_mask)
               w = (inr (m1, z1), w1)).
  { destruct gc; [|exact E].
    rewrite (bindM_run torch_is_grad_enabled _ w w (grad_enabled w) eq_refl).
    rewrite (Hgc eq_refl).
    rewrite (bindM_run (py_assert true) _ w w tt eq_refl).
    rewrite forward_blocks_checkpointed. exact E. }
  rewrite (bindM_run _ _ _ _ _ E'). reflexivity.
Qed.

(** X13.  The single representation that [EvoformerStack.forward] returns is
    the linear projection of the first row of the [m] it returns: when the
    blocks return [m] of shape [B, S, N, c_m] with [S > 0] and [c_m] the
    input width of the projection, [forward] returns the [m] and [z] of the
    blocks and a new tensor [s] of shape [B, N, c_s] with
    [s[b, j, :] = linear(m[b, 0, j, :])], under either strategy. *)
Theorem evoformer_stack_single_representation (self : EvoformerStack.t)
    (m z msa_mask pair_mask : loc) (gc : bool) (w w1 : World) (m1 z1 : loc)
    (tm : Tensor) (B S N : nat) :
  (gc = true -> grad_enabled w = true) ->
  EvoformerStack._forward_blocks self m z msa_mask pair_mask w =
    (inr (m1, z1), w1) ->
  heap w1 !! m1 = Some tm ->
  shape tm = [B; S; N; in_features (EvoformerStack.linear self)] ->
  S <> 0%nat ->
  exists s ts,
    EvoformerStack.forward self m z msa_mask pair_mask gc w =
      (inr (m1, z1, s), set_heap (<[s := ts]> (heap w1)) w1) /\
    heap w1 !! s = None /\
    shape ts = [B; N; out_features (EvoformerStack.linear self)] /\
    forall b j o,
      data ts [b; j; o] =
      big_sum (in_features (EvoformerStack.linear self))
        (fun c => data tm [b; 0%nat; j; c]
                  * weight (EvoformerStack.linear self) o c)
      + bias (EvoformerStack.linear self) o.
Proof.
  intros Hgc E Hm1 Hsh HS.
  rewrite (stack_forward_after_blocks self m z msa_mask pair_mask gc w w1 m1 z1
             Hgc E).
  rewrite (bindM_run _ _ _ _ _ (deref_run _ _ _ Hm1)).
  unfold select_first_row. rewrite Hsh.
  destruct S as [|S']; [contradiction|]. cbn [Nat.eqb].
  rewrite (bindM_run (liftR (ok _)) _ w1 w1 _ eq_refl).
  unfold Linear_forward_tensor. cbn [shape reverse rev_append].
  unfold reverse. cbn [rev_append]. rewrite Nat.eqb_refl.
  rewrite (bindM_run (liftR (ok _)) _ w1 w1 _ eq_refl).
  eexists _, _. split; [reflexivity|]. split; [apply fresh_lookup|].
  split; [reflexivity|]. intros b j o. reflexivity.
Qed.

Lemma evoformer_stack_single_representation_witness :
  exists s ts,
    EvoformerStack.forward EvoformerExample2.empty_stack m z msa_mask pair_mask
      true world =
      (inr (m, z, s), set_heap (<[s := ts]> (heap world)) world) /\
    heap world !! s = None /\
    shape ts = [1; 2; 1]%nat /\
    forall b j o,
      data ts [b; j; o] =
      big_sum 1 (fun c => data tm [b; 0%nat; j; c] * 1) + 0.
Proof.
  apply (evoformer_stack_single_representation EvoformerExample2.empty_stack
           m z msa_mask pair_mask true world world m z tm 1 2 2).
  - reflexivity.
  - reflexivity.
  - reflexivity.
  - reflexivity.
  - lia.
Defined.

(** X14.  When the [m] that the blocks return has fewer than four axes, or
    an empty second axis, [m[:, 0, :, :]] fails: [EvoformerStack.forward]
    raises [IndexError] after the blocks have run, and returns no [s]. *)
Theorem evoformer_stack_first_row_missing (self : EvoformerStack.t)
    (m z msa_mask pair_mask : loc) (gc : bool) (w w1 : World) (m1 z1 : loc)
    (tm : Tensor) :
  (gc = true -> grad_enabled w = true) ->
  EvoformerStack._forward_blocks self m z msa_mask pair_mask w =
    (inr (m1, z1), w1) ->
  heap w1 !! m1 = Some tm ->
  (length (shape tm) < 4)%nat \/ shape tm !! 1%nat = Some 0%nat ->
  EvoformerStack.forward self m z msa_mask pair_mask gc w =
    (inl IndexError, w1).
Proof.
  intros Hgc E Hm1 Hbad.
  rewrite (stack_forward_after_blocks self m z msa_mask pair_mask gc w w1 m1 z1
             Hgc E).
  rewrite (bindM_run _ _ _ _ _ (deref_run _ _ _ Hm1)).
  unfold select_first_row.
  destruct (shape tm) as [|b [|s [|n [|c rest]]]]; try reflexivity.
  destruct Hbad as [Hlen|Hs]; [cbn in Hlen; lia|].
  cbn in Hs. injection Hs as ->. reflexivity.
Qed.

Lemma evoformer_stack_first_row_missing_witness :
  EvoformerStack.forward EvoformerExample2.empty_stack msa_mask z msa_mask
    pair_mask false world = (inl IndexError, world).
Proof.
  apply (evoformer_stack_first_row_missing EvoformerExample2.empty_stack
           msa_mask z msa_mask pair_mask false world world msa_mask z tmsa).
  - discriminate.
  - reflexivity.
  - reflexivity.
  - left. cbn. lia.
Defined.

(** X15.  A block that raises stops the stack: on a single worker, when the
    blocks before it return and the block raises [e], [EvoformerStack.forward]
    raises [e] in the state the block left, under either strategy; the blocks
    after it do not run and no [s] is computed. *)
Theorem evoformer_stack_block_failure (bs1 bs2 : list EvoformerBlock.t)
    (b : EvoformerBlock.t) (lin : Linear) (m z msa_mask pair_mask : loc)
    (gc : bool) (w w1 w2 : World) (m1 z1 : loc) (e : exn) :
  dap.is_enabled (dap_ctx w) = false ->
  (gc = true -> grad_enabled w = true) ->
  EvoformerStack._forward_blocks (EvoformerStack.mk bs1 lin)
    m z msa_mask pair_mask w = (inr (m1, z1), w1) ->
  EvoformerBlock.forward b m1 z1 msa_mask pair_mask w1 = (inl e, w2) ->
  EvoformerStack.forward (EvoformerStack.mk (bs1 ++ b :: bs2) lin)
    m z msa_mask pair_mask gc w = (inl e, w2).
Proof.
  intros Hen Hgc E1 Eb.
  rewrite forward_blocks_disabled in E1 by assumption.
  cbn [EvoformerStack.blocks] in E1.
  assert (E : EvoformerStack._forward_blocks
                (EvoformerStack.mk (bs1 ++ b :: bs2) lin)
                m z msa_mask pair_mask w = (inl e, w2)).
  { rewrite forward_blocks_disabled by assumption.
    cbn [EvoformerStack.blocks]. rewrite for_blocks_app.
    rewrite (bindM_run _ _ _ _ _ E1). cbn [EvoformerStack.for_blocks].
    unfold bindM. rewrite Eb. reflexivity. }
  unfold EvoformerStack.forward. unfold bindM at 1.
  destruct gc.
  - rewrite (bindM_run torch_is_grad_enabled _ w w (grad_enabled w) eq_refl).
    rewrite (Hgc eq_refl).
    rewrite (bindM_run (py_assert true) _ w w tt eq_refl).
    rewrite forward_blocks_checkpointed, E. reflexivity.
  - rewrite E. reflexivity.
Qed.

Lemma evoformer_stack_block_failure_witness :
  EvoformerStack.forward
    (EvoformerStack.mk ([] ++ EvoformerExample2.failing_block :: [block])
       (EvoformerStack.linear stack))
    m z msa_mask pair_mask true world =
  (inl IndexError,
   (EvoformerBlock.forward EvoformerExample2.failing_block
      m z msa_mask pair_mask world).2).
Proof.
  apply (evoformer_stack_block_failure [] [block]
           EvoformerExample2.failing_block (EvoformerStack.linear stack)
           m z msa_mask pair_mask true world world _ m z IndexError).
  - reflexivity.
  - reflexivity.
  - reflexivity.
  - reflexivity.
Defined.

End StackExtras.

(** ** The GPU memory report *)

Section GpuMemFacts.
Import gpu_mem_analyze.

Example gpu_mem_dumps_example :
  gpu_mem_dumps [("nid001", [(7 # 2)%Q; (-7 # 2)%Q])] = "nid001 | 3 MiB | -3 MiB".
Proof. reflexivity. Qed.

Example gpu_mem_diff_example :
  gpu_mem_diff example_start example_end false "Start" "End" =
  (inr [("nid001", [15 - 10; 20 - 20; 25 - 30; 40 - 40]%Q);
        ("nid002", [2 - 1; 2 - 2; 5 - 3; 4 - 4]%Q)], []).
Proof. reflexivity. Qed.

Lemma dict_get_inv (d : OrderedDict) (k : string) :
  match dict_get d k with
  | inl e => e = KeyError k /\ k ∉ d.*1
  | inr v => (k, v) ∈ d
  end.
Proof.
  induction d as [|[k' v'] d IH]; cbn.
  - split; [reflexivity|]. apply not_elem_of_nil.
  - destruct (String.eqb_spec k' k) as [->|Hne].
    + apply elem_of_cons. left. reflexivity.
    + destruct (dict_get d k) as [e|v].
      * destruct IH as [-> Hnot]. split; [reflexivity|].
        intros Hin. apply elem_of_cons in Hin as [Heq|Hin]; [|contradiction].
        apply Hne. symmetry. exact Heq.
      * apply elem_of_cons. right. exact IH.
Qed.

Lemma dict_get_elem (d : OrderedDict) (k : string) (v : ndarray) :
  NoDup (d.*1) -> (k, v) ∈ d -> dict_get d k = inr v.
Proof.
  induction d as [|[k' v'] d IH]; cbn; intros Hnd Hin.
  - inversion Hin.
  - apply NoDup_cons in Hnd as [Hk' Hnd].
    apply elem_of_cons in Hin as [[= -> ->]|Hin].
    + rewrite String.eqb_refl. reflexivity.
    + destruct (String.eqb_spec k' k) as [->|Hne]; [|apply IH; assumption].
      exfalso. apply Hk'. apply (list_elem_of_fmap_2 fst _ _ Hin).
Qed.

Lemma dict_set_fresh (d : OrderedDict) (k : string) (v : ndarray) :
  k ∉ d.*1 -> dict_set d k v = d ++ [(k, v)].
Proof.
  induction d as [|[k' v'] d IH]; cbn; intros Hk; [reflexivity|].
  apply not_elem_of_cons in Hk as [Hne Hk].
  destruct (String.eqb_spec k' k) as [->|_]; [contradiction|].
  rewrite IH by assumption. reflexivity.
Qed.

Lemma np_sub_same_length (a b : ndarray) :
  length a = length b -> np_sub a b = inr (zip_with Qminus a b).
Proof. intros H. unfold np_sub. rewrite H, Nat.eqb_refl. reflexivity. Qed.

(** The loop on hosts whose arrays all have the length [n]. *)
Lemma diff_loop_outcome (n : nat) (keys : list string)
    (gpu_mem_start gpu_mem_end acc : OrderedDict) :
  Forall (fun kv => length kv.2 = n) gpu_mem_start ->
  Forall (fun kv => length kv.2 = n) gpu_mem_end ->
  (forall k, k ∈ keys -> k ∈ gpu_mem_start.*1) ->
  match diff_loop keys gpu_mem_start gpu_mem_end acc with
  | inl e =>
      exists k, e = KeyError k /\ k ∈ keys /\ k ∉ gpu_mem_end.*1
  | inr _ => forall k, k ∈ keys -> k ∈ gpu_mem_end.*1
  end.
Proof.
  intros Hs He. revert acc. induction keys as [|k keys IH]; intros acc Hkeys.
  - cbn. intros k Hk. inversion Hk.
  - cbn.
    pose proof (dict_get_inv gpu_mem_end k) as Hge.
    destruct (dict_get gpu_mem_end k) as [e|e_k].
    { destruct Hge as [-> Hnot]. exists k. split; [reflexivity|].
      split; [apply elem_of_cons; left; reflexivity|assumption]. }
    pose proof (dict_get_inv gpu_mem_start k) as Hgs.
    destruct (dict_get gpu_mem_start k) as [e|s_k].
    { destruct Hgs as [_ Hnot]. exfalso. apply Hnot. apply Hkeys.
      apply elem_of_cons. left. reflexivity. }
    rewrite np_sub_same_length.
    2:{ rewrite Forall_forall in Hs, He.
        pose proof (Hs _ Hgs) as H1. pose proof (He _ Hge) as H2.
        cbn in H1, H2. congruence. }
    specialize (IH (dict_set acc k (zip_with Qminus e_k s_k))
                  (fun k0 Hk0 => Hkeys k0 (proj2 (elem_of_cons _ _ _)
                                             (or_intror Hk0)))).
    destruct (diff_loop keys gpu_mem_start gpu_mem_end _) as [e|d].
    + destruct IH as (k0 & -> & Hin & Hnot). exists k0.
      split; [reflexivity|]. split; [|assumption].
      apply elem_of_cons. right. assumption.
    + intros k0 Hk0. apply elem_of_cons in Hk0 as [->|Hk0].
      * apply (list_elem_of_fmap_2 fst _ _ Hge).
      * apply IH. assumption.
Qed.

(** The difference of the two reports of one host. *)
Lemma diff_loop_run (gpu_mem_start gpu_mem_end : OrderedDict)
    (l2 l1 : OrderedDict) (acc : OrderedDict) :
  NoDup ((l1 ++ l2).*1) ->
  acc.*1 = l1.*1 ->
  (forall k s_k, (k, s_k) ∈ l2 ->
     dict_get gpu_mem_start k = inr s_k /\
     exists e_k, dict_get gpu_mem_end k = inr e_k /\ length e_k = length s_k) ->
  exists d,
    diff_loop (l2.*1) gpu_mem_start gpu_mem_end acc = inr (acc ++ d) /\
    d.*1 = l2.*1 /\
    forall k s_k e_k,
      (k, s_k) ∈ l2 -> dict_get gpu_mem_end k = inr e_k ->
      (k, zip_with Qminus e_k s_k) ∈ d.
Proof.
  revert l1 acc. induction l2 as [|[k s_k] l2 IH]; intros l1 acc Hnd Hacc Hl2.
  - exists []. cbn. rewrite app_nil_r. split; [reflexivity|].
    split; [reflexivity|]. intros k s_k e_k Hin. inversion Hin.
  - rewrite fmap_cons. cbn [fst diff_loop].
    destruct (Hl2 k s_k) as (Hgs & e_k & Hge & Hlen);
      [apply elem_of_cons; left; reflexivity|].
    rewrite Hge, Hgs, (np_sub_same_length _ _ Hlen).
    assert (Hfresh : k ∉ acc.*1).
    { rewrite Hacc. rewrite fmap_app in Hnd. cbn in Hnd.
      apply NoDup_app in Hnd as (_ & Hdisj & _).
      intros Hin. apply (Hdisj k Hin). apply elem_of_cons. left. reflexivity. }
    rewrite (dict_set_fresh _ _ _ Hfresh).
    destruct (IH (l1 ++ [(k, s_k)]) (acc ++ [(k, zip_with Qminus e_k s_k)]))
      as (d & Ed & Hkeys & Hd).
    { rewrite <- app_assoc. exact Hnd. }
    { rewrite !fmap_app, Hacc. reflexivity. }
    { intros k0 s0 Hin. apply Hl2. apply elem_of_cons. right. assumption. }
    exists ((k, zip_with Qminus e_k s_k) :: d).
    split; [etransitivity; [exact Ed|]; rewrite <- app_assoc; reflexivity|].
    split; [cbn; rewrite Hkeys; reflexivity|].
    intros k0 s0 e0 Hin He0. apply elem_of_cons in Hin as [[= -> ->]|Hin].
    + rewrite Hge in He0. injection He0 as <-.
      apply elem_of_cons. left. reflexivity.
    + apply elem_of_cons. right. eapply Hd; eassumption.
Qed.

(** X16.  When the second report is not empty and has, for every host of
    the first report, an array of the same length, [gpu_mem_diff] returns a
    dictionary with the hosts of the first report, in their order, each with
    the entrywise difference end minus start; hosts that only the second
    report has are left out. *)
Theorem gpu_mem_diff_per_host (gpu_mem_start gpu_mem_end : OrderedDict)
    (print_stdout : bool) (desc_start desc_end : string) :
  NoDup (gpu_mem_start.*1) ->
  gpu_mem_end <> [] ->
  (forall k s_k, (k, s_k) ∈ gpu_mem_start ->
     exists e_k, dict_get gpu_mem_end k = inr e_k /\ length e_k = length s_k) ->
  exists d,
    (gpu_mem_diff gpu_mem_start gpu_mem_end print_stdout desc_start desc_end).1
      = inr d /\
    d.*1 = gpu_mem_start.*1 /\
    forall k s_k e_k,
      dict_get gpu_mem_start k = inr s_k ->
      dict_get gpu_mem_end k = inr e_k ->
      dict_get d k = inr (zip_with Qminus e_k s_k).
Proof.
  intros Hnd Hne Hall.
  destruct (diff_loop_run gpu_mem_start gpu_mem_end gpu_mem_start [] [])
    as (d & Ed & Hkeys & Hd).
  { exact Hnd. }
  { reflexivity. }
  { intros k s_k Hin. split; [apply dict_get_elem; assumption|].
    apply Hall. assumption. }
  exists d. unfold gpu_mem_diff.
  destruct gpu_mem_end as [|kv rest]; [contradiction|].
  cbn [length Nat.eqb negb]. rewrite Ed. cbn [app fst].
  split; [reflexivity|]. split; [assumption|].
  intros k s_k e_k Hs He.
  apply dict_get_elem; [rewrite Hkeys; assumption|].
  apply (Hd k s_k e_k); [|assumption].
  pose proof (dict_get_inv gpu_mem_start k) as Hinv. rewrite Hs in Hinv.
  exact Hinv.
Qed.

Lemma gpu_mem_diff_per_host_witness :
  exists d,
    (gpu_mem_diff example_start example_end true "Start" "End").1 = inr d /\
    d.*1 = example_start.*1 /\
    forall k s_k e_k,
      dict_get example_start k = inr s_k ->
      dict_get example_end k = inr e_k ->
      dict_get d k = inr (zip_with Qminus e_k s_k).
Proof.
  apply (gpu_mem_diff_per_host example_start example_end true "Start" "End").
  - apply (bool_decide_unpack _). reflexivity.
  - discriminate.
  - intros k s_k Hin. unfold example_start in Hin.
    repeat (apply elem_of_cons in Hin as [[= -> ->]|Hin];
            [eexists; split; reflexivity|]).
    inversion Hin.
Defined.

(** X17.  With arrays of one length, [gpu_mem_diff] fails only when the
    second report is not empty and lacks a host of the first: it then raises
    [KeyError] for such a host and prints nothing.  An empty second report is
    no error: the result is the empty dictionary, whatever the first report
    holds. *)
Theorem gpu_mem_diff_missing_host (n : nat)
    (gpu_mem_start gpu_mem_end : OrderedDict)
    (print_stdout : bool) (desc_start desc_end : string) :
  Forall (fun kv => length kv.2 = n) gpu_mem_start ->
  Forall (fun kv => length kv.2 = n) gpu_mem_end ->
  match gpu_mem_diff gpu_mem_start gpu_mem_end print_stdout
          desc_start desc_end with
  | (inl e, out) =>
      out = [] /\ gpu_mem_end <> [] /\
      exists k, e = KeyError k /\
                k ∈ gpu_mem_start.*1 /\
                k ∉ gpu_mem_end.*1
  | (inr d, _) =>
      (gpu_mem_end = [] -> d = []) /\
      (gpu_mem_end <> [] ->
       forall k, k ∈ gpu_mem_start.*1 -> k ∈ gpu_mem_end.*1)
  end.
Proof.
  intros Hs He. unfold gpu_mem_diff.
  destruct gpu_mem_end as [|kv rest].
  { cbn. split; [reflexivity|contradiction]. }
  cbn [length Nat.eqb negb].
  pose proof (diff_loop_outcome n (gpu_mem_start.*1) gpu_mem_start
                (kv :: rest) [] Hs He (fun k H => H)) as Hloop.
  destruct (diff_loop _ gpu_mem_start (kv :: rest) []) as [e|d].
  - split; [reflexivity|]. split; [discriminate|]. exact Hloop.
  - split; [discriminate|]. intros _. exact Hloop.
Qed.

Lemma gpu_mem_diff_missing_host_witness :
  match gpu_mem_diff example_end example_start true "Start" "End" with
  | (inl e, out) =>
      out = [] /\ example_start <> [] /\
      exists k, e = KeyError k /\
                k ∈ example_end.*1 /\
                k ∉ example_start.*1
  | (inr d, _) =>
      (example_start = [] -> d = []) /\
      (example_start <> [] ->
       forall k, k ∈ example_end.*1 -> k ∈ example_start.*1)
  end.
Proof.
  apply (gpu_mem_diff_missing_host 4 example_end example_start true
           "Start" "End").
  - repeat constructor.
  - repeat constructor.
Defined.

End GpuMemFacts.
